(** * muffind: batch JPEG resize/compress and sequential rename utilities

    A shallow embedding of [compress_images.py], [compress_ultra.py] and
    [rename_images.py], and the properties of their resize arithmetic,
    error boundary, folder enumeration and rename policy. *)

From Stdlib Require Import ZArith QArith Qround Qabs Qpower Qminmax Lqa Lia List Bool.
From Stdlib Require Import Ascii String OrderedTypeEx.
From Stdlib Require Import SpecFloat.
From stdpp Require Import gmap strings list sorting.

Open Scope Z_scope.

(** * Python numbers: [int] as [Z], [float] as IEEE-754 binary64

    A finite double is represented by the rational it denotes.  Python's
    [int / int], [int * float] and [int(float)] are correctly rounded
    (round to nearest, ties to even) binary64 operations; [round_ne] is that
    rounding, written on the exact rational result. *)
Module PyFloat.

Inductive exn : Type :=
  | ZeroDivisionError
  | OverflowError
  | ValueError
  | OSError (msg : string)
  | OtherException (msg : string).

Inductive float : Type :=
  | Finite (q : Q)
  | Infinity (negative : bool)
  | NaN.

(** 53 bits of precision, least quantum [2^-1074], overflow at [2^1024]. *)
Definition prec : Z := 53.
Definition emax : Z := 1024.
Definition emin : Z := 3 - emax - prec.

(** For [n, d > 0]: the [k] with [2^k <= n/d < 2^(k+1)]. *)
Definition floor_log2_ratio (n d : Z) : Z :=
  let k := Z.log2 n - Z.log2 d in
  if n * 2 ^ Z.max 0 (- k) <? d * 2 ^ Z.max 0 k then k - 1 else k.

(** Exponent of the unit in the last place of the double nearest [n/d]. *)
Definition quantum_exp (n d : Z) : Z :=
  Z.max (floor_log2_ratio n d + 1 - prec) emin.

(** Nearest integer to [n/d] ([d > 0]), ties to the even one. *)
Definition round_half_even (n d : Z) : Z :=
  let f := n / d in
  let r := n mod d in
  match 2 * r ?= d with
  | Lt => f
  | Gt => f + 1
  | Eq => if Z.even f then f else f + 1
  end.

(** The rational [m * 2^e]. *)
Definition dyadic (m e : Z) : Q :=
  if 0 <=? e then inject_Z (m * 2 ^ e) else Qred (m # Z.to_pos (2 ^ (- e))).

(** Rounding of the positive rational [n/d]: [None] on overflow. *)
Definition round_pos (n d : Z) : option Q :=
  let e := quantum_exp n d in
  let m := round_half_even (n * 2 ^ Z.max 0 (- e)) (d * 2 ^ Z.max 0 e) in
  if (0 <=? e) && (2 ^ emax <=? m * 2 ^ e) then None
  else Some (dyadic m e).

Definition round_ne (x : Q) : float :=
  match Qnum x with
  | Z0 => Finite 0
  | Zpos n =>
      match round_pos (Zpos n) (QDen x) with
      | Some v => Finite v
      | None => Infinity false
      end
  | Zneg n =>
      match round_pos (Zpos n) (QDen x) with
      | Some v => Finite (Qopp v)
      | None => Infinity true
      end
  end.

(** [a / b] on Python ints: true division, correctly rounded, raising on a
    zero divisor and on a quotient too large for a double. *)
Definition truediv (a b : Z) : exn + float :=
  if b =? 0 then inl ZeroDivisionError
  else match round_ne (Qmake (a * Z.sgn b) (Z.to_pos (Z.abs b))) with
       | Finite v => inr (Finite v)
       | _ => inl OverflowError
       end.

(** Conversion of an int operand to float in mixed arithmetic. *)
Definition of_int (a : Z) : exn + float :=
  match round_ne (inject_Z a) with
  | Finite v => inr (Finite v)
  | _ => inl OverflowError
  end.

Definition is_zero (q : Q) : bool := Qnum q =? 0.
Definition is_neg (q : Q) : bool := Qnum q <? 0.

(** [x * y] on floats: overflow gives an infinity, no exception. *)
Definition fmul (x y : float) : float :=
  match x, y with
  | Finite p, Finite q => round_ne (p * q)
  | Finite p, Infinity s | Infinity s, Finite p =>
      if is_zero p then NaN else Infinity (xorb s (is_neg p))
  | Infinity s, Infinity t => Infinity (xorb s t)
  | NaN, _ | _, NaN => NaN
  end.

(** [a * x] with [a] an int and [x] a float. *)
Definition mul_int_float (a : Z) (x : float) : exn + float :=
  match of_int a with
  | inl e => inl e
  | inr fa => inr (fmul fa x)
  end.

(** [x < y] on floats; every comparison with a NaN is false. *)
Definition flt (x y : float) : bool :=
  match x, y with
  | NaN, _ | _, NaN => false
  | Finite p, Finite q => match p ?= q with Lt => true | _ => false end
  | Finite _, Infinity s => negb s
  | Infinity s, Finite _ => s
  | Infinity s, Infinity t => s && negb t
  end%Q.

(** The builtin [min(x, y)]: the first argument unless the second is
    strictly smaller. *)
Definition fmin (x y : float) : float := if flt y x then y else x.

(** Truncation toward zero of a rational. *)
Definition Qtrunc (q : Q) : Z := Z.quot (Qnum q) (QDen q).

(** The builtin [int(x)] on a float. *)
Definition to_int (x : float) : exn + Z :=
  match x with
  | Finite q => inr (Qtrunc q)
  | Infinity _ => inl OverflowError
  | NaN => inl ValueError
  end.

(** Unit roundoff of binary64, [2 ^ (-53)]. *)
Definition u53 : Q := (1 # 9007199254740992)%Q.

End PyFloat.

Import PyFloat.

Definition bind_exn {A B} (m : exn + A) (k : A -> exn + B) : exn + B :=
  match m with inl e => inl e | inr a => k a end.

(** Lines 72-74 of [compress_images.py] (67-69 of [compress_ultra.py]). *)
Definition scale_ratio_of (original_width original_height max_width max_height : Z)
  : exn + float :=
  bind_exn (truediv max_width original_width) (fun width_ratio =>
  bind_exn (truediv max_height original_height) (fun height_ratio =>
  inr (fmin width_ratio height_ratio))).

(** The size computation of [compress_image] (lines 72-77), shared verbatim
    with [compress_image_ultra] (lines 67-72). *)
Definition scaled_size (original_width original_height max_width max_height : Z)
  : exn + (Z * Z) :=
  bind_exn (scale_ratio_of original_width original_height max_width max_height)
    (fun scale_ratio =>
  bind_exn (bind_exn (mul_int_float original_width scale_ratio) to_int) (fun new_width =>
  bind_exn (bind_exn (mul_int_float original_height scale_ratio) to_int) (fun new_height =>
  inr (new_width, new_height)))).

(** The size the specification describes: [floor(W*s)], [floor(H*s)] with
    [s = min(maxW/W, maxH/H)] in exact arithmetic. *)
Definition spec_scale (W H maxW maxH : Z) : Q :=
  Qmin (inject_Z maxW / inject_Z W) (inject_Z maxH / inject_Z H).

Definition spec_scaled_size (W H maxW maxH : Z) : Z * Z :=
  let s := spec_scale W H maxW maxH in
  (Qfloor (inject_Z W * s), Qfloor (inject_Z H * s)).

(** * Strings and paths

    File names are byte strings; [lower] changes the ASCII letters only,
    which is all that the extension tests can observe. *)
Module PyStr.

Definition lower_ascii (c : ascii) : ascii :=
  let n := nat_of_ascii c in
  if (65 <=? n)%nat && (n <=? 90)%nat then ascii_of_nat (n + 32) else c.

Fixpoint lower (s : string) : string :=
  match s with
  | EmptyString => EmptyString
  | String c r => String (lower_ascii c) (lower r)
  end.

(** [s.endswith(suffix)]. *)
Fixpoint endswith (s suffix : string) : bool :=
  String.eqb s suffix ||
  match s with
  | EmptyString => false
  | String _ r => endswith r suffix
  end.

(** [s.rfind(c)] for a one-character [c]: the last index, or [-1]. *)
Fixpoint rfind_from (c : ascii) (s : string) (i acc : Z) : Z :=
  match s with
  | EmptyString => acc
  | String a r => rfind_from c r (i + 1) (if Ascii.eqb a c then i else acc)
  end.

Definition rfind (c : ascii) (s : string) : Z := rfind_from c s 0 (-1).

Fixpoint all_dots (s : string) : bool :=
  match s with
  | EmptyString => true
  | String a r => Ascii.eqb a "." && all_dots r
  end.

(** The slice [p[a:b]] for [0 <= a]. *)
Definition slice (p : string) (a b : Z) : string :=
  substring (Z.to_nat a) (Z.to_nat (b - a)) p.

(** [os.path.splitext] (posixpath): the extension starts at the last dot
    of the last path component, unless only dots precede it there. *)
Definition splitext (p : string) : string * string :=
  let sepIndex := rfind "/" p in
  let dotIndex := rfind "." p in
  let n := Z.of_nat (String.length p) in
  if (sepIndex <? dotIndex) && negb (all_dots (slice p (sepIndex + 1) dotIndex))
  then (slice p 0 dotIndex, slice p dotIndex n)
  else (p, EmptyString).

(** [c not in s]. *)
Fixpoint free_of (c : ascii) (s : string) : bool :=
  match s with
  | EmptyString => true
  | String a r => negb (Ascii.eqb a c) && free_of c r
  end.

Definition digit_char (d : Z) : ascii := ascii_of_nat (48 + Z.to_nat d).

(** Decimal digits of [n >= 0], most significant first, pushed on [acc]. *)
Fixpoint digits_fuel (fuel : nat) (n : Z) (acc : string) : string :=
  let acc' := String (digit_char (n mod 10)) acc in
  match fuel with
  | O => acc'
  | S fuel' => if n <? 10 then acc' else digits_fuel fuel' (n / 10) acc'
  end.

(** [str(n)] on an int. *)
Definition str (n : Z) : string :=
  if n <? 0 then String "-" (digits_fuel (Z.to_nat (Z.log2 (- n))) (- n) EmptyString)
  else digits_fuel (Z.to_nat (Z.log2 n)) n EmptyString.

Fixpoint zeros (k : nat) : string :=
  match k with O => EmptyString | S k' => String "0" (zeros k') end.

(** [s.zfill(width)]: zeros go after a leading sign. *)
Definition zfill (s : string) (width : Z) : string :=
  let pad := zeros (Z.to_nat width - String.length s) in
  match s with
  | String c r =>
      if Ascii.eqb c "+" || Ascii.eqb c "-" then String c (pad ++ r)
      else pad ++ s
  | EmptyString => pad
  end%string.

End PyStr.

Import PyStr.


(** * The imaging library and the file system as collaborators

    [compress_image] only selects parameters and sequences calls of Pillow
    and [os]; what those calls answer is a parameter of the model
    ([library]), and every call is recorded in a trace. *)
Module Imaging.

(** Keyword arguments of [Image.save]; an absent keyword is [None]. *)
Record save_kwargs : Type := {
  sk_format : string;
  sk_quality : Z;
  sk_optimize : bool;
  sk_progressive : option bool;
  sk_subsampling : option Z;
  sk_qtables : option string;
}.

(** What the scripts print, by message rather than by rendered text. *)
Inductive message : Type :=
  | MsgImageError (input_path : string) (e : exn)
  | MsgFolderMissing (folder_path : string)
  | MsgNoJpgFound (folder_path : string)
  | MsgFolderStart (folder_path : string) (count : Z)
  | MsgProcessing (i count : Z) (name : string)
  | MsgDone (original_size compressed_size : Z)
  | MsgDonePlain
  | MsgProgressReport (i count original_total compressed_total : Z).

Section WithLibrary.

Context {env image : Type}.

Inductive event : Type :=
  | EvGetSize (filepath : string)
  | EvOpen (input_path : string)
  | EvConvert (img : image) (mode : string)
  | EvResize (img : image) (size : Z * Z) (resample : string)
  | EvSave (img : image) (output_path : string) (kw : save_kwargs)
  | EvPrint (m : message).

(** Answers of the collaborators.  [inl e] is a raised exception. *)
Record library : Type := {
  os_getsize : string -> env -> exn + Z;
  os_exists : string -> env -> bool;
  os_listdir : string -> env -> list string;
  pil_open : string -> env -> exn + image;
  pil_mode : image -> string;
  pil_size : image -> Z * Z;
  pil_convert : image -> string -> exn + image;
  pil_resize : image -> Z * Z -> string -> exn + image;
  pil_save : image -> string -> save_kwargs -> env -> (exn + unit) * env;
}.

Record world : Type := { w_env : env; w_trace : list event }.

Definition record (ev : event) (w : world) : world :=
  {| w_env := w_env w; w_trace := w_trace w ++ [ev] |}.

(** Computations that read and change the world and may raise. *)
Definition M (A : Type) : Type := world -> (exn + A) * world.

Definition ret {A} (a : A) : M A := fun w => (inr a, w).
Definition raise {A} (e : exn) : M A := fun w => (inl e, w).
Definition bind {A B} (m : M A) (k : A -> M B) : M B :=
  fun w => match m w with
           | (inl e, w') => (inl e, w')
           | (inr a, w') => k a w'
           end.
Definition try_except {A} (body : M A) (handler : exn -> M A) : M A :=
  fun w => match body w with
           | (inl e, w') => handler e w'
           | (inr a, w') => (inr a, w')
           end.
Definition lift {A} (r : exn + A) : M A :=
  match r with inl e => raise e | inr a => ret a end.

Notation "'let*' x ':=' m 'in' k" := (bind m (fun x => k))
  (at level 10, x name, m at level 100, k at level 200).
Notation "m '>>' k" := (bind m (fun _ => k))
  (at level 100, k at level 200, right associativity).

Variable lib : library.

Definition get_file_size (filepath : string) : M Z :=
  fun w => (os_getsize lib filepath (w_env w), record (EvGetSize filepath) w).

Definition image_open (input_path : string) : M image :=
  fun w => (pil_open lib input_path (w_env w), record (EvOpen input_path) w).

Definition image_convert (img : image) (mode : string) : M image :=
  fun w => (pil_convert lib img mode, record (EvConvert img mode) w).

Definition image_resize (img : image) (size : Z * Z) (resample : string) : M image :=
  fun w => (pil_resize lib img size resample, record (EvResize img size resample) w).

Definition image_save (img : image) (output_path : string) (kw : save_kwargs) : M unit :=
  fun w => let '(r, e') := pil_save lib img output_path kw (w_env w) in
           (r, {| w_env := e'; w_trace := w_trace w ++ [EvSave img output_path kw] |}).

Definition print (m : message) : M unit :=
  fun w => (inr tt, record (EvPrint m) w).

Definition mode_in (img : image) (modes : list string) : bool :=
  existsb (String.eqb (pil_mode lib img)) modes.

(** Lines 62-64 (57-59 in the ultra script): JPEG has no alpha channel. *)
Definition ensure_rgb (img : image) : M image :=
  if mode_in img ["RGBA"; "P"]%string then image_convert img "RGB" else ret img.

(** The test of line 67 (62). *)
Definition exceeds (W H mw mh : Z) : bool := (W >? mw) || (H >? mh).

(** Lines 67-80 (62-75): shrink an image that exceeds a bound. *)
Definition resize_to_fit (img : image) (max_width max_height : Z) : M image :=
  let '(original_width, original_height) := pil_size lib img in
  if (original_width >? max_width) || (original_height >? max_height) then
    let* size := lift (scaled_size original_width original_height max_width max_height) in
    image_resize img size "LANCZOS"
  else ret img.

Definition convert_and_resize (img : image) (max_width max_height : Z) : M image :=
  let* img := ensure_rgb img in
  resize_to_fit img max_width max_height.

(** The [img.save] call of [compress_images.py], line 83. *)
Definition standard_save_kwargs (quality : Z) : save_kwargs :=
  {| sk_format := "JPEG"; sk_quality := quality; sk_optimize := true;
     sk_progressive := None; sk_subsampling := None; sk_qtables := None |}.

(** The dictionary [save_kwargs] of [compress_ultra.py], lines 78-85. *)
Definition ultra_save_kwargs (quality : Z) (progressive : bool) : save_kwargs :=
  {| sk_format := "JPEG"; sk_quality := quality; sk_optimize := true;
     sk_progressive := Some progressive; sk_subsampling := Some 0;
     sk_qtables := Some "web_low"%string |}.

(** The body of the [try] statement, the same in both scripts up to the
    keyword arguments of [save]. *)
Definition try_body (kw : save_kwargs) (input_path output_path : string)
    (max_width max_height original_size : Z) : M (Z * Z) :=
  let* img := image_open input_path in
  let* img := convert_and_resize img max_width max_height in
  image_save img output_path kw >>
  let* compressed_size := get_file_size output_path in
  ret (original_size, compressed_size).

(** The [except Exception as e] clause, lines 90-92 (95-97). *)
Definition except_clause (input_path : string) (original_size : Z) (e : exn)
  : M (Z * Z) :=
  print (MsgImageError input_path e) >>
  ret (original_size, original_size).

(** The rest of the statement once the image is open and in a mode JPEG
    can hold: what lines 67-92 (62-97) do. *)
Definition after_open (kw : save_kwargs) (input_path output_path : string)
    (max_width max_height original_size : Z) (img : image) : M (Z * Z) :=
  try_except
    (let* img' := resize_to_fit img max_width max_height in
     image_save img' output_path kw >>
     let* compressed_size := get_file_size output_path in
     ret (original_size, compressed_size))
    (except_clause input_path original_size).

(** The function body shared by [compress_image] and
    [compress_image_ultra]: lines 53-92 (48-97). *)
Definition compress_with (kw : save_kwargs) (input_path : string)
    (output_path : option string) (max_width max_height : Z) : M (Z * Z) :=
  let output_path := match output_path with None => input_path | Some p => p end in
  let* original_size := get_file_size input_path in
  try_except
    (try_body kw input_path output_path max_width max_height original_size)
    (except_clause input_path original_size).

Definition compress_image (input_path : string) (output_path : option string)
    (max_width max_height quality : Z) : M (Z * Z) :=
  compress_with (standard_save_kwargs quality) input_path output_path
    max_width max_height.

Definition compress_image_ultra (input_path : string) (output_path : option string)
    (max_width max_height quality : Z) (progressive : bool) : M (Z * Z) :=
  compress_with (ultra_save_kwargs quality progressive) input_path output_path
    max_width max_height.

(** Readings of a trace. *)
Definition resize_requests (t : list event) : list (Z * Z) :=
  flat_map (fun ev => match ev with EvResize _ size _ => [size] | _ => [] end) t.

Definition saved_images (t : list event) : list image :=
  flat_map (fun ev => match ev with EvSave img _ _ => [img] | _ => [] end) t.

Definition save_options (t : list event) : list save_kwargs :=
  flat_map (fun ev => match ev with EvSave _ _ kw => [kw] | _ => [] end) t.

Definition conversions (t : list event) : list (image * string) :=
  flat_map (fun ev => match ev with EvConvert img mode => [(img, mode)] | _ => [] end) t.

Definition processed_names (t : list event) : list string :=
  flat_map (fun ev => match ev with
                      | EvPrint (MsgProcessing _ _ name) => [name]
                      | _ => []
                      end) t.

(** A computation that prints no "processing" line. *)
Definition quiet {A} (m : M A) : Prop :=
  forall w, processed_names (w_trace (snd (m w))) = processed_names (w_trace w).

Definition logged_errors (t : list event) : list (string * exn) :=
  flat_map (fun ev => match ev with
                      | EvPrint (MsgImageError p e) => [(p, e)]
                      | _ => []
                      end) t.

(** A name that one of the four patterns matches as written. *)
Definition plain_suffix (f : string) : Prop :=
  endswith f ".jpg" = true \/ endswith f ".jpeg" = true \/
  endswith f ".JPG" = true \/ endswith f ".JPEG" = true.

(** [Path.glob] with a pattern [*suffix]: the names of the directory that
    end with the suffix, in listing order.  The match is case-sensitive on
    POSIX paths and case-insensitive on Windows paths. *)
Variable case_sensitive : bool.

Definition glob_suffix (names : list string) (suffix : string) : list string :=
  List.filter (fun name =>
            if case_sensitive then endswith name suffix
            else endswith (lower name) (lower suffix)) names.

(** Lines 115-116 (111-112 in the ultra script). *)
Definition jpg_files_of (names : list string) : list string :=
  (glob_suffix names ".jpg" ++ glob_suffix names ".jpeg")
  ++ (glob_suffix names ".JPG" ++ glob_suffix names ".JPEG").

Definition path_join (folder name : string) : string :=
  (folder ++ "/" ++ name)%string.

Definition list_jpg_files (folder_path : string) : M (list string) :=
  fun w => (inr (jpg_files_of (os_listdir lib folder_path (w_env w))), w).

Definition path_exists (p : string) : M bool :=
  fun w => (inr (os_exists lib p (w_env w)), w).

(** The loop of [compress_folder]; [one] is the per-file function and
    [report] the extra progress line of the ultra script. *)
Fixpoint folder_loop (one : string -> M (Z * Z))
    (report : Z -> Z -> Z -> Z -> M unit)
    (folder_path : string) (count : Z) (i : Z) (names : list string)
    (acc : Z * Z * Z) : M (Z * Z * Z) :=
  match names with
  | [] => ret acc
  | name :: rest =>
      let '(total_original_size, total_compressed_size, processed_count) := acc in
      print (MsgProcessing i count name) >>
      let* sizes := one (path_join folder_path name) in
      let '(original_size, compressed_size) := sizes in
      let total_original_size := total_original_size + original_size in
      let total_compressed_size := total_compressed_size + compressed_size in
      let processed_count := processed_count + 1 in
      (if original_size >? 0 then print (MsgDone original_size compressed_size)
       else print MsgDonePlain) >>
      report i count total_original_size total_compressed_size >>
      folder_loop one report folder_path count (i + 1) rest
        (total_original_size, total_compressed_size, processed_count)
  end.

Definition folder_driver (one : string -> M (Z * Z))
    (report : Z -> Z -> Z -> Z -> M unit) (folder_path : string)
    : M (Z * Z * Z) :=
  let* ex := path_exists folder_path in
  if negb ex then print (MsgFolderMissing folder_path) >> ret (0, 0, 0)
  else
    let* jpg_files := list_jpg_files folder_path in
    match jpg_files with
    | [] => print (MsgNoJpgFound folder_path) >> ret (0, 0, 0)
    | _ =>
        let count := Z.of_nat (List.length jpg_files) in
        print (MsgFolderStart folder_path count) >>
        folder_loop one report folder_path count 1 jpg_files (0, 0, 0)
    end.

Definition compress_folder (folder_path : string)
    (max_width max_height quality : Z) : M (Z * Z * Z) :=
  folder_driver
    (fun p => compress_image p None max_width max_height quality)
    (fun _ _ _ _ => ret tt) folder_path.

Definition compress_folder_ultra (folder_path : string)
    (max_width max_height quality : Z) : M (Z * Z * Z) :=
  folder_driver
    (fun p => compress_image_ultra p None max_width max_height quality true)
    (fun i count total_original total_compressed =>
       if i mod 100 =? 0
       then print (MsgProgressReport i count total_original total_compressed)
       else ret tt) folder_path.

End WithLibrary.

Notation "'let*' x ':=' m 'in' k" := (bind m (fun x => k))
  (at level 10, x name, m at level 100, k at level 200).
Notation "m '>>' k" := (bind m (fun _ => k))
  (at level 100, k at level 200, right associativity).

Arguments library : clear implicits.
Arguments world : clear implicits.
Arguments event : clear implicits.
Arguments M : clear implicits.

End Imaging.

(** * The rename utility

    The folder is one directory: a finite map from entry names to entries.
    [prefix] is a file-name prefix, so source and target paths are entries
    of that directory and two paths are equal when the names are. *)
Module Rename.

Inductive entry : Type :=
  | RegularFile (content : nat)
  | Directory.

#[global] Instance entry_eq_dec : EqDecision entry.
Proof. solve_decision. Defined.

Inductive output : Type :=
  | OutNoFolder
  | OutNoFiles
  | OutSkipExists (new_name : string)
  | OutRenamed (filename new_name : string)
  | OutAllDone.

Inductive status : Type :=
  | Completed
  | Exited (code : Z)
  | Uncaught (e : exn).

(** [f.lower().endswith(('.jpg', '.jpeg'))] *)
Definition is_jpeg_name (f : string) : bool :=
  endswith (lower f) ".jpg" || endswith (lower f) ".jpeg".

Definition isfile (d : gmap string entry) (f : string) : bool :=
  match d !! f with
  | Some (RegularFile _) => true
  | _ => false
  end.

(** [os.listdir]: the names, in an order the caller cannot rely on. *)
Definition listdir (d : gmap string entry) : list string := (map_to_list d).*1.

(** Order of [str] comparison: lexicographic on the characters. *)
Definition str_le (a b : string) : Prop := String.leb a b = true.

#[global] Instance str_le_dec : RelDecision str_le.
Proof. intros a b. unfold str_le. apply _. Defined.

(** Lines 42-44 and 51: the matching regular files, sorted. *)
Definition candidates (d : gmap string entry) : list string :=
  List.filter (fun f => isfile d f && is_jpeg_name f) (listdir d).

Definition sorted_files (d : gmap string entry) : list string :=
  merge_sort str_le (candidates d).

(** Lines 59-60. *)
Definition new_name (prefix : string) (digits idx : Z) (filename : string) : string :=
  let ext := lower (snd (splitext filename)) in
  (prefix ++ zfill (str idx) digits ++ ext)%string.

(** [os.rename(src, dst)] inside the directory. *)
Definition os_rename (d : gmap string entry) (src dst : string)
  : exn + gmap string entry :=
  match d !! src with
  | Some e => inr (<[dst := e]> (delete src d))
  | None => inl (OSError "No such file or directory")
  end.

(** One iteration of the loop of lines 58-74. *)
Definition rename_step (prefix : string) (digits idx : Z) (filename : string)
    (d : gmap string entry) : exn + (gmap string entry * list output) :=
  let dst := new_name prefix digits idx filename in
  if String.eqb filename dst then inr (d, [])
  else if bool_decide (is_Some (d !! dst)) then inr (d, [OutSkipExists dst])
  else match os_rename d filename dst with
       | inl e => inl e
       | inr d' => inr (d', [OutRenamed filename dst])
       end.

Fixpoint rename_loop (prefix : string) (digits idx : Z) (files : list string)
    (d : gmap string entry) (log : list output)
  : status * gmap string entry * list output :=
  match files with
  | [] => (Completed, d, log)
  | filename :: rest =>
      match rename_step prefix digits idx filename d with
      | inl e => (Uncaught e, d, log)
      | inr (d', out) => rename_loop prefix digits (idx + 1) rest d' (log ++ out)
      end
  end.

Definition digits_of (total : Z) : Z := Z.of_nat (String.length (str total)).

(** [main]: the folder is [None] when the path is not a directory. *)
Definition main (folder : option (gmap string entry)) (prefix : string)
  : status * option (gmap string entry) * list output :=
  match folder with
  | None => (Exited 1, None, [OutNoFolder])
  | Some d =>
      match candidates d with
      | [] => (Exited 0, Some d, [OutNoFiles])
      | _ =>
          let files := sorted_files d in
          let total := Z.of_nat (List.length files) in
          let digits := digits_of total in
          let '(st, d', log) := rename_loop prefix digits 1 files d [] in
          match st with
          | Completed => (Completed, Some d', log ++ [OutAllDone])
          | _ => (st, Some d', log)
          end
      end
  end.

(** The planned renaming: each sorted file with its computed target,
    numbered as [enumerate(files, start=idx)] does. *)
Fixpoint plan_from (prefix : string) (digits idx : Z) (files : list string)
  : list (string * string) :=
  match files with
  | [] => []
  | filename :: rest =>
      (filename, new_name prefix digits idx filename)
      :: plan_from prefix digits (idx + 1) rest
  end.

Definition plan (d : gmap string entry) (prefix : string) : list (string * string) :=
  let files := sorted_files d in
  plan_from prefix (digits_of (Z.of_nat (List.length files))) 1 files.



(** No file was skipped with a warning. *)
Definition no_warning (log : list output) : bool :=
  forallb (fun o => match o with OutSkipExists _ => false | _ => true end) log.


(** Value of a string of decimal digits, most significant first. *)
Definition digit_value (c : ascii) : Z := Z.of_nat (nat_of_ascii c) - 48.

Fixpoint decimal_value_from (acc : Z) (s : string) : Z :=
  match s with
  | EmptyString => acc
  | String c r => decimal_value_from (10 * acc + digit_value c) r
  end.

Definition decimal_value (s : string) : Z := decimal_value_from 0 s.

Definition is_digit (c : ascii) : bool :=
  (48 <=? nat_of_ascii c)%nat && (nat_of_ascii c <=? 57)%nat.

Fixpoint all_digits (s : string) : bool :=
  match s with
  | EmptyString => true
  | String c r => is_digit c && all_digits r
  end.

End Rename.


(** * Facts of the Pillow library the scripts rely on

    Taken from the Pillow handbook (Concepts: modes; image file formats:
    JPEG saving).  They are not code of this repository. *)
Module Pillow.

(** Modes with an alpha band: [LA], [PA], [RGBA] and the premultiplied
    [La], [RGBa]. *)
Definition mode_has_alpha (mode : string) : bool :=
  existsb (String.eqb mode) ["LA"; "PA"; "RGBA"; "La"; "RGBa"]%string.

(** Modes whose pixels index a palette. *)
Definition mode_is_palette (mode : string) : bool :=
  existsb (String.eqb mode) ["P"; "PA"]%string.

(** Modes the JPEG encoder writes. *)
Definition jpeg_writable (mode : string) : bool :=
  existsb (String.eqb mode) ["1"; "L"; "RGB"; "RGBX"; "CMYK"; "YCbCr"]%string.

Inductive chroma : Type := Chroma444 | Chroma422 | Chroma420.

(** The save option [subsampling]: 0 is 4:4:4, 1 is 4:2:2, 2 is 4:2:0. *)
Definition subsampling_of (n : Z) : option chroma :=
  match n with
  | 0 => Some Chroma444
  | 1 => Some Chroma422
  | 2 => Some Chroma420
  | _ => None
  end.

(** Chroma samples kept per 2x2 block of pixels, of 4: fewer is smaller. *)
Definition chroma_samples (c : chroma) : Z :=
  match c with Chroma444 => 4 | Chroma422 => 2 | Chroma420 => 1 end.

End Pillow.

(** * A small file system and imaging library to run the scripts on *)
Module Demo.

Import Imaging.

Record picture : Type := { pic_mode : string; pic_size : Z * Z }.

Inductive node : Type :=
  | Dangling
  | Data (bytes : Z) (pic : option picture).

Record disk : Type := {
  folders : gmap string (list string);
  files : gmap string node;
}.

Definition encoded_bytes (pic : picture) (kw : save_kwargs) : Z :=
  fst (pic_size pic) * snd (pic_size pic) * sk_quality kw / 100 + 600.

Definition lib : library disk picture := {|
  os_getsize p d :=
    match files d !! p with
    | Some (Data n _) => inr n
    | _ => inl (OSError "No such file or directory")
    end;
  os_exists p d := bool_decide (is_Some (folders d !! p));
  os_listdir p d := default [] (folders d !! p);
  pil_open p d :=
    match files d !! p with
    | Some (Data _ (Some pic)) => inr pic
    | Some (Data _ None) => inl (OtherException "cannot identify image file")
    | _ => inl (OSError "No such file or directory")
    end;
  pil_mode := pic_mode;
  pil_size := pic_size;
  pil_convert pic mode := inr {| pic_mode := mode; pic_size := pic_size pic |};
  pil_resize pic size _ :=
    if (fst size <? 1) || (snd size <? 1)
    then inl ValueError
    else inr {| pic_mode := pic_mode pic; pic_size := size |};
  pil_save pic p kw d :=
    if Pillow.jpeg_writable (pic_mode pic)
    then (inr tt, {| folders := folders d;
                     files := <[p := Data (encoded_bytes pic kw) (Some pic)]> (files d) |})
    else (inl (OSError "cannot write mode as JPEG"), d);
|}.

Definition start (d : disk) : world disk picture := {| w_env := d; w_trace := [] |}.

Definition rgb (w h : Z) : picture := {| pic_mode := "RGB"; pic_size := (w, h) |}.

(** A folder [muffin] with one good photo and one dangling link. *)
Definition disk_dangling : disk := {|
  folders := {[ "muffin"%string := ["a.jpg"; "b.jpg"]%string ]};
  files := {[ "muffin/a.jpg"%string := Dangling;
              "muffin/b.jpg"%string := Data 50000 (Some (rgb 800 600)) ]};
|}.

(** A folder with a photo, a text file under a [.jpg] name, and a
    grey-with-alpha picture. *)
Definition disk_mixed : disk := {|
  folders := {[ "muffin"%string := ["c.jpg"; "bad.jpg"; "la.jpeg"]%string ]};
  files := {[ "muffin/c.jpg"%string := Data 90000 (Some (rgb 1920 1080));
              "muffin/bad.jpg"%string := Data 12 None;
              "muffin/la.jpeg"%string :=
                Data 7000 (Some {| pic_mode := "LA"; pic_size := (300, 300) |}) ]};
|}.

(** A square photo just under twice the default bound, and a photo one
    pixel high. *)
Definition disk_shapes : disk := {|
  folders := {[ "chihuahua"%string := ["square.jpg"; "thin.jpg"]%string ]};
  files := {[ "chihuahua/square.jpg"%string := Data 400000 (Some (rgb 1109 1109));
              "chihuahua/thin.jpg"%string := Data 3000 (Some (rgb 1000 1)) ]};
|}.

(** Three photos whose extensions differ in case only. *)
Definition disk_case : disk := {|
  folders := {[ "muffin"%string := ["b.jpg"; "a.JPG"; "c.Jpg"]%string ]};
  files := {[ "muffin/b.jpg"%string := Data 50000 (Some (rgb 800 600));
              "muffin/a.JPG"%string := Data 20000 (Some (rgb 300 300));
              "muffin/c.Jpg"%string := Data 90000 (Some (rgb 1920 1080)) ]};
|}.



(** A folder where [dog_1.jpg] is already taken by another photo. *)
Definition photos_taken : gmap string Rename.entry :=
  {[ "a.jpg"%string := Rename.RegularFile 1;
     "dog_1.jpg"%string := Rename.RegularFile 2;
     "dog_3.jpg"%string := Rename.RegularFile 3 ]}.

(** A folder with a photo named just [.jpg]. *)
Definition photos_dot : gmap string Rename.entry :=
  {[ ".jpg"%string := Rename.RegularFile 1;
     "z.jpg"%string := Rename.RegularFile 2 ]}.

End Demo.

(** * The same size computation on the Standard Library's IEEE-754
      specification, to compare the two on concrete inputs *)
Module SFCheck.

Definition of_Z (a : Z) : spec_float := binary_normalize 53 1024 a 0 false.

Definition sf_min (x y : spec_float) : spec_float :=
  if SFltb y x then y else x.

Definition sf_to_int (x : spec_float) : option Z :=
  match x with
  | S754_zero _ => Some 0
  | S754_finite s m e =>
      let v := if 0 <=? e then Zpos m * 2 ^ e else Zpos m / 2 ^ (- e) in
      Some (if s then - v else v)
  | _ => None
  end.

Definition sf_scaled_size (W H max_width max_height : Z) : option (Z * Z) :=
  let width_ratio := SFdiv 53 1024 (of_Z max_width) (of_Z W) in
  let height_ratio := SFdiv 53 1024 (of_Z max_height) (of_Z H) in
  let scale_ratio := sf_min width_ratio height_ratio in
  match sf_to_int (SFmul 53 1024 (of_Z W) scale_ratio),
        sf_to_int (SFmul 53 1024 (of_Z H) scale_ratio) with
  | Some w, Some h => Some (w, h)
  | _, _ => None
  end.

End SFCheck.

(** * What the scripts print about sizes

    [format_size] and the percentage shown beside it, as both compression
    scripts compute them. *)
Module Report.

(** [format(x, '.1f')]: the decimal with one fractional digit nearest the
    exact value of the double, ties to the even digit. *)
Definition format_fixed1 (x : float) : string :=
  match x with
  | Finite q =>
      let t := round_half_even (Z.abs (Qnum q) * 10) (QDen q) in
      ((if is_neg q then "-" else "") ++ str (t / 10) ++ "."
         ++ String (digit_char (t mod 10)) "")%string
  | Infinity negative => if negative then "-inf"%string else "inf"%string
  | NaN => "nan"%string
  end.

(** [format_size], lines 29-36 of [compress_images.py] (23-30 of
    [compress_ultra.py]). *)
Definition format_size (size_bytes : Z) : exn + string :=
  if size_bytes <? 1024 then inr (str size_bytes ++ " B")%string
  else if size_bytes <? 1024 * 1024 then
    bind_exn (truediv size_bytes 1024)
      (fun x => inr (format_fixed1 x ++ " KB")%string)
  else
    bind_exn (truediv size_bytes (1024 * 1024))
      (fun x => inr (format_fixed1 x ++ " MB")%string).

(** [-x] on floats. *)
Definition fneg (x : float) : float :=
  match x with
  | Finite q => Finite (- q)
  | Infinity s => Infinity (negb s)
  | NaN => NaN
  end.

(** A rational that is the value of a finite double: [M * 2^E] with a
    53-bit [M], above the least exponent and below the overflow
    threshold. *)
Definition representable (y : Q) : Prop :=
  exists M E : Z,
    Z.abs M < 2 ^ 53 /\ emin <= E /\
    (inject_Z (Z.abs M) * 2 ^ E < 2 ^ emax)%Q /\
    (y == inject_Z M * 2 ^ E)%Q.

(** [x - y] on floats. *)
Definition fsub (x y : float) : float :=
  match x, y with
  | NaN, _ | _, NaN => NaN
  | Finite p, Finite q => round_ne (p - q)
  | Finite _, Infinity s => Infinity (negb s)
  | Infinity s, Finite _ => Infinity s
  | Infinity s, Infinity t => if Bool.eqb s t then NaN else Infinity s
  end.

(** [a - x] and [x * a] with [a] an int and [x] a float. *)
Definition sub_int_float (a : Z) (x : float) : exn + float :=
  bind_exn (of_int a) (fun fa => inr (fsub fa x)).

Definition mul_float_int (x : float) (a : Z) : exn + float :=
  bind_exn (of_int a) (fun fa => inr (fmul x fa)).

(** [(1 - compressed_size / original_size) * 100], lines 146, 198 and 213
    (143, 151, 228 and 243). *)
Definition compression_ratio (original_size compressed_size : Z) : exn + float :=
  bind_exn (truediv compressed_size original_size) (fun q =>
  bind_exn (sub_int_float 1 q) (fun d =>
  mul_float_int d 100)).

(** The same under its guard, [... if original_size > 0 else 0]. *)
Definition ratio_or_zero (original_size compressed_size : Z) : exn + float :=
  if original_size >? 0 then compression_ratio original_size compressed_size
  else inr (Finite 0).

(** The three figures of the line printed after a file, lines 146-147:
    the two sizes and the percentage. *)
Definition done_line (original_size compressed_size : Z)
  : exn + (string * string * string) :=
  bind_exn (compression_ratio original_size compressed_size) (fun ratio =>
  bind_exn (format_size original_size) (fun a =>
  bind_exn (format_size compressed_size) (fun b =>
  inr (a, b, format_fixed1 ratio)))).

(** The figures of a summary, lines 198-203 and 213-219: original size,
    compressed size, space saved and percentage. *)
Definition summary_figures (original_size compressed_size : Z)
  : exn + (string * string * string * string) :=
  bind_exn (ratio_or_zero original_size compressed_size) (fun ratio =>
  bind_exn (format_size original_size) (fun a =>
  bind_exn (format_size compressed_size) (fun b =>
  bind_exn (format_size (original_size - compressed_size)) (fun s =>
  inr (a, b, s, format_fixed1 ratio))))).

End Report.

(** * Readings of a batch run *)
Module Batch.

Import Imaging.

Section Readings.

Context {env image : Type}.

(** What an event saves, opens, or reports as progress. *)
Definition save_of (ev : event image) : list (string * save_kwargs) :=
  match ev with EvSave _ p kw => [(p, kw)] | _ => [] end.

Definition open_of (ev : event image) : list string :=
  match ev with EvOpen p => [p] | _ => [] end.

Definition size_query_of (ev : event image) : list string :=
  match ev with EvGetSize p => [p] | _ => [] end.


Definition message_of (ev : event image) : list message :=
  match ev with EvPrint m => [m] | _ => [] end.

(** Every message but the progress report of the ultra script. *)
Definition plain_message (m : message) : bool :=
  match m with MsgProgressReport _ _ _ _ => false | _ => true end.

(** The computation [m] appends events to the trace, and what [f] reads
    in them is a sublist of [l]. *)
Definition emits {A B : Type} (f : event image -> list B)
    (m : M env image A) (l : list B) : Prop :=
  forall w, exists tail,
    w_trace (snd (m w)) = w_trace w ++ tail /\
    flat_map f tail `sublist_of` l.


End Readings.

End Batch.

(** * The command lines of the two compression scripts

    [main] of [compress_images.py] (lines 154-226) and of
    [compress_ultra.py] (lines 157-257), over the parsed arguments.  The
    [try: from PIL import Image] of lines 165-170 (169-174) repeats the
    import of line 19 (13), without which [main] is never reached, and
    has no effect. *)
Module Cli.

Import Imaging Report.

(** ** [pathlib.PurePosixPath], as far as the scripts use it *)
Module Path.

Record t : Type := { root : string; parts : list string }.

(** [s.split('/')] *)
Fixpoint split_slash (s : string) : list string :=
  match s with
  | EmptyString => [EmptyString]
  | String c r =>
      if Ascii.eqb c "/" then EmptyString :: split_slash r
      else match split_slash r with
           | x :: xs => String c x :: xs
           | [] => [String c EmptyString]
           end
  end.

(** Empty and [.] components are dropped; [..] is kept. *)
Definition components (s : string) : list string :=
  List.filter (fun x => negb (String.eqb x "") && negb (String.eqb x "."))
    (split_slash s).

(** One leading slash, or three and more, make the root [/]; exactly two
    make the root [//]. *)
Definition root_of (s : string) : string :=
  match s with
  | String "/" (String "/" (String "/" _)) => "/"
  | String "/" (String "/" _) => "//"
  | String "/" _ => "/"
  | _ => ""
  end%string.

(** [Path(s)] *)
Definition parse (s : string) : t := {| root := root_of s; parts := components s |}.

Fixpoint join_slash (l : list string) : string :=
  match l with
  | [] => ""
  | [x] => x
  | x :: r => x ++ "/" ++ join_slash r
  end%string.

(** [str(p)] *)
Definition to_str (p : t) : string :=
  match root p, parts p with
  | EmptyString, [] => "."
  | r, l => r ++ join_slash l
  end%string.

(** [p.parent] *)
Definition parent (p : t) : t := {| root := root p; parts := removelast (parts p) |}.

(** [p / s]: a rooted [s] replaces [p]. *)
Definition joinpath (p : t) (s : string) : t :=
  let q := parse s in
  if String.eqb (root q) "" then {| root := root p; parts := parts p ++ parts q |}
  else q.

End Path.

(** A single path component: not empty, not [.], without a slash. *)
Definition plain_name (f : string) : Prop :=
  free_of "/" f = true /\ f <> ""%string /\ f <> "."%string.

(** [str(Path(folder_name))] *)
Definition folder_path_of (folder_name : string) : string :=
  Path.to_str (Path.parse folder_name).

(** Line 205 of [compress_ultra.py]:
    [folder_path.parent / f"{folder_name}_backup"]. *)
Definition backup_folder_of (folder_name : string) : string :=
  Path.to_str (Path.joinpath (Path.parent (Path.parse folder_name))
                 (folder_name ++ "_backup")).

(** The parsed command line; [a_backup] exists in the ultra script only. *)
Record args : Type := {
  a_max_width : Z;
  a_max_height : Z;
  a_quality : Z;
  a_folders : list string;
  a_backup : bool;
}.

(** What a summary is about. *)
Inductive scope : Type :=
  | OfFolder (folder_name : string)
  | Overall.

(** The lines [main] prints, by content. *)
Inductive line : Type :=
  | LnBanner (max_width max_height quality : Z)
  | LnFolderHead (folder_name : string)
  | LnCount (sc : scope) (file_count : Z)
  | LnOriginal (sc : scope) (size : string)
  | LnCompressed (sc : scope) (size : string)
  | LnSaved (sc : scope) (size percent : string)
  | LnFolderSkipped (folder_name : string)
  | LnReportHeader
  | LnSuccess (saved : string)
  | LnGain (percent : string)
  | LnAlreadyOptimal
  | LnNothingFound
  | LnCancelled
  | LnBackupCreated (backup_folder : string).

Section WithCollaborators.

Context {env image : Type}.

(** What a run of [main] does, in order. *)
Inductive step : Type :=
  | Lib (ev : event image)
  | Say (l : line)
  | Ask
  | MkDir (p : string)
  | Copy (src dst : string).

(** The collaborators [main] adds to those of the library: the answer
    typed at the prompt, already lowercased and stripped, [Path.mkdir]
    and [shutil.copy2]. *)
Record shell : Type := {
  sh_answer : env -> (exn + string) * env;
  sh_mkdir : string -> env -> (exn + unit) * env;
  sh_copy2 : string -> string -> env -> (exn + unit) * env;
}.

Record session : Type := { s_env : env; s_log : list step }.

(** A run returns, raises, or leaves through [sys.exit]. *)
Inductive outcome (A : Type) : Type :=
  | Returned (a : A)
  | Raised (e : exn)
  | SysExit (code : Z).

Arguments Returned {A} a.
Arguments Raised {A} e.
Arguments SysExit {A} code.

Definition C (A : Type) : Type := session -> outcome A * session.

Definition ret {A} (a : A) : C A := fun s => (Returned a, s).
Definition sys_exit {A} (code : Z) : C A := fun s => (SysExit code, s).
Definition bind {A B} (m : C A) (k : A -> C B) : C B :=
  fun s => match m s with
           | (Returned a, s') => k a s'
           | (Raised e, s') => (Raised e, s')
           | (SysExit code, s') => (SysExit code, s')
           end.

Notation "'run' x ':=' m 'in' k" := (bind m (fun x => k))
  (at level 10, x name, m at level 100, k at level 200).

Definition of_result {A} (r : exn + A) : outcome A :=
  match r with inl e => Raised e | inr a => Returned a end.

Definition lift_exn {A} (r : exn + A) : C A := fun s => (of_result r, s).

Definition log (st : step) (s : session) : session :=
  {| s_env := s_env s; s_log := s_log s ++ [st] |}.

Definition say (l : line) : C unit := fun s => (Returned tt, log (Say l) s).

Variable lib : library env image.
Variable sh : shell.
Variable case_sensitive : bool.

(** A library computation inside [main]: its events join the log. *)
Definition run_lib {A} (m : M env image A) : C A :=
  fun s =>
    let '(r, w') := m {| w_env := s_env s; w_trace := [] |} in
    (of_result r,
     {| s_env := w_env w'; s_log := s_log s ++ List.map Lib (w_trace w') |}).

Definition path_exists (p : string) : C bool :=
  fun s => (Returned (os_exists lib p (s_env s)), s).

Definition glob (folder suffix : string) : C (list string) :=
  fun s => (Returned (glob_suffix case_sensitive (os_listdir lib folder (s_env s)) suffix),
            s).

Definition mkdir (p : string) : C unit :=
  fun s => let '(r, e') := sh_mkdir sh p (s_env s) in
           (of_result r, {| s_env := e'; s_log := s_log s ++ [MkDir p] |}).

Definition copy2 (src dst : string) : C unit :=
  fun s => let '(r, e') := sh_copy2 sh src dst (s_env s) in
           (of_result r, {| s_env := e'; s_log := s_log s ++ [Copy src dst] |}).

Definition input_answer : C string :=
  fun s => let '(r, e') := sh_answer sh (s_env s) in
           (of_result r, {| s_env := e'; s_log := s_log s ++ [Ask] |}).

(** Lines 200-203 and 216-219 (230-233 and 246-249): count, original
    size, compressed size, space saved with the percentage. *)
Definition print_figures (sc : scope) (file_count original_size compressed_size : Z)
    (ratio : float) : C unit :=
  run _ := say (LnCount sc file_count) in
  run a := lift_exn (format_size original_size) in
  run _ := say (LnOriginal sc a) in
  run b := lift_exn (format_size compressed_size) in
  run _ := say (LnCompressed sc b) in
  run s := lift_exn (format_size (original_size - compressed_size)) in
  say (LnSaved sc s (format_fixed1 ratio)).

(** Lines 197-203 (227-233). *)
Definition folder_summary (folder_name : string)
    (original_size compressed_size file_count : Z) : C unit :=
  if file_count >? 0 then
    run folder_compression := lift_exn (ratio_or_zero original_size compressed_size) in
    run _ := say (LnFolderHead folder_name) in
    print_figures (OfFolder folder_name) file_count original_size compressed_size
      folder_compression
  else ret tt.

Fixpoint copy_all (folder backup_folder : string) (names : list string) : C unit :=
  match names with
  | [] => ret tt
  | name :: rest =>
      run _ := copy2 (path_join folder name) (path_join backup_folder name) in
      copy_all folder backup_folder rest
  end.

(** Lines 204-214 of [compress_ultra.py]. *)
Definition make_backup (folder_name : string) : C unit :=
  let folder_path := folder_path_of folder_name in
  let backup_folder := backup_folder_of folder_name in
  run ex := path_exists backup_folder in
  if negb ex then
    run _ := say (LnBackupCreated backup_folder) in
    run _ := mkdir backup_folder in
    run jpg := glob folder_path ".jpg" in
    run _ := copy_all folder_path backup_folder jpg in
    run jpeg := glob folder_path ".jpeg" in
    copy_all folder_path backup_folder jpeg
  else ret tt.

(** The loop over the folders, lines 182-205 (199-235); [prepare] is the
    backup step of the ultra script and [compress] the folder function. *)
Fixpoint folders_loop (prepare : string -> C unit)
    (compress : string -> M env image (Z * Z * Z))
    (names : list string) (totals : Z * Z * Z) : C (Z * Z * Z) :=
  match names with
  | [] => ret totals
  | folder_name :: rest =>
      let '(total_original_size, total_compressed_size, total_files) := totals in
      let folder_path := folder_path_of folder_name in
      run ex := path_exists folder_path in
      if ex then
        run _ := prepare folder_name in
        run r := run_lib (compress folder_path) in
        let '(original_size, compressed_size, file_count) := r in
        run _ := folder_summary folder_name original_size compressed_size file_count in
        folders_loop prepare compress rest
          (total_original_size + original_size,
           total_compressed_size + compressed_size,
           total_files + file_count)
      else
        run _ := say (LnFolderSkipped folder_name) in
        folders_loop prepare compress rest totals
  end.

(** Lines 207-226 (237-257); [ultra] adds the line 253. *)
Definition final_report (ultra : bool) (totals : Z * Z * Z) : C unit :=
  let '(total_original_size, total_compressed_size, total_files) := totals in
  run _ := say LnReportHeader in
  if total_files >? 0 then
    run total_compression :=
      lift_exn (ratio_or_zero total_original_size total_compressed_size) in
    let space_saved := total_original_size - total_compressed_size in
    run _ := print_figures Overall total_files total_original_size
               total_compressed_size total_compression in
    if space_saved >? 0 then
      run s := lift_exn (format_size space_saved) in
      run _ := say (LnSuccess s) in
      if ultra then say (LnGain (format_fixed1 total_compression)) else ret tt
    else say LnAlreadyOptimal
  else say LnNothingFound.

(** [main] of [compress_images.py]. *)
Definition main (a : args) : C unit :=
  run _ := say (LnBanner (a_max_width a) (a_max_height a) (a_quality a)) in
  run totals :=
    folders_loop (fun _ => ret tt)
      (fun p => compress_folder lib case_sensitive p
                  (a_max_width a) (a_max_height a) (a_quality a))
      (a_folders a) (0, 0, 0) in
  final_report false totals.

(** [main] of [compress_ultra.py]. *)
Definition main_ultra (a : args) : C unit :=
  run _ := say (LnBanner (a_max_width a) (a_max_height a) (a_quality a)) in
  run _ :=
    (if negb (a_backup a) then
       run confirm := input_answer in
       if negb (String.eqb confirm "y") then
         run _ := say LnCancelled in sys_exit 0
       else ret tt
     else ret tt) in
  run totals :=
    folders_loop (fun folder_name => if a_backup a then make_backup folder_name else ret tt)
      (fun p => compress_folder_ultra lib case_sensitive p
                  (a_max_width a) (a_max_height a) (a_quality a))
      (a_folders a) (0, 0, 0) in
  final_report true totals.

(** The copy of one file into the backup folder, and the names that the
    two patterns of lines 211-214 select. *)
Definition copy_of (folder backup : string) (name : string) : step :=
  Copy (path_join folder name) (path_join backup name).

Definition backed_up_name (name : string) : bool :=
  if case_sensitive then endswith name ".jpg" || endswith name ".jpeg"
  else endswith (lower name) ".jpg" || endswith (lower name) ".jpeg".

Definition backup_copy (folder backup : string) (st : step) : Prop :=
  exists name, st = copy_of folder backup name /\ backed_up_name name = true.

(** A computation that never prompts: whatever it appends to the log
    holds no [Ask]. *)
Definition unprompted {A} (m : C A) : Prop :=
  forall s, exists tail,
    s_log (snd (m s)) = s_log s ++ tail /\ Forall (fun st => st <> Ask) tail.

(** Readings of the log. *)
Definition copies (l : list step) : list (string * string) :=
  flat_map (fun st => match st with Copy src dst => [(src, dst)] | _ => [] end) l.

Definition lines (l : list step) : list line :=
  flat_map (fun st => match st with Say ln => [ln] | _ => [] end) l.

Definition library_events (l : list step) : list (event image) :=
  flat_map (fun st => match st with Lib ev => [ev] | _ => [] end) l.

End WithCollaborators.

Arguments Returned {A} a.
Arguments Raised {A} e.
Arguments SysExit {A} code.
Arguments step : clear implicits.
Arguments shell : clear implicits.
Arguments session : clear implicits.
Arguments C : clear implicits.

Notation "'run' x ':=' m 'in' k" := (bind m (fun x => k))
  (at level 10, x name, m at level 100, k at level 200).

End Cli.

(** * A shell for the small file system *)
Module CliDemo.

Import Imaging Cli Demo.

(** The user types [answer]; [mkdir] refuses an existing folder; [copy2]
    needs its source.  The listing of the destination folder is not
    updated: the scripts never read it. *)
Definition sh (answer : string) : shell disk := {|
  sh_answer d := (inr answer, d);
  sh_mkdir p d :=
    if bool_decide (is_Some (folders d !! p))
    then (inl (OSError "File exists"), d)
    else (inr tt, {| folders := <[p := []]> (folders d); files := files d |});
  sh_copy2 src dst d :=
    match files d !! src with
    | Some n => (inr tt, {| folders := folders d; files := <[dst := n]> (files d) |})
    | None => (inl (OSError "No such file or directory"), d)
    end;
|}.

Definition begin (d : disk) : session disk picture := {| s_env := d; s_log := [] |}.

Definition ultra_defaults (folders : list string) (backup : bool) : args :=
  {| a_max_width := 400; a_max_height := 400; a_quality := 40;
     a_folders := folders; a_backup := backup |}.

End CliDemo.
Module FloatFacts.

Lemma rhe_lower (N D K : Z) : 0 < D -> K * D <= N -> K <= round_half_even N D.
Proof.
  intros HD HK. unfold round_half_even.
  assert (K <= N / D) by (apply Z.div_le_lower_bound; lia).
  destruct (2 * (N mod D) ?= D); [destruct (Z.even (N / D))|..]; lia.
Qed.

Lemma rhe_upper (N D K : Z) : 0 < D -> N <= K * D -> round_half_even N D <= K.
Proof.
  intros HD HK. unfold round_half_even.
  pose proof (Z.div_mod N D ltac:(lia)) as E.
  pose proof (Z.mod_pos_bound N D HD) as B.
  assert (N / D <= K) by nia.
  destruct (Z.eq_dec (N mod D) 0) as [Z0|NZ].
  - rewrite Z0. replace (2 * 0 ?= D) with Lt by (symmetry; apply Z.compare_lt_iff; lia).
    lia.
  - assert (N / D + 1 <= K) by nia.
    destruct (2 * (N mod D) ?= D); [destruct (Z.even (N / D))|..]; lia.
Qed.

Lemma rhe_error (N D : Z) : 0 < D -> 2 * Z.abs (round_half_even N D * D - N) <= D.
Proof.
  intros HD. unfold round_half_even.
  pose proof (Z.div_mod N D ltac:(lia)) as E.
  pose proof (Z.mod_pos_bound N D HD) as B.
  destruct (2 * (N mod D) ?= D) eqn:C.
  - apply Z.compare_eq in C. destruct (Z.even (N / D)); nia.
  - rewrite Z.compare_lt_iff in C. nia.
  - rewrite Z.compare_gt_iff in C. nia.
Qed.


Lemma pow2_split (a b : Z) : 0 <= a -> 0 <= b -> 2 ^ (a + b) = 2 ^ a * 2 ^ b.
Proof. intros. apply Z.pow_add_r; lia. Qed.

Lemma flr_lower (n d : Z) : 0 < n -> 0 < d ->
  let k := floor_log2_ratio n d in
  d * 2 ^ Z.max 0 k <= n * 2 ^ Z.max 0 (- k).
Proof.
  intros Hn Hd. unfold floor_log2_ratio.
  pose proof (Z.log2_spec n Hn) as [Ln Un].
  pose proof (Z.log2_spec d Hd) as [Ld Ud].
  pose proof (Z.log2_nonneg n). pose proof (Z.log2_nonneg d).
  set (a := Z.log2 n) in *. set (b := Z.log2 d) in *.
  destruct (Z.ltb_spec (n * 2 ^ Z.max 0 (- (a - b))) (d * 2 ^ Z.max 0 (a - b))) as [L|L];
    cbv zeta; [|lia].
  rewrite Z.pow_succ_r in Un, Ud by lia.
  destruct (Z.le_gt_cases 0 (a - b - 1)).
  - replace (Z.max 0 (a - b - 1)) with (a - b - 1) by lia.
    replace (Z.max 0 (- (a - b - 1))) with 0 by lia.
    assert (2 ^ a = 2 ^ (a - b - 1) * (2 * 2 ^ b)).
    { rewrite <- Z.pow_succ_r by lia. rewrite <- Z.pow_add_r by lia. f_equal. lia. }
    assert (0 < 2 ^ (a - b - 1)) by (apply Z.pow_pos_nonneg; lia).
    nia.
  - replace (Z.max 0 (a - b - 1)) with 0 by lia.
    replace (Z.max 0 (- (a - b - 1))) with (b + 1 - a) by lia.
    assert (2 * 2 ^ b = 2 ^ (b + 1 - a) * 2 ^ a).
    { rewrite <- Z.pow_succ_r by lia. rewrite <- Z.pow_add_r by lia. f_equal. lia. }
    assert (0 < 2 ^ (b + 1 - a)) by (apply Z.pow_pos_nonneg; lia).
    nia.
Qed.

Lemma flr_upper (n d : Z) : 0 < n -> 0 < d ->
  let k := floor_log2_ratio n d + 1 in
  n * 2 ^ Z.max 0 (- k) < d * 2 ^ Z.max 0 k.
Proof.
  intros Hn Hd. unfold floor_log2_ratio.
  pose proof (Z.log2_spec n Hn) as [Ln Un].
  pose proof (Z.log2_spec d Hd) as [Ld Ud].
  pose proof (Z.log2_nonneg n). pose proof (Z.log2_nonneg d).
  set (a := Z.log2 n) in *. set (b := Z.log2 d) in *.
  destruct (Z.ltb_spec (n * 2 ^ Z.max 0 (- (a - b))) (d * 2 ^ Z.max 0 (a - b))) as [L|L];
    cbv zeta.
  - replace (a - b - 1 + 1) with (a - b) by lia. exact L.
  - rewrite Z.pow_succ_r in Un, Ud by lia.
    destruct (Z.le_gt_cases 0 (a - b + 1)).
    + replace (Z.max 0 (a - b + 1)) with (a - b + 1) by lia.
      replace (Z.max 0 (- (a - b + 1))) with 0 by lia.
      assert (2 * 2 ^ a = 2 ^ (a - b + 1) * 2 ^ b).
      { rewrite <- Z.pow_succ_r by lia. rewrite <- Z.pow_add_r by lia. f_equal. lia. }
      assert (0 < 2 ^ (a - b + 1)) by (apply Z.pow_pos_nonneg; lia).
      nia.
    + replace (Z.max 0 (a - b + 1)) with 0 by lia.
      replace (Z.max 0 (- (a - b + 1))) with (b - a - 1) by lia.
      assert (2 ^ b = 2 ^ (b - a - 1) * (2 * 2 ^ a)).
      { rewrite <- Z.pow_succ_r by lia. rewrite <- Z.pow_add_r by lia. f_equal. lia. }
      assert (0 < 2 ^ (b - a - 1)) by (apply Z.pow_pos_nonneg; lia).
      nia.
Qed.


#[local] Open Scope Q_scope.

Lemma pow2_pos (e : Z) : 0 < 2 ^ e.
Proof. apply Qpower_0_lt. reflexivity. Qed.

Lemma pow2_add (a b : Z) : 2 ^ (a + b) == 2 ^ a * 2 ^ b.
Proof. apply Qpower_plus. discriminate. Qed.

Lemma pow2_inject (e : Z) : (0 <= e)%Z -> inject_Z (2 ^ e) == 2 ^ e.
Proof. intros. now rewrite Zpower_Qpower. Qed.

Lemma pow2_max (e : Z) : 2 ^ Z.max 0 e == 2 ^ e * 2 ^ Z.max 0 (- e).
Proof.
  rewrite <- pow2_add. replace (e + Z.max 0 (- e))%Z with (Z.max 0 e) by lia.
  reflexivity.
Qed.

Lemma dyadic_eq (m e : Z) : dyadic m e == inject_Z m * 2 ^ e.
Proof.
  unfold dyadic. destruct (Z.leb_spec 0 e) as [H|H].
  - rewrite inject_Z_mult, pow2_inject by lia. reflexivity.
  - rewrite Qred_correct.
    replace e with (- - e)%Z at 2 by lia. rewrite Qpower_opp, <- pow2_inject by lia.
    assert (0 < 2 ^ (- e))%Z by (apply Z.pow_pos_nonneg; lia).
    unfold Qeq, Qmult, Qinv, inject_Z. simpl.
    destruct (2 ^ (- e))%Z eqn:E; try lia. simpl. lia.
Qed.

Section Scaled.
Variables (n d e : Z).
Hypothesis (Hn : (0 < n)%Z) (Hd : (0 < d)%Z).
Let N := (n * 2 ^ Z.max 0 (- e))%Z.
Let D := (d * 2 ^ Z.max 0 e)%Z.
Let x := inject_Z n / inject_Z d.

Lemma scaled_den_pos : (0 < D)%Z.
Proof. unfold D. apply Z.mul_pos_pos; [lia|]. apply Z.pow_pos_nonneg; lia. Qed.

Lemma scaled_facts :
  exists B : Q, 0 < B /\ inject_Z N == inject_Z n * B /\
               inject_Z D == inject_Z d * (2 ^ e * B).
Proof.
  exists (2 ^ Z.max 0 (- e)). split; [apply pow2_pos|]. unfold N, D.
  rewrite !inject_Z_mult, !pow2_inject by lia. split; [reflexivity|].
  now rewrite <- pow2_max.
Qed.

Lemma scaled_le (K : Z) : inject_Z K * 2 ^ e <= x <-> (K * D <= N)%Z.
Proof.
  destruct scaled_facts as (B & HB & EN & ED).
  pose proof (pow2_pos e) as HA.
  assert (Hd' : 0 < inject_Z d) by (rewrite <- (Zlt_Qlt 0); lia).
  rewrite Zle_Qle, inject_Z_mult, EN, ED. unfold x.
  set (A := 2 ^ e) in *. set (qd := inject_Z d) in *. set (qn := inject_Z n) in *.
  set (qk := inject_Z K).
  assert (Hx : qn / qd * qd == qn) by (field; lra).
  assert (0 < qd * B) by nra.
  assert (E1 : qk * (qd * (A * B)) == (qk * A) * (qd * B)) by ring.
  assert (E2 : qn * B == (qn / qd) * (qd * B)) by (rewrite <- Hx at 1; ring).
  rewrite E1, E2.
  split; intros H1.
  - apply Qmult_le_compat_r; lra.
  - apply Qmult_le_r in H1; lra.
Qed.

Lemma scaled_ge (K : Z) : x <= inject_Z K * 2 ^ e <-> (N <= K * D)%Z.
Proof.
  destruct scaled_facts as (B & HB & EN & ED).
  pose proof (pow2_pos e) as HA.
  assert (Hd' : 0 < inject_Z d) by (rewrite <- (Zlt_Qlt 0); lia).
  rewrite Zle_Qle, inject_Z_mult, EN, ED. unfold x.
  set (A := 2 ^ e) in *. set (qd := inject_Z d) in *. set (qn := inject_Z n) in *.
  set (qk := inject_Z K).
  assert (Hx : qn / qd * qd == qn) by (field; lra).
  assert (0 < qd * B) by nra.
  assert (E1 : qk * (qd * (A * B)) == (qk * A) * (qd * B)) by ring.
  assert (E2 : qn * B == (qn / qd) * (qd * B)) by (rewrite <- Hx at 1; ring).
  rewrite E1, E2.
  split; intros H1.
  - apply Qmult_le_compat_r; lra.
  - apply Qmult_le_r in H1; lra.
Qed.

(** The rounded mantissa is within half a quantum of the exact value. *)
Lemma scaled_error :
  Qabs (inject_Z (round_half_even N D) * 2 ^ e - x) <= 2 ^ e * (1 # 2).
Proof.
  pose proof (rhe_error N D scaled_den_pos) as HE.
  set (m := round_half_even N D) in *.
  destruct scaled_facts as (B & HB & EN & ED).
  pose proof (pow2_pos e) as HA.
  assert (Hd' : 0 < inject_Z d) by (rewrite <- (Zlt_Qlt 0); lia).
  assert (H1 : (2 * (m * D) <= D + 2 * N)%Z) by lia.
  assert (H2 : (2 * N <= D + 2 * (m * D))%Z) by lia.
  rewrite Zle_Qle in H1, H2.
  rewrite ?inject_Z_plus, ?inject_Z_mult, EN, ED in H1, H2.
  unfold x.
  set (A := 2 ^ e) in *. set (qd := inject_Z d) in *. set (qn := inject_Z n) in *.
  set (qm := inject_Z m) in *.
  assert (Hx : qn / qd * qd == qn) by (field; lra).
  set (y := qn / qd) in *.
  assert (HP : 0 < qd * B) by nra.
  apply Qabs_Qle_condition. split.
  - apply (Qmult_le_r _ _ (qd * B) HP).
    change (inject_Z 2) with 2 in H2.
    rewrite <- Hx in H2. nra.
  - apply (Qmult_le_r _ _ (qd * B) HP).
    change (inject_Z 2) with 2 in H1.
    rewrite <- Hx in H1. nra.
Qed.
End Scaled.


Lemma pow2_le (a b : Z) : (a <= b)%Z -> 2 ^ a <= 2 ^ b.
Proof. intros. apply Qpower_le_compat_l; [lia | discriminate]. Qed.

Lemma pow2_lt_inv (a b : Z) : 2 ^ a < 2 ^ b -> (a < b)%Z.
Proof. intros. eapply Qpower_lt_compat_l_inv; [eassumption | reflexivity]. Qed.

(** [floor_log2_ratio] brackets the ratio between two powers of two. *)
Lemma flr_spec (n d : Z) : (0 < n)%Z -> (0 < d)%Z ->
  let k := floor_log2_ratio n d in
  let x := inject_Z n / inject_Z d in
  2 ^ k <= x /\ x < 2 ^ (k + 1).
Proof.
  intros Hn Hd k x. split.
  - pose proof (flr_lower n d Hn Hd) as L. cbv zeta in L. fold k in L.
    rewrite <- (Qmult_1_l (2 ^ k)). change 1 with (inject_Z 1).
    apply scaled_le; lia.
  - pose proof (flr_upper n d Hn Hd) as U. cbv zeta in U. fold k in U.
    apply Qnot_le_lt. intros C.
    rewrite <- (Qmult_1_l (2 ^ (k + 1))) in C. change 1 with (inject_Z 1) in C.
    apply scaled_le in C; lia.
Qed.

Section RoundPos.
Variables (n d : Z).
Hypothesis (Hn : (0 < n)%Z) (Hd : (0 < d)%Z).
Let x := inject_Z n / inject_Z d.
Let e := quantum_exp n d.
Let m := round_half_even (n * 2 ^ Z.max 0 (- e)) (d * 2 ^ Z.max 0 e).

Lemma round_pos_unfold :
  round_pos n d =
  if (0 <=? e)%Z && (2 ^ emax <=? m * 2 ^ e)%Z then None else Some (dyadic m e).
Proof. reflexivity. Qed.

Lemma quantum_exp_min : (emin <= e)%Z.
Proof. unfold e, quantum_exp. lia. Qed.

Lemma quantum_exp_normal : (emin < e)%Z -> 2 ^ (e + 52) <= x.
Proof.
  intros H. destruct (flr_spec n d Hn Hd) as [L _].
  unfold e, quantum_exp, prec in *.
  replace (Z.max (floor_log2_ratio n d + 1 - 53) emin + 52)%Z
    with (floor_log2_ratio n d) by lia.
  exact L.
Qed.

Lemma mantissa_le (K : Z) : x <= inject_Z K * 2 ^ e -> (m <= K)%Z.
Proof.
  intros H. apply rhe_upper; [now apply scaled_den_pos|]. now apply scaled_ge.
Qed.

Lemma mantissa_ge (K : Z) : inject_Z K * 2 ^ e <= x -> (K <= m)%Z.
Proof.
  intros H. apply rhe_lower; [now apply scaled_den_pos|]. now apply scaled_le.
Qed.

(** A representable number [M * 2^E] is a barrier for rounding. *)
Lemma round_pos_le_repr (M E : Z) :
  (0 <= M < 2 ^ 53)%Z -> (emin <= E)%Z ->
  inject_Z M * 2 ^ E < 2 ^ emax ->
  x <= inject_Z M * 2 ^ E ->
  exists v, round_pos n d = Some v /\ v <= inject_Z M * 2 ^ E.
Proof.
  intros HM HE Hmax Hx.
  destruct (Z.lt_ge_cases E e) as [C|C].
  - exfalso. pose proof (quantum_exp_normal ltac:(lia)) as Q1.
    assert (inject_Z M * 2 ^ E < 2 ^ (e + 52)).
    { apply Qlt_le_trans with (2 ^ 53 * 2 ^ E).
      - apply Qmult_lt_compat_r; [apply pow2_pos|].
        rewrite <- pow2_inject by lia. rewrite <- Zlt_Qlt. lia.
      - rewrite <- pow2_add. apply pow2_le. lia. }
    lra.
  - set (K := (M * 2 ^ (E - e))%Z).
    assert (EK : inject_Z K * 2 ^ e == inject_Z M * 2 ^ E).
    { unfold K. rewrite inject_Z_mult, pow2_inject by lia.
      rewrite <- Qmult_assoc, <- pow2_add. replace (E - e + e)%Z with E by lia.
      reflexivity. }
    assert (Hm : (m <= K)%Z) by (apply mantissa_le; now rewrite EK).
    assert (Hv : inject_Z m * 2 ^ e <= inject_Z M * 2 ^ E).
    { rewrite <- EK. apply Qmult_le_compat_r; [now rewrite <- Zle_Qle|].
      apply Qlt_le_weak, pow2_pos. }
    rewrite round_pos_unfold.
    destruct ((0 <=? e)%Z && (2 ^ emax <=? m * 2 ^ e)%Z) eqn:O.
    + exfalso. apply andb_true_iff in O as [O1 O2].
      apply Z.leb_le in O1, O2. rewrite Zle_Qle in O2.
      rewrite inject_Z_mult, !pow2_inject in O2 by (unfold emax; lia). lra.
    + eexists; split; [reflexivity|]. now rewrite dyadic_eq.
Qed.

Lemma round_pos_ge_repr (M E : Z) (v : Q) :
  (0 <= M < 2 ^ 53)%Z -> (emin <= E)%Z ->
  inject_Z M * 2 ^ E <= x ->
  round_pos n d = Some v -> inject_Z M * 2 ^ E <= v.
Proof.
  intros HM HE Hx Hv. rewrite round_pos_unfold in Hv.
  destruct ((0 <=? e)%Z && (2 ^ emax <=? m * 2 ^ e)%Z); [discriminate|].
  injection Hv as <-. rewrite dyadic_eq.
  destruct (Z.lt_ge_cases E e) as [C|C].
  - pose proof (quantum_exp_normal ltac:(lia)) as Q1.
    assert (Hm : (2 ^ 52 <= m)%Z).
    { apply mantissa_ge. rewrite pow2_inject, <- pow2_add by lia.
      now rewrite Z.add_comm. }
    apply Qle_trans with (2 ^ 53 * 2 ^ E).
    + apply Qmult_le_compat_r; [|apply Qlt_le_weak, pow2_pos].
      rewrite <- pow2_inject by lia. rewrite <- Zle_Qle. lia.
    + apply Qle_trans with (2 ^ 52 * 2 ^ e).
      * rewrite <- !pow2_add. apply pow2_le. lia.
      * apply Qmult_le_compat_r; [|apply Qlt_le_weak, pow2_pos].
        rewrite <- pow2_inject by lia. now rewrite <- Zle_Qle.
  - set (K := (M * 2 ^ (E - e))%Z).
    assert (EK : inject_Z K * 2 ^ e == inject_Z M * 2 ^ E).
    { unfold K. rewrite inject_Z_mult, pow2_inject by lia.
      rewrite <- Qmult_assoc, <- pow2_add. replace (E - e + e)%Z with E by lia.
      reflexivity. }
    assert (Hm : (K <= m)%Z) by (apply mantissa_ge; now rewrite EK).
    rewrite <- EK. apply Qmult_le_compat_r; [now rewrite <- Zle_Qle|].
    apply Qlt_le_weak, pow2_pos.
Qed.

(** In the normal range the relative error is at most [2^-53]. *)
Lemma round_pos_rel_err (v : Q) :
  2 ^ (-1022) <= x ->
  round_pos n d = Some v -> Qabs (v - x) <= x * 2 ^ (-53).
Proof.
  intros Hx Hv. rewrite round_pos_unfold in Hv.
  destruct ((0 <=? e)%Z && (2 ^ emax <=? m * 2 ^ e)%Z); [discriminate|].
  injection Hv as <-. rewrite dyadic_eq.
  destruct (flr_spec n d Hn Hd) as [L U]. fold x in L, U.
  assert (Hk : (-1022 < floor_log2_ratio n d + 1)%Z).
  { apply pow2_lt_inv. lra. }
  assert (He : (e + 52 = floor_log2_ratio n d)%Z).
  { unfold e, quantum_exp, emin, emax, prec. lia. }
  eapply Qle_trans; [apply scaled_error; assumption|].
  rewrite <- He in L.
  assert (2 ^ e * (1 # 2) == 2 ^ (e + 52) * 2 ^ (-53)).
  { rewrite <- pow2_add. replace (e + 52 + -53)%Z with (e + -1)%Z by lia.
    rewrite pow2_add. reflexivity. }
  rewrite H. apply Qmult_le_compat_r; [exact L|]. apply Qlt_le_weak, pow2_pos.
Qed.
End RoundPos.


Lemma Qpos_num (x : Q) : 0 < x -> (0 < Qnum x)%Z.
Proof. unfold Qlt. simpl. lia. Qed.

Lemma round_ne_pos (x : Q) : 0 < x ->
  round_ne x = match round_pos (Qnum x) (QDen x) with
               | Some v => Finite v
               | None => Infinity false
               end.
Proof.
  intros H. apply Qpos_num in H. unfold round_ne.
  destruct (Qnum x); try lia. reflexivity.
Qed.

Lemma Q_as_div (x : Q) : x == inject_Z (Qnum x) / inject_Z (QDen x).
Proof. destruct x as [a b]. apply Qmake_Qdiv. Qed.

Lemma round_ne_le_repr (x : Q) (M E : Z) :
  0 < x -> (0 <= M < 2 ^ 53)%Z -> (emin <= E)%Z ->
  inject_Z M * 2 ^ E < 2 ^ emax -> x <= inject_Z M * 2 ^ E ->
  exists v, round_ne x = Finite v /\ v <= inject_Z M * 2 ^ E.
Proof.
  intros Hx HM HE Hmax Hle. rewrite round_ne_pos by assumption.
  rewrite (Q_as_div x) in Hle.
  destruct (round_pos_le_repr (Qnum x) (QDen x) (Qpos_num x Hx) ltac:(lia) M E HM HE Hmax Hle)
    as (v & -> & Hv).
  now exists v.
Qed.

Lemma round_ne_ge_repr (x : Q) (M E : Z) (v : Q) :
  0 < x -> (0 <= M < 2 ^ 53)%Z -> (emin <= E)%Z ->
  inject_Z M * 2 ^ E <= x -> round_ne x = Finite v -> inject_Z M * 2 ^ E <= v.
Proof.
  intros Hx HM HE Hle Hv. rewrite round_ne_pos in Hv by assumption.
  rewrite (Q_as_div x) in Hle.
  destruct (round_pos (Qnum x) (QDen x)) as [v'|] eqn:R; [|discriminate].
  injection Hv as ->.
  exact (round_pos_ge_repr (Qnum x) (QDen x) (Qpos_num x Hx) ltac:(lia) M E v HM HE Hle R).
Qed.

Lemma round_ne_rel_err (x v : Q) :
  2 ^ (-1022) <= x -> round_ne x = Finite v -> Qabs (v - x) <= x * 2 ^ (-53).
Proof.
  intros Hx Hv.
  assert (Hpos : 0 < x) by (pose proof (pow2_pos (-1022)); lra).
  rewrite round_ne_pos in Hv by assumption.
  destruct (round_pos (Qnum x) (QDen x)) as [v'|] eqn:R; [|discriminate].
  injection Hv as ->.
  rewrite (Q_as_div x) in Hx |- * at 1.
  pose proof (round_pos_rel_err (Qnum x) (QDen x) (Qpos_num x Hpos) ltac:(lia) v Hx R) as HR.
  rewrite <- (Q_as_div x) in HR. rewrite <- (Q_as_div x). exact HR.
Qed.


(** ** The operations on the operands the scripts use *)

Lemma inject_Z_pos (a : Z) : (0 < a)%Z -> 0 < inject_Z a.
Proof. intros. rewrite <- (Zlt_Qlt 0). assumption. Qed.

Lemma ratio_as_Q (a b : Z) : (0 < b)%Z ->
  Qmake (a * Z.sgn b) (Z.to_pos (Z.abs b)) == inject_Z a / inject_Z b.
Proof.
  intros Hb. rewrite Z.sgn_pos, Z.mul_1_r, Z.abs_eq by lia.
  rewrite Qmake_Qdiv, Z2Pos.id by lia. reflexivity.
Qed.

Lemma ratio_pos (a b : Z) : (0 < a)%Z -> (0 < b)%Z -> 0 < inject_Z a / inject_Z b.
Proof.
  intros Ha Hb. apply Qlt_shift_div_l; [now apply inject_Z_pos|].
  rewrite Qmult_0_l. now apply inject_Z_pos.
Qed.

Lemma truediv_pos (a b : Z) :
  (0 < a < 2 ^ 1023)%Z -> (0 < b < 2 ^ 52)%Z ->
  exists v, truediv a b = inr (Finite v) /\
    Qabs (v - inject_Z a / inject_Z b) <= inject_Z a / inject_Z b * 2 ^ (-53) /\
    ((a <= b)%Z -> v <= 1).
Proof.
  intros Ha Hb. unfold truediv.
  destruct (Z.eqb_spec b 0) as [->|_]; [lia|].
  pose proof (ratio_as_Q a b ltac:(lia)) as E.
  pose proof (ratio_pos a b ltac:(lia) ltac:(lia)) as P.
  pose proof (inject_Z_pos a ltac:(lia)) as Pa.
  pose proof (inject_Z_pos b ltac:(lia)) as Pb.
  set (x := Qmake (a * Z.sgn b) (Z.to_pos (Z.abs b))) in *.
  set (r := inject_Z a / inject_Z b) in *.
  assert (Hb1 : 1 <= inject_Z b) by (change 1 with (inject_Z 1); rewrite <- Zle_Qle; lia).
  assert (Ha1 : 1 <= inject_Z a) by (change 1 with (inject_Z 1); rewrite <- Zle_Qle; lia).
  assert (Hra : r <= inject_Z a).
  { unfold r. apply Qle_shift_div_r; [assumption|]. nra. }
  assert (Hmax : inject_Z 1 * 2 ^ 1023 < 2 ^ emax).
  { rewrite Qmult_1_l. apply Qpower_lt_compat_l; [unfold emax; lia | reflexivity]. }
  destruct (round_ne_le_repr x 1 1023) as (v & Hv & Hle);
    [lra | lia | unfold emin, emax, prec; lia | exact Hmax | |].
  { rewrite E, Qmult_1_l, <- pow2_inject by lia.
    apply Qle_trans with (inject_Z a); [exact Hra|]. rewrite <- Zle_Qle. lia. }
  exists v. rewrite Hv. split; [reflexivity|]. split.
  - assert (Hn : 2 ^ (-1022) <= x).
    { rewrite E. apply Qle_trans with (2 ^ (-52)); [apply pow2_le; lia|].
      unfold r. apply Qle_shift_div_l; [assumption|].
      apply Qle_trans with (2 ^ (-52) * 2 ^ 52).
      - apply Qmult_le_l; [apply pow2_pos|]. rewrite <- pow2_inject by lia.
        rewrite <- Zle_Qle. lia.
      - rewrite <- pow2_add. simpl. exact Ha1. }
    pose proof (round_ne_rel_err x v Hn Hv) as R. rewrite E in R. exact R.
  - intros Hab.
    destruct (round_ne_le_repr x 1 0) as (v' & Hv' & Hle');
    [lra | lia | unfold emin, emax, prec; lia | reflexivity | |].
    { rewrite E. unfold r. apply Qle_shift_div_r; [assumption|].
      assert (E1 : inject_Z 1 * 2 ^ 0 == 1) by reflexivity.
      rewrite E1, Qmult_1_l. rewrite <- Zle_Qle. exact Hab. }
    rewrite Hv in Hv'. injection Hv' as <-.
    assert (E1 : inject_Z 1 * 2 ^ 0 == 1) by reflexivity.
    rewrite E1 in Hle'. exact Hle'.
Qed.

(** The same facts for any quotient that did not raise. *)
Lemma truediv_props (a b : Z) (f : float) :
  (0 < a)%Z -> (0 < b < 2 ^ 52)%Z -> truediv a b = inr f ->
  exists v, f = Finite v /\
    Qabs (v - inject_Z a / inject_Z b) <= inject_Z a / inject_Z b * 2 ^ (-53) /\
    ((a <= b)%Z -> v <= 1).
Proof.
  intros Ha Hb. unfold truediv.
  destruct (Z.eqb_spec b 0) as [->|_]; [lia|].
  pose proof (ratio_as_Q a b ltac:(lia)) as E.
  pose proof (ratio_pos a b ltac:(lia) ltac:(lia)) as P.
  pose proof (inject_Z_pos a ltac:(lia)) as Pa.
  pose proof (inject_Z_pos b ltac:(lia)) as Pb.
  set (x := Qmake (a * Z.sgn b) (Z.to_pos (Z.abs b))) in *.
  set (r := inject_Z a / inject_Z b) in *.
  assert (Ha1 : 1 <= inject_Z a) by (change 1 with (inject_Z 1); rewrite <- Zle_Qle; lia).
  destruct (round_ne x) as [v| |] eqn:Hv; try discriminate.
  intros [= <-]. exists v. split; [reflexivity|]. split.
  - assert (Hn : 2 ^ (-1022) <= x).
    { rewrite E. apply Qle_trans with (2 ^ (-52)); [apply pow2_le; lia|].
      unfold r. apply Qle_shift_div_l; [assumption|].
      apply Qle_trans with (2 ^ (-52) * 2 ^ 52).
      - apply Qmult_le_l; [apply pow2_pos|]. rewrite <- pow2_inject by lia.
        rewrite <- Zle_Qle. lia.
      - rewrite <- pow2_add. simpl. exact Ha1. }
    pose proof (round_ne_rel_err x v Hn Hv) as R. rewrite E in R. exact R.
  - intros Hab.
    destruct (round_ne_le_repr x 1 0) as (v' & Hv' & Hle');
    [lra | lia | unfold emin, emax, prec; lia | reflexivity | |].
    { rewrite E. unfold r. apply Qle_shift_div_r; [assumption|].
      assert (E1 : inject_Z 1 * 2 ^ 0 == 1) by reflexivity.
      rewrite E1, Qmult_1_l. rewrite <- Zle_Qle. exact Hab. }
    rewrite Hv in Hv'. injection Hv' as <-.
    assert (E1 : inject_Z 1 * 2 ^ 0 == 1) by reflexivity.
    rewrite E1 in Hle'. exact Hle'.
Qed.

Lemma of_int_exact (a : Z) : (0 < a < 2 ^ 53)%Z ->
  exists v, of_int a = inr (Finite v) /\ v == inject_Z a.
Proof.
  intros Ha. unfold of_int.
  pose proof (inject_Z_pos a ltac:(lia)) as Pa.
  assert (E : inject_Z a * 2 ^ 0 == inject_Z a) by (simpl; ring).
  destruct (round_ne_le_repr (inject_Z a) a 0) as (v & Hv & Hle);
    [assumption | lia | unfold emin, emax, prec; lia | | lra |].
  { rewrite E, <- (pow2_inject emax) by (unfold emax; lia). rewrite <- Zlt_Qlt.
    apply Z.lt_trans with (2 ^ 53)%Z; [lia|]. apply Z.pow_lt_mono_r; unfold emax; lia. }
  pose proof (round_ne_ge_repr (inject_Z a) a 0 v Pa ltac:(lia)
                ltac:(unfold emin, emax, prec; lia) ltac:(lra) Hv) as Hge.
  exists v. rewrite Hv. split; [reflexivity|]. lra.
Qed.

Lemma Qtrunc_floor (v : Q) : 0 <= v -> Qtrunc v = Qfloor v.
Proof.
  destruct v as [n d]. unfold Qle, Qtrunc, Qfloor. simpl. intros H.
  apply Z.quot_div_nonneg; lia.
Qed.


Lemma int_barrier_eq (k : Z) : inject_Z k * 2 ^ 0 == inject_Z k.
Proof. change (2 ^ 0) with 1. ring. Qed.

Lemma mul_to_int (c : Z) (s : Q) :
  (0 < c < 2 ^ 52)%Z -> 2 ^ (-1000) <= s -> s <= 1 ->
  exists v,
    bind_exn (mul_int_float c (Finite s)) to_int = inr (Qfloor v) /\
    Qabs (v - inject_Z c * s) <= inject_Z c * s * 2 ^ (-53) /\
    inject_Z (Qfloor (inject_Z c * s)) <= v /\
    v <= inject_Z (Qceiling (inject_Z c * s)).
Proof.
  intros Hc Hs Hs1.
  destruct (of_int_exact c ltac:(lia)) as (vc & Hvc & Evc).
  unfold mul_int_float. rewrite Hvc. cbn [bind_exn fmul].
  pose proof (inject_Z_pos c ltac:(lia)) as Pc.
  assert (P0 : 0 < s) by (eapply Qlt_le_trans; [apply pow2_pos | exact Hs]).
  assert (Hc1 : 1 <= inject_Z c) by (change 1 with (inject_Z 1); rewrite <- Zle_Qle; lia).
  set (x := vc * s).
  assert (Ex : x == inject_Z c * s) by (unfold x; now rewrite Evc).
  assert (Px : 0 < x) by (rewrite Ex; nra).
  assert (Hxc : x <= inject_Z c) by (rewrite Ex; nra).
  assert (Hmin : (emin <= 0)%Z) by (unfold emin, emax, prec; lia).
  assert (Hc53 : inject_Z c < 2 ^ 53).
  { rewrite <- pow2_inject by lia. rewrite <- Zlt_Qlt. lia. }
  assert (Hbig : forall k, inject_Z k <= inject_Z c -> inject_Z k * 2 ^ 0 < 2 ^ emax).
  { intros k Hk. rewrite int_barrier_eq.
    apply Qle_lt_trans with (inject_Z c); [assumption|].
    apply Qlt_le_trans with (2 ^ 53); [assumption|]. apply pow2_le. unfold emax. lia. }
  pose proof (Qfloor_le x) as F1. pose proof (Qle_ceiling x) as C1.
  assert (F0 : (0 <= Qfloor x)%Z).
  { change 0%Z with (Qfloor 0). apply Qfloor_resp_le. lra. }
  assert (C2 : (Qceiling x <= c)%Z).
  { rewrite <- (Qceiling_Z c). now apply Qceiling_resp_le. }
  pose proof (Qle_floor_ceiling x) as FC. rewrite <- Zle_Qle in FC.
  assert (C0 : (0 <= Qceiling x)%Z) by lia.
  destruct (round_ne_le_repr x (Qceiling x) 0) as (v & Hv & Hle);
    [assumption | lia | assumption | apply Hbig; rewrite <- Zle_Qle; lia
    | rewrite int_barrier_eq; assumption |].
  rewrite int_barrier_eq in Hle.
  pose proof (round_ne_ge_repr x (Qfloor x) 0 v Px ltac:(lia) Hmin
                ltac:(rewrite int_barrier_eq; assumption) Hv) as Hge.
  rewrite int_barrier_eq in Hge.
  assert (Pv : 0 <= v).
  { apply Qle_trans with (inject_Z (Qfloor x)); [|assumption].
    change 0 with (inject_Z 0). now rewrite <- Zle_Qle. }
  exists v. rewrite Hv. cbn [to_int]. rewrite Qtrunc_floor by assumption.
  split; [reflexivity|]. split; [|split].
  - rewrite <- Ex. apply round_ne_rel_err; [|assumption].
    rewrite Ex. apply Qle_trans with (2 ^ (-1000)); [apply pow2_le; lia|].
    set (t := 2 ^ (-1000)) in *. nra.
  - rewrite <- Ex. assumption.
  - rewrite <- Ex. assumption.
Qed.


Lemma u53_eq : 2 ^ (-53) == u53.
Proof. reflexivity. Qed.

Lemma Qfloor_lt_succ (v : Q) (F : Z) : v < inject_Z (F + 1) -> (Qfloor v <= F)%Z.
Proof.
  intros H. pose proof (Qfloor_le v) as L.
  assert (inject_Z (Qfloor v) < inject_Z (F + 1)) by lra.
  rewrite <- Zlt_Qlt in H0. lia.
Qed.

Lemma Qfloor_ge (v : Q) (F : Z) : inject_Z F <= v -> (F <= Qfloor v)%Z.
Proof.
  intros H. rewrite <- (Qfloor_Z F). now apply Qfloor_resp_le.
Qed.

(** A value within two roundings of [c * a / b] truncates to the exact
    floor or to one less. *)
Lemma floor_close (c a b : Z) (v : Q) :
  (0 < a < b)%Z -> (0 < c < 2 ^ 52)%Z -> (c = b \/ c * b < 2 ^ 52)%Z ->
  let X := inject_Z c * (inject_Z a / inject_Z b) in
  X * ((1 - u53) * (1 - u53)) <= v -> v <= X * ((1 + u53) * (1 + u53)) ->
  (Qfloor X - 1 <= Qfloor v <= Qfloor X)%Z.
Proof.
  intros Hab Hc Hcb X Hlo Hhi.
  pose proof (inject_Z_pos a ltac:(lia)) as Pa.
  pose proof (inject_Z_pos b ltac:(lia)) as Pb.
  pose proof (inject_Z_pos c ltac:(lia)) as Pc.
  assert (Hab' : inject_Z a < inject_Z b) by (rewrite <- Zlt_Qlt; lia).
  assert (Hc' : inject_Z c < 4503599627370496).
  { change 4503599627370496 with (inject_Z (2 ^ 52)). rewrite <- Zlt_Qlt. lia. }
  set (qa := inject_Z a) in *. set (qb := inject_Z b) in *. set (qc := inject_Z c) in *.
  assert (EX : X * qb == qc * qa) by (unfold X; field; lra).
  assert (PX : 0 < X).
  { unfold X. apply Qmult_lt_0_compat; [assumption|]. apply Qlt_shift_div_l; lra. }
  assert (HXc : X < qc).
  { assert (X * qb < qc * qb) by (rewrite EX; nra). nra. }
  pose proof (Qfloor_le X) as F1. pose proof (Qlt_floor X) as F2.
  set (F := Qfloor X) in *. clearbody F. clearbody X.
  unfold u53 in *.
  split.
  - apply Qfloor_ge. replace (F - 1)%Z with (F + -1)%Z by lia.
    rewrite inject_Z_plus. change (inject_Z (-1)) with (- (1)).
    rewrite inject_Z_plus in F2. change (inject_Z 1) with 1 in F2. nra.
  - apply Qfloor_lt_succ.
    destruct Hcb as [->|Hcb].
    + subst qc. fold qb in EX, HXc, Hc', Pc. assert (EXa : X == qa).
      { apply (Qmult_inj_r _ _ qb); [lra | rewrite EX; ring]. }
      assert (Ha52 : qa <= 4503599627370495).
      { change 4503599627370495 with (inject_Z (2 ^ 52 - 1)). unfold qa.
        rewrite <- Zle_Qle. lia. }
      assert (HF : (a <= F)%Z).
      { assert (HF : inject_Z a < inject_Z (F + 1)) by (fold qa; lra).
        rewrite <- Zlt_Qlt in HF. lia. }
      rewrite Zle_Qle in HF. fold qa in HF.
      rewrite inject_Z_plus. change (inject_Z 1) with 1. nra.
    + assert (Hz : (c * a + 1 <= (F + 1) * b)%Z).
      { assert (inject_Z (c * a) < inject_Z ((F + 1) * b)).
        { rewrite !inject_Z_mult. fold qa qb qc. rewrite <- EX. nra. }
        rewrite <- Zlt_Qlt in H. lia. }
      rewrite Zle_Qle in Hz. rewrite inject_Z_plus, !inject_Z_mult in Hz. 
      fold qa qb qc in Hz. change (inject_Z 1) with 1 in Hz.
      assert (Hca : qc * qa <= 4503599627370495).
      { change 4503599627370495 with (inject_Z (2 ^ 52 - 1)). unfold qc, qa.
        rewrite <- inject_Z_mult, <- Zle_Qle. nia. }
      set (G := inject_Z (F + 1)) in *.
      assert (HG : X * qb + 1 <= G * qb) by (rewrite EX; lra).
      assert (Hd : (v - X) * qb < 1).
      { assert ((v - X) * qb <= X * qb * (2 * (1 # 9007199254740992)
                 + (1 # 9007199254740992) * (1 # 9007199254740992))) by nra.
        rewrite EX in H. nra. }
      nra.
Qed.


Lemma Qabs_lt_1 (x : Q) : - (1) < x -> x < 1 -> Qabs x < 1.
Proof. intros. apply Qabs_case; intros; lra. Qed.

(** One output dimension: [int(c * scale_ratio)] for a scale within one
    rounding of the exact ratio [a / b]. *)
Lemma dim_spec (c a b : Z) (s : Q) :
  (0 < a < b)%Z -> (b < 2 ^ 52)%Z -> (0 < c < 2 ^ 52)%Z ->
  (c = b \/ c * b < 2 ^ 52)%Z ->
  let se := inject_Z a / inject_Z b in
  se * (1 - u53) <= s -> s <= se * (1 + u53) -> s <= 1 ->
  exists n,
    bind_exn (mul_int_float c (Finite s)) to_int = inr n /\
    (Qfloor (inject_Z c * se) - 1 <= n <= Qfloor (inject_Z c * se))%Z /\
    Qabs (inject_Z n - inject_Z c * s) < 1.
Proof.
  intros Hab Hb Hc Hcb se Hlo Hhi Hs1.
  pose proof (inject_Z_pos a ltac:(lia)) as Pa.
  pose proof (inject_Z_pos b ltac:(lia)) as Pb.
  pose proof (inject_Z_pos c ltac:(lia)) as Pc.
  assert (Ha1 : 1 <= inject_Z a) by (change 1 with (inject_Z 1); rewrite <- Zle_Qle; lia).
  assert (Hb' : inject_Z b < 4503599627370496).
  { change 4503599627370496 with (inject_Z (2 ^ 52)). rewrite <- Zlt_Qlt. lia. }
  assert (Hse : (1 # 4503599627370496) <= se).
  { unfold se. apply Qle_shift_div_l; [assumption|]. nra. }
  assert (Hs : 2 ^ (-1000) <= s).
  { apply Qle_trans with (2 ^ (-53)); [apply pow2_le; lia|].
    rewrite u53_eq. unfold u53 in *. nra. }
  destruct (mul_to_int c s Hc Hs Hs1) as (v & Hv & Herr & Hfl & Hce).
  exists (Qfloor v). split; [exact Hv|].
  rewrite u53_eq in Herr. apply Qabs_Qle_condition in Herr as [E1 E2].
  set (qc := inject_Z c) in *.
  assert (Pcs : 0 < qc * s) by (clearbody se; unfold u53 in *; nra).
  assert (B1 : qc * se * ((1 - u53) * (1 - u53)) <= v).
  { clearbody se. unfold u53 in *.
    assert (qc * (se * (1 - (1 # 9007199254740992))) <= qc * s) by nra. nra. }
  assert (B2 : v <= qc * se * ((1 + u53) * (1 + u53))).
  { clearbody se. unfold u53 in *.
    assert (qc * s <= qc * (se * (1 + (1 # 9007199254740992)))) by nra. nra. }
  split.
  - apply floor_close; assumption.
  - pose proof (Qfloor_le v) as V1. pose proof (Qlt_floor v) as V2.
    pose proof (Qlt_floor (qc * s)) as S2. pose proof (Qceiling_lt (qc * s)) as S3.
    rewrite inject_Z_plus in V2, S2. change (inject_Z 1) with 1 in *.
    replace (Qceiling (qc * s) - 1)%Z with (Qceiling (qc * s) + -1)%Z in S3 by lia.
    rewrite inject_Z_plus in S3. change (inject_Z (-1)) with (- (1)) in S3.
    assert (G : inject_Z (Qfloor (qc * s)) <= inject_Z (Qfloor v)).
    { rewrite <- Zle_Qle. apply Qfloor_ge. assumption. }
    apply Qabs_lt_1; lra.
Qed.


Lemma fmin_finite (p q : Q) :
  exists s, fmin (Finite p) (Finite q) = Finite s /\ s <= p /\ s <= q /\ (s = p \/ s = q).
Proof.
  unfold fmin, flt. destruct (Qcompare_spec q p) as [E|L|G].
  - exists p. repeat split; try lra. now left.
  - exists q. repeat split; try lra. now right.
  - exists p. repeat split; try lra. now left.
Qed.

Section Resize.
Variables (W H max_width max_height : Z).
Hypothesis (HW : (0 < W)%Z) (HH : (0 < H)%Z) (Hpix : (W * H < 2 ^ 52)%Z).
Hypothesis (Hmw : (0 < max_width < 2 ^ 1023)%Z) (Hmh : (0 < max_height < 2 ^ 1023)%Z).
Hypothesis (Hbig : (max_width < W \/ max_height < H)%Z).

Let r1 := inject_Z max_width / inject_Z W.
Let r2 := inject_Z max_height / inject_Z H.

Lemma dims_small : (W < 2 ^ 52 /\ H < 2 ^ 52)%Z.
Proof. split; nia. Qed.

Lemma ratio_ge_1 (a b : Z) : (0 < b <= a)%Z -> 1 <= inject_Z a / inject_Z b.
Proof.
  intros Hab. apply Qle_shift_div_l; [apply inject_Z_pos; lia|].
  rewrite Qmult_1_l, <- Zle_Qle. lia.
Qed.

Lemma ratio_lt_1 (a b : Z) : (0 < b)%Z -> (a < b)%Z -> inject_Z a / inject_Z b < 1.
Proof.
  intros Hb Hab. apply Qlt_shift_div_r; [apply inject_Z_pos; lia|].
  rewrite Qmult_1_l, <- Zlt_Qlt. lia.
Qed.

(** The exact scale is the ratio of a dimension that exceeds its bound. *)
Lemma spec_scale_cases :
  (spec_scale W H max_width max_height == r1 /\ (max_width < W)%Z) \/
  (spec_scale W H max_width max_height == r2 /\ (max_height < H)%Z).
Proof.
  unfold spec_scale. fold r1 r2.
  destruct (Q.min_spec r1 r2) as [[L E]|[L E]].
  - left. split; [exact E|].
    destruct (Z.lt_ge_cases max_width W) as [|C]; [assumption|exfalso].
    pose proof (ratio_ge_1 max_width W ltac:(lia)). fold r1 in H0.
    assert (max_height < H)%Z by lia.
    pose proof (ratio_lt_1 max_height H HH H1). fold r2 in H2. lra.
  - right. split; [exact E|].
    destruct (Z.lt_ge_cases max_height H) as [|C]; [assumption|exfalso].
    pose proof (ratio_ge_1 max_height H ltac:(lia)). fold r2 in H0.
    assert (max_width < W)%Z by lia.
    pose proof (ratio_lt_1 max_width W HW H1). fold r1 in H2. lra.
Qed.

Lemma scale_ratio_spec :
  exists s, scale_ratio_of W H max_width max_height = inr (Finite s) /\
    let se := spec_scale W H max_width max_height in
    se * (1 - u53) <= s /\ s <= se * (1 + u53) /\ s <= 1 /\ 0 < s.
Proof.
  destruct dims_small as [HW52 HH52].
  destruct (truediv_pos max_width W Hmw ltac:(lia)) as (wr & Ewr & Rw & Lw).
  destruct (truediv_pos max_height H Hmh ltac:(lia)) as (hr & Ehr & Rh & Lh).
  fold r1 in Rw. fold r2 in Rh.
  unfold scale_ratio_of. rewrite Ewr, Ehr. cbn [bind_exn].
  destruct (fmin_finite wr hr) as (s & -> & S1 & S2 & S3).
  exists s. split; [reflexivity|]. cbv zeta.
  rewrite u53_eq in Rw, Rh.
  apply Qabs_Qle_condition in Rw as [Rw1 Rw2].
  apply Qabs_Qle_condition in Rh as [Rh1 Rh2].
  pose proof (ratio_pos max_width W ltac:(lia) HW) as P1. fold r1 in P1.
  pose proof (ratio_pos max_height H ltac:(lia) HH) as P2. fold r2 in P2.
  assert (Hs1 : s <= 1).
  { destruct Hbig; [specialize (Lw ltac:(lia)) | specialize (Lh ltac:(lia))]; lra. }
  pose proof (Q.le_min_l r1 r2) as M1. pose proof (Q.le_min_r r1 r2) as M2.
  unfold spec_scale. fold r1 r2.
  assert (P3 : 0 < Qmin r1 r2).
  { destruct (Q.min_spec r1 r2) as [[_ E]|[_ E]]; rewrite E; assumption. }
  pose proof (Q.min_spec r1 r2) as MS.
  set (se := Qmin r1 r2) in *. clearbody r1 r2 se. unfold u53 in *.
  repeat split; try assumption.
  - destruct S3 as [-> | ->]; nra.
  - destruct MS as [[_ E]|[_ E]]; nra.
  - destruct S3 as [-> | ->]; nra.
Qed.


(** What the size computation returns when a resize is due. *)
Lemma scaled_size_spec :
  exists s nw nh,
    scale_ratio_of W H max_width max_height = inr (Finite s) /\
    scaled_size W H max_width max_height = inr (nw, nh) /\
    0 < s /\ s <= 1 /\
    (fst (spec_scaled_size W H max_width max_height) - 1 <= nw
       <= fst (spec_scaled_size W H max_width max_height))%Z /\
    (snd (spec_scaled_size W H max_width max_height) - 1 <= nh
       <= snd (spec_scaled_size W H max_width max_height))%Z /\
    Qabs (inject_Z nw - inject_Z W * s) < 1 /\
    Qabs (inject_Z nh - inject_Z H * s) < 1.
Proof.
  destruct dims_small as [HW52 HH52].
  destruct scale_ratio_spec as (s & Es & Slo & Shi & S1 & S0).
  unfold scaled_size. rewrite Es. cbn [bind_exn]. cbv zeta in Slo, Shi.
  unfold spec_scaled_size. cbn [fst snd].
  assert (D : exists a b, (0 < a < b)%Z /\ (b < 2 ^ 52)%Z /\
            (W = b \/ W * b < 2 ^ 52)%Z /\ (H = b \/ H * b < 2 ^ 52)%Z /\
            spec_scale W H max_width max_height == inject_Z a / inject_Z b).
  { destruct spec_scale_cases as [[E L]|[E L]].
    - exists max_width, W.
      split; [lia|]. split; [lia|]. split; [now left|]. split; [right; lia|]. exact E.
    - exists max_height, H.
      split; [lia|]. split; [lia|]. split; [right; lia|]. split; [now left|]. exact E. }
  destruct D as (a & b & Hab & Hb & HcW & HcH & E).
  rewrite E in Slo, Shi.
  assert (EW : Qfloor (inject_Z W * spec_scale W H max_width max_height)
               = Qfloor (inject_Z W * (inject_Z a / inject_Z b))).
  { apply Qfloor_comp. now rewrite E. }
  assert (EH : Qfloor (inject_Z H * spec_scale W H max_width max_height)
               = Qfloor (inject_Z H * (inject_Z a / inject_Z b))).
  { apply Qfloor_comp. now rewrite E. }
  rewrite EW, EH.
  destruct (dim_spec W a b s Hab Hb ltac:(lia) HcW Slo Shi S1) as (nw & -> & Fw & Aw).
  destruct (dim_spec H a b s Hab Hb ltac:(lia) HcH Slo Shi S1) as (nh & -> & Fh & Ah).
  exists s, nw, nh. cbn [bind_exn]. repeat split; try assumption; try lia.
Qed.
End Resize.


(** ** Whenever the size computation returns *)
Section ResizeReturned.
Variables (W H max_width max_height : Z).
Hypothesis (HW : (0 < W < 2 ^ 52)%Z) (HH : (0 < H < 2 ^ 52)%Z).
Hypothesis (Hmw : (0 < max_width)%Z) (Hmh : (0 < max_height)%Z).
Hypothesis (Hbig : (max_width < W \/ max_height < H)%Z).

Let r1 := inject_Z max_width / inject_Z W.
Let r2 := inject_Z max_height / inject_Z H.

Lemma ratio_floor (a b : Z) : (0 < a)%Z -> (0 < b < 2 ^ 52)%Z ->
  (1 # 4503599627370496) <= inject_Z a / inject_Z b.
Proof.
  intros Ha Hb.
  pose proof (inject_Z_pos b ltac:(lia)) as Pb.
  assert (1 <= inject_Z a) by (change 1 with (inject_Z 1); rewrite <- Zle_Qle; lia).
  assert (inject_Z b < 4503599627370496).
  { change 4503599627370496 with (inject_Z (2 ^ 52)). rewrite <- Zlt_Qlt. lia. }
  apply Qle_shift_div_l; [assumption|]. nra.
Qed.

Lemma scale_ratio_props (f : float) :
  scale_ratio_of W H max_width max_height = inr f ->
  exists s, f = Finite s /\
    2 ^ (-1000) <= s /\ s <= 1 /\
    s <= r1 * (1 + u53) /\ s <= r2 * (1 + u53).
Proof.
  unfold scale_ratio_of.
  destruct (truediv max_width W) as [e|fw] eqn:Ew; [discriminate|].
  destruct (truediv max_height H) as [e|fh] eqn:Eh; [discriminate|].
  cbn [bind_exn]. intros [= <-].
  destruct (truediv_props max_width W fw Hmw HW Ew) as (wr & -> & Rw & Lw).
  destruct (truediv_props max_height H fh Hmh HH Eh) as (hr & -> & Rh & Lh).
  fold r1 in Rw. fold r2 in Rh.
  destruct (fmin_finite wr hr) as (s & -> & S1 & S2 & S3).
  exists s. split; [reflexivity|].
  rewrite u53_eq in Rw, Rh.
  apply Qabs_Qle_condition in Rw as [Rw1 Rw2].
  apply Qabs_Qle_condition in Rh as [Rh1 Rh2].
  pose proof (ratio_floor max_width W Hmw HW) as P1. fold r1 in P1.
  pose proof (ratio_floor max_height H Hmh HH) as P2. fold r2 in P2.
  assert (Hs1 : s <= 1).
  { destruct Hbig; [specialize (Lw ltac:(lia)) | specialize (Lh ltac:(lia))]; lra. }
  clearbody r1 r2. unfold u53 in *.
  split; [|split; [assumption|split; nra]].
  apply Qle_trans with (2 ^ (-53)); [apply pow2_le; lia|].
  rewrite u53_eq. unfold u53. destruct S3 as [-> | ->]; nra.
Qed.

(** One dimension stays within its bound. *)
Lemma dim_le_bound (c m : Z) (s : Q) (n : Z) :
  (0 < c < 2 ^ 52)%Z -> (0 < m)%Z ->
  2 ^ (-1000) <= s -> s <= 1 ->
  s <= inject_Z m / inject_Z c * (1 + u53) ->
  bind_exn (mul_int_float c (Finite s)) to_int = inr n ->
  (0 <= n <= m)%Z /\ Qabs (inject_Z n - inject_Z c * s) < 1.
Proof.
  intros Hc Hm Hs Hs1 Hsr Hn.
  destruct (mul_to_int c s Hc Hs Hs1) as (v & Hv & Herr & Hfl & Hce).
  rewrite Hv in Hn. injection Hn as <-.
  pose proof (inject_Z_pos c ltac:(lia)) as Pc.
  assert (P0 : 0 < s) by (eapply Qlt_le_trans; [apply pow2_pos | exact Hs]).
  set (qc := inject_Z c) in *.
  assert (Pcs : 0 < qc * s) by nra.
  assert (Hcs : qc * s <= qc) by nra.
  pose proof (Qfloor_le v) as V1. pose proof (Qlt_floor v) as V2.
  pose proof (Qlt_floor (qc * s)) as S2. pose proof (Qceiling_lt (qc * s)) as S3.
  rewrite inject_Z_plus in V2, S2. change (inject_Z 1) with 1 in *.
  replace (Qceiling (qc * s) - 1)%Z with (Qceiling (qc * s) + -1)%Z in S3 by lia.
  rewrite inject_Z_plus in S3. change (inject_Z (-1)) with (- (1)) in S3.
  assert (G : inject_Z (Qfloor (qc * s)) <= inject_Z (Qfloor v)).
  { rewrite <- Zle_Qle. apply Qfloor_ge. assumption. }
  assert (F0 : (0 <= Qfloor (qc * s))%Z).
  { change 0%Z with (Qfloor 0). apply Qfloor_resp_le. lra. }
  assert (A1 : Qabs (inject_Z (Qfloor v) - qc * s) < 1) by (apply Qabs_lt_1; lra).
  split; [|exact A1].
  rewrite <- Zle_Qle in G. split; [lia|].
  destruct (Z.lt_ge_cases m c) as [Hlt|Hge].
  - (* the bound is below the dimension: two roundings stay under m + 1 *)
    apply Qfloor_lt_succ. rewrite inject_Z_plus. change (inject_Z 1) with 1.
    rewrite u53_eq in Herr. apply Qabs_Qle_condition in Herr as [E1 E2].
    assert (Hm52 : inject_Z m <= 4503599627370495).
    { change 4503599627370495 with (inject_Z (2 ^ 52 - 1)). rewrite <- Zle_Qle. lia. }
    pose proof (inject_Z_pos m Hm) as Pm.
    assert (Ecm : qc * (inject_Z m / qc) == inject_Z m) by (field; lra).
    set (qm := inject_Z m) in *. set (r := qm / qc) in *. clearbody r.
    unfold u53 in *.
    assert (qc * s <= qm * (1 + (1 # 9007199254740992))).
    { rewrite <- Ecm.
      assert (qc * s <= qc * (r * (1 + (1 # 9007199254740992)))) by nra. lra. }
    nra.
  - (* the bound is not below the dimension, and the scale is at most 1 *)
    apply Z.le_trans with c; [|lia].
    apply Qfloor_lt_succ. rewrite inject_Z_plus. change (inject_Z 1) with 1.
    fold qc.
    assert (HC : (Qceiling (qc * s) <= Qceiling (inject_Z c))%Z).
    { apply Qceiling_resp_le. exact Hcs. }
    rewrite Qceiling_Z, Zle_Qle in HC. fold qc in HC. lra.
Qed.

(** The computed size: within the bounds, and within one pixel per
    dimension of the input scaled by the ratio the script computed. *)
Lemma scaled_size_props (nw nh : Z) :
  scaled_size W H max_width max_height = inr (nw, nh) ->
  exists s,
    scale_ratio_of W H max_width max_height = inr (Finite s) /\
    0 < s /\ s <= 1 /\
    (0 <= nw <= max_width)%Z /\ (0 <= nh <= max_height)%Z /\
    Qabs (inject_Z nw - inject_Z W * s) < 1 /\
    Qabs (inject_Z nh - inject_Z H * s) < 1.
Proof.
  unfold scaled_size.
  destruct (scale_ratio_of W H max_width max_height) as [e|f] eqn:Es; [discriminate|].
  destruct (scale_ratio_props f Es) as (s & -> & S0 & S1 & Sw & Sh).
  cbn [bind_exn].
  destruct (bind_exn (mul_int_float W (Finite s)) to_int) as [e|nw'] eqn:Ew;
    [discriminate|].
  destruct (bind_exn (mul_int_float H (Finite s)) to_int) as [e|nh'] eqn:Eh;
    [discriminate|].
  cbn [bind_exn]. intros [= <- <-].
  destruct (dim_le_bound W max_width s nw' HW Hmw S0 S1 Sw Ew) as [Bw Aw].
  destruct (dim_le_bound H max_height s nh' HH Hmh S0 S1 Sh Eh) as [Bh Ah].
  assert (P0 : 0 < s) by (eapply Qlt_le_trans; [apply pow2_pos | exact S0]).
  exists s. repeat split; try assumption; lia.
Qed.
End ResizeReturned.

End FloatFacts.

(** * Properties of the compression scripts *)
Module ImagingFacts.

Import Imaging FloatFacts.

Section WithLibrary.
Context {env image : Type}.
Variable lib : library env image.

Implicit Types (w : world env image) (img : image).

Lemma trace_record (ev : event image) w :
  w_trace (record ev w) = w_trace w ++ [ev].
Proof. reflexivity. Qed.

(** Running the per-file function on a file whose size can be read and
    which opens as [img0], [img] after the mode check. *)
Lemma compress_with_run kw input output mw mh w n img0 img :
  os_getsize lib input (w_env w) = inr n ->
  pil_open lib input (w_env w) = inr img0 ->
  (forall w0, fst (ensure_rgb lib img0 w0) = inr img) ->
  exists w1,
    w_env w1 = w_env w /\
    (exists pre, w_trace w1 = w_trace w ++ pre /\
       resize_requests pre = [] /\ saved_images pre = []) /\
    compress_with lib kw input output mw mh w =
    try_except
      (let* img' := resize_to_fit lib img mw mh in
       image_save lib img' (match output with None => input | Some p => p end) kw >>
       let* compressed_size :=
         get_file_size lib (match output with None => input | Some p => p end) in
       ret (n, compressed_size))
      (except_clause input n) w1.
Proof.
  intros Hn Ho He.
  unfold compress_with, bind at 1, get_file_size at 1. rewrite Hn.
  unfold try_except, try_body, bind at 1 2, image_open. cbn [w_env record].
  rewrite Ho. unfold convert_and_resize, bind at 1 2.
  specialize (He (record (EvOpen input) (record (EvGetSize input) w))).
  destruct (ensure_rgb lib img0 _) as [r w1] eqn:E. cbn [fst] in He. subst r.
  exists w1. unfold ensure_rgb in E.
  destruct (mode_in lib img0 _).
  - unfold image_convert in E. injection E as E1 <-. cbn [w_env record].
    split; [reflexivity|]. split; [|reflexivity].
    eexists [_; _; _]. cbn [w_trace record]. rewrite <- !app_assoc. split; [reflexivity|].
    split; reflexivity.
  - unfold ret in E. injection E as E1 <-. cbn [w_env record].
    split; [reflexivity|]. split; [|reflexivity].
    eexists [_; _]. cbn [w_trace record]. rewrite <- !app_assoc. split; [reflexivity|].
    split; reflexivity.
Qed.


Lemma resize_requests_app (a b : list (event image)) :
  resize_requests (a ++ b) = resize_requests a ++ resize_requests b.
Proof. apply flat_map_app. Qed.

Lemma saved_images_app (a b : list (event image)) :
  saved_images (a ++ b) = saved_images a ++ saved_images b.
Proof. apply flat_map_app. Qed.

Lemma exceeds_true W H mw mh : exceeds W H mw mh = true <-> mw < W \/ mh < H.
Proof. unfold exceeds. rewrite orb_true_iff, !Z.gtb_ltb, !Z.ltb_lt. tauto. Qed.

Lemma exceeds_false W H mw mh : exceeds W H mw mh = false <-> W <= mw /\ H <= mh.
Proof. unfold exceeds. rewrite orb_false_iff, !Z.gtb_ltb, !Z.ltb_ge. tauto. Qed.

Ltac run_monad :=
  repeat (unfold try_except, bind, ret, raise, lift, image_save, image_resize,
            get_file_size, print, except_clause, record;
          cbn [w_env w_trace fst snd]).

Lemma after_open_no_resize kw input out mw mh n img W H w1 :
  pil_size lib img = (W, H) -> exceeds W H mw mh = false ->
  exists tail,
    w_trace (snd (after_open lib kw input out mw mh n img w1)) = w_trace w1 ++ tail /\
    resize_requests tail = [] /\ saved_images tail = [img].
Proof.
  intros Hs Hx. unfold after_open, resize_to_fit. rewrite Hs.
  fold (exceeds W H mw mh). rewrite Hx. run_monad.
  destruct (pil_save lib img out kw (w_env w1)) as [[e|[]] d']; run_monad.
  - rewrite <- app_assoc. eexists. split; [reflexivity|]. split; reflexivity.
  - destruct (os_getsize lib out d') as [e|c]; run_monad;
      rewrite <- ?app_assoc; eexists; (split; [reflexivity|]); split; reflexivity.
Qed.

Lemma after_open_resize kw input out mw mh n img W H w1 size :
  pil_size lib img = (W, H) -> exceeds W H mw mh = true ->
  scaled_size W H mw mh = inr size ->
  exists tail,
    w_trace (snd (after_open lib kw input out mw mh n img w1)) = w_trace w1 ++ tail /\
    resize_requests tail = [size].
Proof.
  intros Hs Hx Hz. unfold after_open, resize_to_fit. rewrite Hs.
  fold (exceeds W H mw mh). rewrite Hx, Hz. run_monad.
  destruct (pil_resize lib img size "LANCZOS") as [e|img']; run_monad.
  - rewrite <- app_assoc. eexists. split; reflexivity.
  - destruct (pil_save lib img' out kw (w_env w1)) as [[e|[]] d']; run_monad.
    + rewrite <- !app_assoc. eexists. split; reflexivity.
    + destruct (os_getsize lib out d') as [e|c]; run_monad;
        rewrite <- ?app_assoc; eexists; split; reflexivity.
Qed.

(** What the trace of the per-file function says about resizing. *)
Lemma compress_with_trace kw input output mw mh w n img0 img W H :
  os_getsize lib input (w_env w) = inr n ->
  pil_open lib input (w_env w) = inr img0 ->
  (forall w0, fst (ensure_rgb lib img0 w0) = inr img) ->
  pil_size lib img = (W, H) ->
  let t := w_trace (snd (compress_with lib kw input output mw mh w)) in
  (exceeds W H mw mh = false ->
     resize_requests t = resize_requests (w_trace w) /\
     saved_images t = saved_images (w_trace w) ++ [img]) /\
  (forall size, exceeds W H mw mh = true ->
     scaled_size W H mw mh = inr size ->
     resize_requests t = resize_requests (w_trace w) ++ [size]).
Proof.
  intros Hn Ho He Hs t.
  destruct (compress_with_run kw input output mw mh w n img0 img Hn Ho He)
    as (w1 & Ew & (pre & Et & Pr & Ps) & E).
  subst t. rewrite E.
  set (out := match output with None => input | Some p => p end).
  fold (after_open lib kw input out mw mh n img).
  split.
  - intros Hx.
    destruct (after_open_no_resize kw input out mw mh n img W H w1 Hs Hx)
      as (tail & -> & Tr & Ts).
    rewrite Et, !resize_requests_app, !saved_images_app, Pr, Ps, Tr, Ts.
    now rewrite !app_nil_r.
  - intros size Hx Hz.
    destruct (after_open_resize kw input out mw mh n img W H w1 size Hs Hx Hz)
      as (tail & -> & Tr).
    rewrite Et, !resize_requests_app, Pr, Tr. now rewrite !app_nil_r.
Qed.


Lemma after_open_arith_error kw input out mw mh n img W H w1 e :
  pil_size lib img = (W, H) -> exceeds W H mw mh = true ->
  scaled_size W H mw mh = inl e ->
  exists tail,
    w_trace (snd (after_open lib kw input out mw mh n img w1)) = w_trace w1 ++ tail /\
    resize_requests tail = [].
Proof.
  intros Hs Hx Hz. unfold after_open, resize_to_fit. rewrite Hs.
  fold (exceeds W H mw mh). rewrite Hx, Hz. run_monad.
  eexists. split; reflexivity.
Qed.

(** All the cases of [compress_with_trace] in one statement: the resize
    requests the call adds are none, or the computed size. *)
Lemma compress_with_requests kw input output mw mh w n img0 img W H :
  os_getsize lib input (w_env w) = inr n ->
  pil_open lib input (w_env w) = inr img0 ->
  (forall w0, fst (ensure_rgb lib img0 w0) = inr img) ->
  pil_size lib img = (W, H) ->
  let t := w_trace (snd (compress_with lib kw input output mw mh w)) in
  resize_requests t = resize_requests (w_trace w) ++
    (if exceeds W H mw mh
     then match scaled_size W H mw mh with inr size => [size] | inl _ => [] end
     else []).
Proof.
  intros Hn Ho He Hs t.
  destruct (exceeds W H mw mh) eqn:Hx.
  - destruct (scaled_size W H mw mh) as [e|size] eqn:Hz.
    + destruct (compress_with_run kw input output mw mh w n img0 img Hn Ho He)
        as (w1 & Ew & (pre & Et & Pr & Ps) & E).
      subst t. rewrite E.
      set (out := match output with None => input | Some p => p end).
      fold (after_open lib kw input out mw mh n img).
      destruct (after_open_arith_error kw input out mw mh n img W H w1 e Hs Hx Hz)
        as (tail & -> & Tr).
      rewrite Et, !resize_requests_app, Pr, Tr. now rewrite !app_nil_r.
    + now apply (compress_with_trace kw input output mw mh w n img0 img W H).
  - rewrite app_nil_r.
    now apply (compress_with_trace kw input output mw mh w n img0 img W H).
Qed.


(** ** The error boundary *)

Lemma bind_inr_inv {A B} (m : M env image A) (k : A -> M env image B) w r w2 :
  bind m k w = (inr r, w2) ->
  exists a w', m w = (inr a, w') /\ k a w' = (inr r, w2).
Proof.
  unfold bind. destruct (m w) as [[e|a] w']; [discriminate|]. eauto.
Qed.

Lemma try_body_value kw input out mw mh n w1 r w2 :
  try_body lib kw input out mw mh n w1 = (inr r, w2) -> fst r = n.
Proof.
  unfold try_body. intros E.
  apply bind_inr_inv in E as (img & w3 & _ & E).
  apply bind_inr_inv in E as (img' & w4 & _ & E).
  apply bind_inr_inv in E as (u & w5 & _ & E).
  apply bind_inr_inv in E as (c & w6 & _ & E).
  unfold ret in E. now injection E as <- _.
Qed.

(** Once the size of the input has been read, the per-file function
    returns: what the [try] body returned, or the original size twice
    after logging the exception the body raised. *)
Lemma compress_with_returns kw input output mw mh w n :
  os_getsize lib input (w_env w) = inr n ->
  match try_body lib kw input
          (match output with None => input | Some p => p end) mw mh n
          (record (EvGetSize input) w) with
  | (inl e, w2) =>
      compress_with lib kw input output mw mh w =
      (inr (n, n), record (EvPrint (MsgImageError input e)) w2)
  | (inr r, w2) =>
      compress_with lib kw input output mw mh w = (inr r, w2) /\ fst r = n
  end.
Proof.
  intros Hn.
  assert (E0 : compress_with lib kw input output mw mh w =
               try_except
                 (try_body lib kw input
                    (match output with None => input | Some p => p end) mw mh n)
                 (except_clause input n) (record (EvGetSize input) w)).
  { unfold compress_with, bind at 1, get_file_size at 1. now rewrite Hn. }
  rewrite E0. unfold try_except.
  destruct (try_body lib kw input _ mw mh n _) as [[e|r] w2] eqn:E.
  - reflexivity.
  - split; [reflexivity|]. eapply try_body_value; eassumption.
Qed.

Lemma compress_with_total kw :
  (forall p d, exists n, os_getsize lib p d = inr n) ->
  forall input output mw mh w,
    exists r w', compress_with lib kw input output mw mh w = (inr r, w').
Proof.
  intros Hsize input output mw mh w.
  destruct (Hsize input (w_env w)) as [n Hn].
  pose proof (compress_with_returns kw input output mw mh w n Hn) as R.
  destruct (try_body lib kw input _ mw mh n _) as [[e|r] w2]; [|destruct R]; eauto.
Qed.

Lemma folder_loop_cons (one : string -> M env image (Z * Z))
    (report : Z -> Z -> Z -> Z -> M env image unit) folder count i name rest
    total_original total_compressed processed w :
  folder_loop one report folder count i (name :: rest)
    (total_original, total_compressed, processed) w =
  match one (path_join folder name)
          (record (EvPrint (MsgProcessing i count name)) w) with
  | (inl e, w1) => (inl e, w1)
  | (inr (original_size, compressed_size), w1) =>
      let w2 := record (EvPrint (if original_size >? 0
                                 then MsgDone original_size compressed_size
                                 else MsgDonePlain)) w1 in
      match report i count (total_original + original_size)
              (total_compressed + compressed_size) w2 with
      | (inl e, w3) => (inl e, w3)
      | (inr _, w3) =>
          folder_loop one report folder count (i + 1) rest
            (total_original + original_size, total_compressed + compressed_size,
             processed + 1) w3
      end
  end.
Proof.
  cbn [folder_loop]. unfold bind, print.
  destruct (one _ _) as [[e|[os cs]] w1]; [reflexivity|].
  destruct (os >? 0); reflexivity.
Qed.

Lemma folder_loop_total (one : string -> M env image (Z * Z))
    (report : Z -> Z -> Z -> Z -> M env image unit) folder count :
  (forall p w, exists r w', one p w = (inr r, w')) ->
  (forall i c a b w, exists w', report i c a b w = (inr tt, w')) ->
  forall names i acc w,
    exists total_original total_compressed w',
      folder_loop one report folder count i names acc w =
      (inr (total_original, total_compressed,
            snd acc + Z.of_nat (List.length names)), w').
Proof.
  intros Hone Hrep names.
  induction names as [|name rest IH]; intros i [[to tc] pc] w.
  - exists to, tc, w. cbn. unfold ret. do 2 f_equal. f_equal. lia.
  - rewrite folder_loop_cons.
    destruct (Hone (path_join folder name) (record (EvPrint (MsgProcessing i count name)) w))
      as ([os cs] & w1 & ->). cbv zeta.
    destruct (Hrep i count (to + os) (tc + cs)
                (record (EvPrint (if os >? 0 then MsgDone os cs else MsgDonePlain)) w1))
      as [w3 ->].
    destruct (IH (i + 1) (to + os, tc + cs, pc + 1) w3) as (to' & tc' & w' & E).
    exists to', tc', w'. rewrite E. do 2 f_equal. f_equal.
    cbn [snd List.length]. lia.
Qed.

Lemma folder_driver_total (cs : bool) (one : string -> M env image (Z * Z))
    (report : Z -> Z -> Z -> Z -> M env image unit) folder w :
  (forall p w, exists r w', one p w = (inr r, w')) ->
  (forall i c a b w, exists w', report i c a b w = (inr tt, w')) ->
  exists total_original total_compressed w',
    folder_driver lib cs one report folder w =
    (inr (total_original, total_compressed,
          if os_exists lib folder (w_env w)
          then Z.of_nat (List.length (jpg_files_of cs (os_listdir lib folder (w_env w))))
          else 0), w').
Proof.
  intros Hone Hrep. unfold folder_driver, bind at 1, path_exists.
  destruct (os_exists lib folder (w_env w)); cbn [negb].
  - unfold bind at 1, list_jpg_files.
    destruct (jpg_files_of cs (os_listdir lib folder (w_env w))) as [|f fs] eqn:E.
    + do 3 eexists. reflexivity.
    + unfold bind at 1, print at 1.
      destruct (folder_loop_total one report folder
                  (Z.of_nat (List.length (f :: fs))) Hone Hrep (f :: fs) 1 (0, 0, 0)
                  (record (EvPrint (MsgFolderStart folder (Z.of_nat (List.length (f :: fs))))) w))
        as (to & tc & w' & El).
      exists to, tc, w'. rewrite El. reflexivity.
  - do 3 eexists. reflexivity.
Qed.

(** ** No per-file step prints a "processing" line *)

Lemma processed_names_app (a b : list (event image)) :
  processed_names (a ++ b) = processed_names a ++ processed_names b.
Proof. apply flat_map_app. Qed.

Lemma quiet_ret {A} (a : A) : quiet (ret a : M env image A).
Proof. intros w. reflexivity. Qed.

Lemma quiet_lift {A} (r : exn + A) : quiet (lift r : M env image A).
Proof. intros w. destruct r; reflexivity. Qed.

Lemma quiet_bind {A B} (m : M env image A) (k : A -> M env image B) :
  quiet m -> (forall a, quiet (k a)) -> quiet (bind m k).
Proof.
  intros Hm Hk w. unfold bind. specialize (Hm w).
  destruct (m w) as [[e|a] w']; cbn [snd] in *; [assumption|].
  now rewrite Hk.
Qed.

Lemma quiet_try {A} (m : M env image A) (h : exn -> M env image A) :
  quiet m -> (forall e, quiet (h e)) -> quiet (try_except m h).
Proof.
  intros Hm Hh w. unfold try_except. specialize (Hm w).
  destruct (m w) as [[e|a] w']; cbn [snd] in *; [|assumption].
  now rewrite Hh.
Qed.

Ltac quiet_event :=
  intros w; unfold get_file_size, image_open, image_convert, image_resize, print;
  cbn [snd w_trace record]; rewrite processed_names_app; cbn;
  now rewrite app_nil_r.

Lemma quiet_get_file_size p : quiet (get_file_size lib p).
Proof. quiet_event. Qed.

Lemma quiet_open p : quiet (image_open lib p).
Proof. quiet_event. Qed.

Lemma quiet_convert img mode : quiet (image_convert lib img mode).
Proof. quiet_event. Qed.

Lemma quiet_resize img size f : quiet (image_resize lib img size f).
Proof. quiet_event. Qed.

Lemma quiet_save img p kw : quiet (image_save lib img p kw).
Proof.
  intros w. unfold image_save. destruct (pil_save lib img p kw (w_env w)).
  cbn [snd w_trace]. rewrite processed_names_app. cbn. now rewrite app_nil_r.
Qed.

Lemma quiet_print_error p e : quiet (print (MsgImageError p e) : M env image unit).
Proof. quiet_event. Qed.

Lemma quiet_compress_with kw input output mw mh :
  quiet (compress_with lib kw input output mw mh).
Proof.
  unfold compress_with.
  apply quiet_bind; [apply quiet_get_file_size|]. intros n.
  apply quiet_try.
  - unfold try_body.
    apply quiet_bind; [apply quiet_open|]. intros img.
    apply quiet_bind.
    { unfold convert_and_resize. apply quiet_bind.
      - unfold ensure_rgb. destruct (mode_in lib img _);
          [apply quiet_convert | apply quiet_ret].
      - intros img'. unfold resize_to_fit. destruct (pil_size lib img') as [ow oh].
        destruct ((ow >? mw) || (oh >? mh)); [|apply quiet_ret].
        apply quiet_bind; [apply quiet_lift|]. intros size. apply quiet_resize. }
    intros img'. apply quiet_bind; [apply quiet_save|]. intros _.
    apply quiet_bind; [apply quiet_get_file_size|]. intros c. apply quiet_ret.
  - intros e. unfold except_clause.
    apply quiet_bind; [apply quiet_print_error|]. intros _. apply quiet_ret.
Qed.

(** The loop announces the files in list order: all of them when it
    returns, an initial segment when a per-file call raised. *)
Lemma folder_loop_order (one : string -> M env image (Z * Z))
    (report : Z -> Z -> Z -> Z -> M env image unit) folder count :
  (forall p, quiet (one p)) ->
  (forall i c a b, quiet (report i c a b)) ->
  forall names i acc w,
    exists done,
      processed_names (w_trace (snd (folder_loop one report folder count i names acc w)))
      = processed_names (w_trace w) ++ done /\
      done `prefix_of` names /\
      (forall r, fst (folder_loop one report folder count i names acc w) = inr r ->
                 done = names).
Proof.
  intros Hone Hrep names.
  induction names as [|name rest IH]; intros i [[to tc] pc] w.
  - exists []. cbn. rewrite app_nil_r. repeat split; auto.
  - rewrite folder_loop_cons.
    set (w0 := record (EvPrint (MsgProcessing i count name)) w).
    assert (P0 : processed_names (w_trace w0) = processed_names (w_trace w) ++ [name]).
    { unfold w0. cbn [w_trace record]. now rewrite processed_names_app. }
    pose proof (Hone (path_join folder name) w0) as Q1.
    destruct (one (path_join folder name) w0) as [[e|[os cs]] w1]; cbn [snd] in Q1.
    + exists [name]. cbn [snd fst]. rewrite Q1, P0.
      split; [reflexivity|]. split; [|intros r Hr; discriminate Hr].
      exists rest. reflexivity.
    + cbv zeta.
      set (w2 := record (EvPrint (if os >? 0 then MsgDone os cs else MsgDonePlain)) w1).
      assert (Q2 : processed_names (w_trace w2) = processed_names (w_trace w1)).
      { unfold w2. cbn [w_trace record]. rewrite processed_names_app.
        destruct (os >? 0); cbn; now rewrite app_nil_r. }
      pose proof (Hrep i count (to + os) (tc + cs) w2) as Q3.
      destruct (report i count (to + os) (tc + cs) w2) as [[e|u] w3]; cbn [snd] in Q3.
      * exists [name]. cbn [snd fst]. rewrite Q3, Q2, Q1, P0.
        split; [reflexivity|]. split; [|intros r Hr; discriminate Hr].
        exists rest. reflexivity.
      * destruct (IH (i + 1) (to + os, tc + cs, pc + 1) w3) as (done & E & Hp & Hall).
        exists (name :: done). rewrite E, Q3, Q2, Q1, P0, <- app_assoc.
        split; [reflexivity|]. split.
        -- now apply prefix_cons.
        -- intros r Hr. f_equal. eapply Hall. eassumption.
Qed.

Lemma folder_driver_order (cs : bool) (one : string -> M env image (Z * Z))
    (report : Z -> Z -> Z -> Z -> M env image unit) folder w :
  (forall p, quiet (one p)) ->
  (forall i c a b, quiet (report i c a b)) ->
  os_exists lib folder (w_env w) = true ->
  exists done,
    processed_names (w_trace (snd (folder_driver lib cs one report folder w)))
    = processed_names (w_trace w) ++ done /\
    done `prefix_of` jpg_files_of cs (os_listdir lib folder (w_env w)) /\
    (forall r, fst (folder_driver lib cs one report folder w) = inr r ->
               done = jpg_files_of cs (os_listdir lib folder (w_env w))).
Proof.
  intros Hone Hrep Hex.
  assert (E0 : folder_driver lib cs one report folder w =
            match jpg_files_of cs (os_listdir lib folder (w_env w)) with
            | [] => (inr (0, 0, 0), record (EvPrint (MsgNoJpgFound folder)) w)
            | files =>
                folder_loop one report folder (Z.of_nat (List.length files)) 1 files
                  (0, 0, 0)
                  (record (EvPrint (MsgFolderStart folder
                                      (Z.of_nat (List.length files)))) w)
            end).
  { unfold folder_driver, bind at 1, path_exists. rewrite Hex. cbn [negb].
    unfold bind at 1, list_jpg_files.
    destruct (jpg_files_of cs (os_listdir lib folder (w_env w))); reflexivity. }
  rewrite E0.
  destruct (jpg_files_of cs (os_listdir lib folder (w_env w))) as [|f fs] eqn:E.
  - exists []. cbn [snd fst w_trace record]. rewrite processed_names_app.
    split; [reflexivity|]. split; [apply prefix_nil | reflexivity].
  - destruct (folder_loop_order one report folder
                (Z.of_nat (List.length (f :: fs))) Hone Hrep (f :: fs) 1 (0, 0, 0)
                (record (EvPrint (MsgFolderStart folder
                                    (Z.of_nat (List.length (f :: fs))))) w))
      as (done & Ed & Hp & Hall).
    cbv beta iota zeta. exists done. rewrite Ed. cbn [w_trace record]. rewrite processed_names_app. cbn.
    rewrite app_nil_r. auto.
Qed.

End WithLibrary.

(** ** The resize policy *)

(** C1 (as amended).  For an image of size [W x H] with [W * H < 2^52] and
    positive bounds below [2^1023], [compress_image] and
    [compress_image_ultra] ask for a resize exactly when [W > max_width] or
    [H > max_height].  The requested size is [int(W*s)], [int(H*s)] in
    double-precision arithmetic, and each dimension is the exact
    [floor(W*s)] of the specification or one less; without a resize the
    opened image is saved as it is.  A 1200x800 image with bounds 600x600
    gives 600x400. *)
Theorem resize_policy :
  (forall (env image : Type) (lib : library env image)
     (input : string) (output : option string) (quality : Z) (progressive : bool)
     (w : world env image) (n : Z) (img0 img : image)
     (W H max_width max_height : Z),
     os_getsize lib input (w_env w) = inr n ->
     pil_open lib input (w_env w) = inr img0 ->
     (forall w0, fst (ensure_rgb lib img0 w0) = inr img) ->
     pil_size lib img = (W, H) ->
     0 < W -> 0 < H -> W * H < 2 ^ 52 ->
     0 < max_width < 2 ^ 1023 -> 0 < max_height < 2 ^ 1023 ->
     forall t,
       t = w_trace (snd (compress_image lib input output max_width max_height
                           quality w)) \/
       t = w_trace (snd (compress_image_ultra lib input output max_width max_height
                           quality progressive w)) ->
       (resize_requests t <> resize_requests (w_trace w)
          <-> (W > max_width \/ H > max_height)) /\
       (W <= max_width /\ H <= max_height ->
          saved_images t = saved_images (w_trace w) ++ [img]) /\
       (W > max_width \/ H > max_height ->
          exists new_width new_height,
            resize_requests t = resize_requests (w_trace w) ++ [(new_width, new_height)] /\
            scaled_size W H max_width max_height = inr (new_width, new_height) /\
            fst (spec_scaled_size W H max_width max_height) - 1 <= new_width
              <= fst (spec_scaled_size W H max_width max_height) /\
            snd (spec_scaled_size W H max_width max_height) - 1 <= new_height
              <= snd (spec_scaled_size W H max_width max_height))) /\
  scaled_size 1200 800 600 600 = inr (600, 400).
Proof.
  split; [|reflexivity].
  intros env image lib input output quality progressive w n img0 img W H mw mh
    Hn Ho He Hs HW HH Hpix Hmw Hmh t Ht.
  assert (Hreq : resize_requests t = resize_requests (w_trace w) ++
            (if exceeds W H mw mh
             then match scaled_size W H mw mh with inr size => [size] | inl _ => [] end
             else [])).
  { destruct Ht as [-> | ->];
      apply (compress_with_requests lib _ input output mw mh w n img0 img W H);
      assumption. }
  assert (Hsave : exceeds W H mw mh = false ->
            saved_images t = saved_images (w_trace w) ++ [img]).
  { intros Hx. destruct Ht as [-> | ->];
      apply (compress_with_trace lib _ input output mw mh w n img0 img W H);
      assumption. }
  assert (Hspec : mw < W \/ mh < H ->
            exists nw nh, scaled_size W H mw mh = inr (nw, nh) /\
              fst (spec_scaled_size W H mw mh) - 1 <= nw
                <= fst (spec_scaled_size W H mw mh) /\
              snd (spec_scaled_size W H mw mh) - 1 <= nh
                <= snd (spec_scaled_size W H mw mh)).
  { intros Hb.
    destruct (scaled_size_spec W H mw mh HW HH Hpix Hmw Hmh Hb)
      as (s & nw & nh & _ & E & _ & _ & Fw & Fh & _).
    exists nw, nh. auto. }
  destruct (exceeds W H mw mh) eqn:Hx.
  - apply exceeds_true in Hx. destruct (Hspec Hx) as (nw & nh & E & Fw & Fh).
    rewrite E in Hreq. split; [|split].
    + split; [intros _; lia|]. intros _ C. rewrite Hreq in C.
      apply (f_equal (@List.length _)) in C. rewrite length_app in C. simpl in C. lia.
    + intros [? ?]. lia.
    + intros _. exists nw, nh. auto.
  - rewrite app_nil_r in Hreq. pose proof Hx as Hx'. apply exceeds_false in Hx.
    split; [|split].
    + split; [intros C; now elim C | lia].
    + intros _. now apply Hsave.
    + lia.
Qed.

Lemma resize_policy_witness :
  resize_requests
    (w_trace (snd (compress_image Demo.lib "muffin/c.jpg" None 600 600 60
                     (Demo.start Demo.disk_mixed))))
  <> resize_requests (w_trace (Demo.start Demo.disk_mixed))
  <-> (1920 > 600 \/ 1080 > 600).
Proof.
  apply (proj1 resize_policy _ _ Demo.lib "muffin/c.jpg"%string None 60 true
           (Demo.start Demo.disk_mixed) 90000 (Demo.rgb 1920 1080) (Demo.rgb 1920 1080)
           1920 1080 600 600
           eq_refl eq_refl (fun _ => eq_refl) eq_refl eq_refl eq_refl eq_refl
           ltac:(split; reflexivity) ltac:(split; reflexivity)
           _ (or_introl eq_refl)).
Defined.

(** The claim as first stated fails: a 1109x1109 photo with the default
    600x600 bounds is resized to 599x599, not to [floor(W*s)] = 600x600.
    The Standard Library's IEEE-754 specification agrees. *)
Lemma resize_not_exact_floor :
  resize_requests
    (w_trace (snd (compress_image Demo.lib "chihuahua/square.jpg" None 600 600 60
                     (Demo.start Demo.disk_shapes)))) = [(599, 599)] /\
  spec_scaled_size 1109 1109 600 600 = (600, 600) /\
  SFCheck.sf_scaled_size 1109 1109 600 600 = Some (599, 599).
Proof. repeat split; vm_compute; reflexivity. Qed.

(** C9.  Whenever a resize is computed, the output dimensions are within
    one pixel, in each dimension, of the input scaled by one common
    factor (the script's [scale_ratio]); hence the cross products of the
    two aspect ratios differ by less than [W + H]. *)
Theorem aspect_ratio_within_one_pixel (W H max_width max_height nw nh : Z) :
  0 < W < 2 ^ 52 -> 0 < H < 2 ^ 52 -> 0 < max_width -> 0 < max_height ->
  W > max_width \/ H > max_height ->
  scaled_size W H max_width max_height = inr (nw, nh) ->
  exists s : Q,
    scale_ratio_of W H max_width max_height = inr (Finite s) /\
    (0 < s)%Q /\
    (Qabs (inject_Z nw - inject_Z W * s) < 1)%Q /\
    (Qabs (inject_Z nh - inject_Z H * s) < 1)%Q /\
    Z.abs (nw * H - nh * W) < W + H.
Proof.
  intros HW HH Hmw Hmh Hb E.
  destruct (scaled_size_props W H max_width max_height HW HH Hmw Hmh ltac:(lia) nw nh E)
    as (s & Es & S0 & S1 & Bw & Bh & Aw & Ah).
  exists s. repeat split; try assumption.
  apply Qabs_Qlt_condition in Aw as [Aw1 Aw2].
  apply Qabs_Qlt_condition in Ah as [Ah1 Ah2].
  pose proof (inject_Z_pos W ltac:(lia)) as PW.
  pose proof (inject_Z_pos H ltac:(lia)) as PH.
  apply Z.abs_lt. rewrite !Zlt_Qlt.
  replace (- (W + H)) with (- W + - H) by lia.
  replace (nw * H - nh * W) with (nw * H + - (nh * W)) by lia.
  rewrite !inject_Z_plus, !inject_Z_opp, !inject_Z_mult.
  set (qw := inject_Z W) in *. set (qh := inject_Z H) in *.
  set (a := inject_Z nw) in *. set (b := inject_Z nh) in *.
  split; nra.
Qed.

Lemma aspect_ratio_within_one_pixel_witness :
  exists s : Q,
    scale_ratio_of 880 22 600 600 = inr (Finite s) /\
    (0 < s)%Q /\
    (Qabs (inject_Z 600 - inject_Z 880 * s) < 1)%Q /\
    (Qabs (inject_Z 14 - inject_Z 22 * s) < 1)%Q /\
    Z.abs (600 * 22 - 14 * 880) < 880 + 22.
Proof.
  apply (aspect_ratio_within_one_pixel 880 22 600 600 600 14);
    try lia; try reflexivity.
Defined.




(** ** The error boundary *)

(** C3 (as amended).  Once [get_file_size(input_path)] has answered,
    [compress_image] and [compress_image_ultra] always return: the result
    of the [try] body, or, when any call in the body raised, the pair
    (original size, original size) after logging the error; the folder
    loop then goes on with the next file.  The first size query stands
    before the [try] and is not covered. *)
Theorem per_file_error_boundary :
  forall (env image : Type) (lib : library env image)
    (folder name : string) (rest : list string)
    (max_width max_height quality count i : Z) (totals : Z * Z * Z)
    (w : world env image) (n : Z),
    let input := path_join folder name in
    let w1 := record (EvGetSize input)
                (record (EvPrint (MsgProcessing i count name)) w) in
    os_getsize lib input (w_env w) = inr n ->
    (exists (c : Z) (w2 w3 : world env image),
       compress_image lib input None max_width max_height quality
         (record (EvPrint (MsgProcessing i count name)) w) = (inr (n, c), w2) /\
       (forall e w',
          try_body lib (standard_save_kwargs quality) input input
            max_width max_height n w1 = (inl e, w') ->
          c = n /\ w2 = record (EvPrint (MsgImageError input e)) w') /\
       folder_loop
         (fun p => compress_image lib p None max_width max_height quality)
         (fun _ _ _ _ => ret tt) folder count i (name :: rest) totals w =
       folder_loop
         (fun p => compress_image lib p None max_width max_height quality)
         (fun _ _ _ _ => ret tt) folder count (i + 1) rest
         (fst (fst totals) + n, snd (fst totals) + c, snd totals + 1) w3) /\
    (exists (c : Z) (w2 w3 : world env image),
       compress_image_ultra lib input None max_width max_height quality true
         (record (EvPrint (MsgProcessing i count name)) w) = (inr (n, c), w2) /\
       (forall e w',
          try_body lib (ultra_save_kwargs quality true) input input
            max_width max_height n w1 = (inl e, w') ->
          c = n /\ w2 = record (EvPrint (MsgImageError input e)) w') /\
       folder_loop
         (fun p => compress_image_ultra lib p None max_width max_height quality true)
         (fun i count total_original total_compressed =>
            if i mod 100 =? 0
            then print (MsgProgressReport i count total_original total_compressed)
            else ret tt) folder count i (name :: rest) totals w =
       folder_loop
         (fun p => compress_image_ultra lib p None max_width max_height quality true)
         (fun i count total_original total_compressed =>
            if i mod 100 =? 0
            then print (MsgProgressReport i count total_original total_compressed)
            else ret tt) folder count (i + 1) rest
         (fst (fst totals) + n, snd (fst totals) + c, snd totals + 1) w3).
Proof.
  intros env image lib folder name rest mw mh quality count i [[to tc] pc] w n
    input w1 Hn.
  set (w0 := record (EvPrint (MsgProcessing i count name)) w).
  assert (Hn0 : os_getsize lib input (w_env w0) = inr n) by exact Hn.
  assert (Hgen : forall kw report,
    (forall i c a b w, exists w', report i c a b w = (inr tt, w')) ->
    exists (c : Z) (w2 w3 : world env image),
       compress_with lib kw input None mw mh w0 = (inr (n, c), w2) /\
       (forall e w',
          try_body lib kw input input mw mh n w1 = (inl e, w') ->
          c = n /\ w2 = record (EvPrint (MsgImageError input e)) w') /\
       folder_loop (fun p => compress_with lib kw p None mw mh) report
         folder count i (name :: rest) (to, tc, pc) w =
       folder_loop (fun p => compress_with lib kw p None mw mh) report
         folder count (i + 1) rest (to + n, tc + c, pc + 1) w3).
  { intros kw report Hrep. rewrite folder_loop_cons. fold input w0.
    pose proof (compress_with_returns lib kw input None mw mh w0 n Hn0) as R.
    change (record (EvGetSize input) w0) with w1 in R.
    destruct (try_body lib kw input input mw mh n w1) as [[e|[a c]] w'] eqn:E.
    - rewrite R. cbv zeta.
      destruct (Hrep i count (to + n) (tc + n)
                  (record (EvPrint (if n >? 0 then MsgDone n n else MsgDonePlain))
                     (record (EvPrint (MsgImageError input e)) w'))) as [w3 ->].
      exists n, (record (EvPrint (MsgImageError input e)) w'), w3.
      split; [reflexivity|]. split; [|reflexivity].
      intros e0 w'0 [= <- <-]. auto.
    - destruct R as [R Ha]. cbn [fst] in Ha. subst a. rewrite R. cbv zeta.
      destruct (Hrep i count (to + n) (tc + c)
                  (record (EvPrint (if n >? 0 then MsgDone n c else MsgDonePlain)) w'))
        as [w3 ->].
      exists c, w', w3. split; [reflexivity|]. split; [|reflexivity].
      intros e0 w'0 [=]. }
  split.
  - apply (Hgen (standard_save_kwargs quality) (fun _ _ _ _ => ret tt)).
    intros; eexists; reflexivity.
  - apply (Hgen (ultra_save_kwargs quality true)).
    intros i0 c a b w'. destruct (i0 mod 100 =? 0); eexists; reflexivity.
Qed.


Lemma per_file_error_boundary_witness :
  exists (c : Z) (w2 w3 : world Demo.disk Demo.picture),
    compress_image Demo.lib "muffin/bad.jpg" None 600 600 60
      (record (EvPrint (MsgProcessing 2 3 "bad.jpg")) (Demo.start Demo.disk_mixed))
    = (inr (12, c), w2) /\
    (forall e w',
       try_body Demo.lib (standard_save_kwargs 60) "muffin/bad.jpg" "muffin/bad.jpg"
         600 600 12
         (record (EvGetSize "muffin/bad.jpg")
            (record (EvPrint (MsgProcessing 2 3 "bad.jpg")) (Demo.start Demo.disk_mixed)))
       = (inl e, w') ->
       c = 12 /\ w2 = record (EvPrint (MsgImageError "muffin/bad.jpg" e)) w') /\
    folder_loop
      (fun p => compress_image Demo.lib p None 600 600 60)
      (fun _ _ _ _ => ret tt) "muffin" 3 2 ["bad.jpg"; "la.jpeg"]%string (90000, 30000, 1)
      (Demo.start Demo.disk_mixed) =
    folder_loop
      (fun p => compress_image Demo.lib p None 600 600 60)
      (fun _ _ _ _ => ret tt) "muffin" 3 (2 + 1) ["la.jpeg"]%string
      (90000 + 12, 30000 + c, 1 + 1) w3.
Proof.
  exact (proj1 (per_file_error_boundary _ _ Demo.lib "muffin" "bad.jpg"
                  ["la.jpeg"]%string 600 600 60 3 2 (90000, 30000, 1)
                  (Demo.start Demo.disk_mixed) 12 eq_refl)).
Defined.

(** The claim as first stated fails: when the size of the input cannot be
    read (here a dangling link), the exception leaves [compress_image] and
    the folder run stops before the next file. *)
Lemma size_query_error_escapes :
  fst (compress_image Demo.lib "muffin/a.jpg" None 600 600 60
         (Demo.start Demo.disk_dangling))
    = inl (OSError "No such file or directory") /\
  fst (compress_image_ultra Demo.lib "muffin/a.jpg" None 400 400 40 true
         (Demo.start Demo.disk_dangling))
    = inl (OSError "No such file or directory") /\
  fst (compress_folder Demo.lib true "muffin" 600 600 60 (Demo.start Demo.disk_dangling))
    = inl (OSError "No such file or directory") /\
  processed_names
    (w_trace (snd (compress_folder Demo.lib true "muffin" 600 600 60
                     (Demo.start Demo.disk_dangling)))) = ["a.jpg"]%string /\
  jpg_files_of true (os_listdir Demo.lib "muffin" Demo.disk_dangling)
    = ["a.jpg"; "b.jpg"]%string.
Proof. repeat split; vm_compute; reflexivity. Qed.

(** ** The files [compress_folder] enumerates *)

Lemma endswith_lower (s suffix : string) :
  endswith s suffix = true -> endswith (lower s) (lower suffix) = true.
Proof.
  induction s as [|c r IH]; cbn [endswith lower]; intros H.
  - apply orb_true_iff in H as [H|H]; [|discriminate].
    apply String.eqb_eq in H. subst suffix. reflexivity.
  - apply orb_true_iff in H as [H|H].
    + apply String.eqb_eq in H. subst suffix. cbn [lower].
      now rewrite String.eqb_refl.
    + rewrite (IH H). apply orb_true_r.
Qed.

Lemma jpg_files_of_in (cs : bool) (names : list string) (f : string) :
  In f (jpg_files_of cs names) <->
  In f names /\
  ((if cs then endswith f ".jpg" else endswith (lower f) ".jpg") = true \/
   (if cs then endswith f ".jpeg" else endswith (lower f) ".jpeg") = true \/
   (if cs then endswith f ".JPG" else endswith (lower f) ".jpg") = true \/
   (if cs then endswith f ".JPEG" else endswith (lower f) ".jpeg") = true).
Proof.
  unfold jpg_files_of, glob_suffix. rewrite !in_app_iff, !filter_In.
  change (lower ".jpg") with ".jpg"%string. change (lower ".jpeg") with ".jpeg"%string.
  change (lower ".JPG") with ".jpg"%string. change (lower ".JPEG") with ".jpeg"%string.
  tauto.
Qed.

(** C4 (as amended).  [compress_folder] and [compress_folder_ultra]
    enumerate names of the folder that end in [.jpg] or [.jpeg] in some
    letter case, among them every name ending in exactly [.jpg], [.jpeg],
    [.JPG] or [.JPEG] (and, with case-sensitive matching, no other).  The
    files are processed in enumeration order, which is the order of the
    four patterns and not the order of the names. *)
Theorem folder_enumeration :
  (forall (cs : bool) (names : list string) (f : string),
     In f (jpg_files_of cs names) ->
     In f names /\
     (endswith (lower f) ".jpg" || endswith (lower f) ".jpeg" = true)) /\
  (forall (cs : bool) (names : list string) (f : string),
     In f names -> plain_suffix f -> In f (jpg_files_of cs names)) /\
  (forall (names : list string) (f : string),
     In f (jpg_files_of true names) <-> In f names /\ plain_suffix f) /\
  (forall (env image : Type) (lib : library env image) (cs : bool) (folder : string)
     (max_width max_height quality : Z) (w : world env image) (r : exn + Z * Z * Z)
     (w' : world env image),
     os_exists lib folder (w_env w) = true ->
     compress_folder lib cs folder max_width max_height quality w = (r, w') \/
     compress_folder_ultra lib cs folder max_width max_height quality w = (r, w') ->
     exists done,
       processed_names (w_trace w') = processed_names (w_trace w) ++ done /\
       done `prefix_of` jpg_files_of cs (os_listdir lib folder (w_env w)) /\
       (forall totals, r = inr totals ->
          done = jpg_files_of cs (os_listdir lib folder (w_env w)))).
Proof.
  split; [|split; [|split]].
  - intros cs names f Hin. apply jpg_files_of_in in Hin as [Hin Hs].
    split; [assumption|]. apply orb_true_iff.
    destruct cs.
    + destruct Hs as [Hs|[Hs|[Hs|Hs]]]; apply endswith_lower in Hs; auto.
    + tauto.
  - intros cs names f Hin Hs. apply jpg_files_of_in. split; [assumption|].
    destruct cs; [exact Hs|].
    destruct Hs as [Hs|[Hs|[Hs|Hs]]]; apply endswith_lower in Hs; auto.
  - intros names f. apply jpg_files_of_in.
  - intros env image lib cs folder mw mh quality w r w' Hex Hrun.
    assert (Hgen : forall one report,
              (forall p, quiet (one p)) -> (forall i c a b, quiet (report i c a b)) ->
              folder_driver lib cs one report folder w = (r, w') ->
              exists done,
                processed_names (w_trace w') = processed_names (w_trace w) ++ done /\
                done `prefix_of` jpg_files_of cs (os_listdir lib folder (w_env w)) /\
                (forall totals, r = inr totals ->
                   done = jpg_files_of cs (os_listdir lib folder (w_env w)))).
    { intros one report Hone Hrep E.
      destruct (folder_driver_order lib cs one report folder w Hone Hrep Hex)
        as (done & Ed & Hp & Hall).
      rewrite E in Ed, Hall. exists done. split; [exact Ed|]. split; [exact Hp|].
      intros totals ->. now apply (Hall totals). }
    destruct Hrun as [E|E]; apply Hgen in E; try assumption.
    + intros p. apply quiet_compress_with.
    + intros i c a b. apply quiet_ret.
    + intros p. apply quiet_compress_with.
    + intros i c a b w0. destruct (i mod 100 =? 0); [|reflexivity].
      unfold print. cbn [snd w_trace record]. rewrite processed_names_app. cbn.
      now rewrite app_nil_r.
Qed.

Lemma folder_enumeration_witness :
  In "la.jpeg"%string (jpg_files_of true ["c.jpg"; "bad.jpg"; "la.jpeg"]%string) /\
  exists done,
    processed_names
      (w_trace (snd (compress_folder Demo.lib true "muffin" 600 600 60
                       (Demo.start Demo.disk_mixed))))
    = processed_names (w_trace (Demo.start Demo.disk_mixed)) ++ done /\
    done `prefix_of` jpg_files_of true (os_listdir Demo.lib "muffin" Demo.disk_mixed) /\
    (forall totals,
       fst (compress_folder Demo.lib true "muffin" 600 600 60
              (Demo.start Demo.disk_mixed)) = inr totals ->
       done = jpg_files_of true (os_listdir Demo.lib "muffin" Demo.disk_mixed)).
Proof.
  split.
  - apply (proj1 (proj2 folder_enumeration) true).
    + vm_compute. tauto.
    + right. left. reflexivity.
  - apply (proj2 (proj2 (proj2 folder_enumeration)) _ _ Demo.lib true "muffin"%string
             600 600 60 (Demo.start Demo.disk_mixed)).
    + reflexivity.
    + left. apply surjective_pairing.
Defined.

(** The claim as first stated fails on a case-sensitive file system: of
    [b.jpg], [a.JPG], [c.Jpg] the last is not enumerated although its
    extension is a case variant of [.jpg], and [b.jpg] is processed before
    [a.JPG], which is not ascending order. *)
Lemma enumeration_not_case_insensitive_nor_sorted :
  processed_names
    (w_trace (snd (compress_folder Demo.lib true "muffin" 600 600 60
                     (Demo.start Demo.disk_case)))) = ["b.jpg"; "a.JPG"]%string /\
  endswith (lower "c.Jpg") ".jpg" = true /\
  String.ltb "a.JPG" "b.jpg" = true.
Proof. repeat split; vm_compute; reflexivity. Qed.

(** ** The mode conversion *)

(** What the mode check does: a conversion to RGB exactly for the modes
    [RGBA] and [P]. *)
Lemma ensure_rgb_spec {env image : Type} (lib : library env image)
    (img : image) (w : world env image) :
  ensure_rgb lib img w =
  if String.eqb (pil_mode lib img) "RGBA" || String.eqb (pil_mode lib img) "P"
  then (pil_convert lib img "RGB", record (EvConvert img "RGB") w)
  else (inr img, w).
Proof.
  unfold ensure_rgb, mode_in. cbn [existsb]. rewrite orb_false_r.
  destruct (_ || _); reflexivity.
Qed.

(** C6 fails on the code.  A grey picture with an alpha channel (mode
    [LA]) is not converted: the script hands it to the JPEG encoder as it
    is, and the file ends up skipped with an error. *)
Theorem alpha_mode_LA_not_converted :
  let la := {| Demo.pic_mode := "LA"; Demo.pic_size := (300, 300) |} in
  let t := w_trace (snd (compress_image Demo.lib "muffin/la.jpeg" None 600 600 60
                           (Demo.start Demo.disk_mixed))) in
  let t' := w_trace (snd (compress_image_ultra Demo.lib "muffin/la.jpeg" None 400 400 40
                            true (Demo.start Demo.disk_mixed))) in
  Pillow.mode_has_alpha "LA" = true /\
  pil_open Demo.lib "muffin/la.jpeg" Demo.disk_mixed = inr la /\
  conversions t = [] /\ saved_images t = [la] /\
  logged_errors t = [("muffin/la.jpeg"%string, OSError "cannot write mode as JPEG")] /\
  conversions t' = [] /\ saved_images t' = [la].
Proof. repeat split; vm_compute; reflexivity. Qed.

(** ** The options of the ultra variant *)

(** C5 fails on the code.  The ultra script saves with [subsampling=0],
    which Pillow reads as 4:4:4, the setting that keeps all chroma
    samples; 4:2:0 is the value 2.  Quality, optimisation and progressive
    encoding are as the claim says. *)
Theorem ultra_subsampling_is_444 :
  save_options
    (w_trace (snd (compress_folder_ultra Demo.lib true "muffin" 400 400 40
                     (Demo.start Demo.disk_mixed))))
    = [ultra_save_kwargs 40 true; ultra_save_kwargs 40 true] /\
  (forall quality progressive,
     sk_quality (ultra_save_kwargs quality progressive) = quality /\
     sk_optimize (ultra_save_kwargs quality progressive) = true /\
     sk_progressive (ultra_save_kwargs quality progressive) = Some progressive /\
     sk_subsampling (ultra_save_kwargs quality progressive) = Some 0) /\
  Pillow.subsampling_of 0 = Some Pillow.Chroma444 /\
  Pillow.subsampling_of 2 = Some Pillow.Chroma420 /\
  Pillow.chroma_samples Pillow.Chroma420 < Pillow.chroma_samples Pillow.Chroma444.
Proof.
  split; [vm_compute; reflexivity|].
  split; [intros; repeat split|]. repeat split.
Qed.

End ImagingFacts.

(** * Properties of the rename utility *)
Module RenameFacts.

Import Rename.

#[local] Arguments String.append !s1 s2 : simpl nomatch.

(** ** The order of names *)

Lemma str_le_alt (a b : string) :
  str_le a b <-> a = b \/ String_as_OT.lt a b.
Proof.
  unfold str_le, String.leb.
  destruct (String.compare a b) eqn:C.
  - apply String_as_OT.cmp_eq in C. subst. tauto.
  - apply String_as_OT.cmp_lt in C. tauto.
  - split; [discriminate|]. intros [->|L].
    + assert (String.compare b b = Eq) by now apply String_as_OT.cmp_eq.
      congruence.
    + apply String_as_OT.cmp_lt in L. unfold String_as_OT.cmp in L. congruence.
Qed.

#[global] Instance str_le_total : Total str_le.
Proof. intros a b. apply String.leb_total. Qed.

#[global] Instance str_le_trans : Transitive str_le.
Proof.
  intros a b c. rewrite !str_le_alt. intros [->|L1] [->|L2]; auto.
  right. eapply String_as_OT.lt_trans; eassumption.
Qed.

#[global] Instance str_le_antisym : AntiSymm (=) str_le.
Proof. intros a b. apply String.leb_antisym. Qed.

(** ** The candidate files *)







(** ** Strings *)

Lemma length_append (a b : string) :
  String.length (a ++ b) = (String.length a + String.length b)%nat.
Proof. induction a as [|c a IH]; simpl; [reflexivity|]. f_equal. exact IH. Qed.

Lemma append_assoc (a b c : string) : ((a ++ b) ++ c = a ++ (b ++ c))%string.
Proof. induction a; cbn; congruence. Qed.

Lemma append_nil_r (a : string) : (a ++ "" = a)%string.
Proof. induction a; cbn; congruence. Qed.

Lemma append_inv_head (p a b : string) : (p ++ a = p ++ b)%string -> a = b.
Proof. induction p; cbn; [auto|]. intros [= H]. auto. Qed.

Lemma append_inj_length (a b x y : string) :
  String.length a = String.length b -> (a ++ x = b ++ y)%string -> a = b /\ x = y.
Proof.
  revert b. induction a as [|c a IH]; intros [|c' b]; cbn; try discriminate.
  - auto.
  - intros [= Hl] [= -> H]. destruct (IH b Hl H) as [-> ->]. auto.
Qed.

(** ** Decimal numerals *)

Lemma digit_char_value (k : Z) : 0 <= k <= 9 -> digit_value (digit_char k) = k.
Proof.
  intros H. unfold digit_value, digit_char.
  rewrite nat_ascii_embedding by lia. lia.
Qed.

Lemma digit_char_is_digit (k : Z) : 0 <= k <= 9 -> is_digit (digit_char k) = true.
Proof.
  intros H. unfold is_digit, digit_char.
  rewrite nat_ascii_embedding by lia.
  apply andb_true_iff. split; apply Nat.leb_le; lia.
Qed.

Lemma all_digits_app (a b : string) :
  all_digits (a ++ b) = all_digits a && all_digits b.
Proof. induction a as [|c a IH]; cbn; [reflexivity|]. now rewrite IH, andb_assoc. Qed.

Lemma decimal_value_from_app (acc : Z) (a b : string) :
  decimal_value_from acc (a ++ b) = decimal_value_from (decimal_value_from acc a) b.
Proof. revert acc. induction a as [|c a IH]; intros acc; cbn; [reflexivity|]. apply IH. Qed.

(** [digits_fuel] with enough fuel writes the decimal numeral of [n]. *)
Lemma digits_fuel_spec (fuel : nat) : forall (n : Z) (acc : string),
  0 <= n < 10 ^ (Z.of_nat fuel + 1) ->
  exists ds,
    digits_fuel fuel n acc = (ds ++ acc)%string /\
    all_digits ds = true /\ decimal_value ds = n /\
    (1 <= String.length ds)%nat /\
    (0 < n -> 10 ^ (Z.of_nat (String.length ds) - 1) <= n
              < 10 ^ Z.of_nat (String.length ds)).
Proof.
  assert (Hone : forall n acc, 0 <= n < 10 ->
    exists ds, String (digit_char (n mod 10)) acc = (ds ++ acc)%string /\
      all_digits ds = true /\ decimal_value ds = n /\
      (1 <= String.length ds)%nat /\
      (0 < n -> 10 ^ (Z.of_nat (String.length ds) - 1) <= n
                < 10 ^ Z.of_nat (String.length ds))).
  { intros n acc Hn. exists (String (digit_char n) "").
    rewrite Z.mod_small by lia. cbn.
    rewrite digit_char_is_digit, digit_char_value by lia.
    repeat split; try reflexivity; lia. }
  induction fuel as [|fuel IH]; intros n acc Hn.
  - cbn [digits_fuel]. apply Hone. cbn in Hn. lia.
  - cbn [digits_fuel]. destruct (Z.ltb_spec n 10) as [L|L]; [apply Hone; lia|].
    assert (Hq : 0 <= n / 10 < 10 ^ (Z.of_nat fuel + 1)).
    { split; [apply Z.div_pos; lia|].
      apply Z.div_lt_upper_bound; [lia|].
      rewrite <- Z.pow_succ_r by lia.
      replace (Z.succ (Z.of_nat fuel + 1)) with (Z.of_nat (S fuel) + 1) by lia.
      lia. }
    destruct (IH (n / 10) (String (digit_char (n mod 10)) acc) Hq)
      as (ds & E & Hd & Hv & Hl & Hb).
    pose proof (Z.mod_pos_bound n 10 ltac:(lia)) as Hm.
    pose proof (Z.div_mod n 10 ltac:(lia)) as Hdm.
    exists (ds ++ String (digit_char (n mod 10)) "")%string.
    rewrite E, append_assoc. cbn [append]. split; [reflexivity|].
    rewrite all_digits_app, Hd. cbn [all_digits].
    rewrite digit_char_is_digit by lia. split; [reflexivity|].
    unfold decimal_value in *. rewrite decimal_value_from_app, Hv.
    cbn [decimal_value_from]. rewrite digit_char_value by lia.
    split; [lia|]. rewrite length_append. cbn [String.length].
    split; [lia|]. intros _.
    assert (0 < n / 10) by (apply Z.div_str_pos; lia).
    specialize (Hb H).
    replace (Z.of_nat (String.length ds + 1) - 1) with
      (Z.succ (Z.of_nat (String.length ds) - 1)) by lia.
    replace (Z.of_nat (String.length ds + 1)) with
      (Z.succ (Z.of_nat (String.length ds))) by lia.
    rewrite !Z.pow_succ_r by lia. lia.
Qed.

Lemma str_spec (n : Z) : 0 <= n ->
  all_digits (str n) = true /\ decimal_value (str n) = n /\
  (1 <= String.length (str n))%nat /\
  (0 < n -> 10 ^ (Z.of_nat (String.length (str n)) - 1) <= n
            < 10 ^ Z.of_nat (String.length (str n))).
Proof.
  intros Hn. unfold str. destruct (Z.ltb_spec n 0) as [|_]; [lia|].
  assert (Hf : 0 <= n < 10 ^ (Z.of_nat (Z.to_nat (Z.log2 n)) + 1)).
  { split; [assumption|]. pose proof (Z.log2_nonneg n). rewrite Z2Nat.id by assumption.
    destruct (Z.eq_dec n 0) as [->|]; [reflexivity|].
    pose proof (Z.log2_spec n ltac:(lia)) as [_ U].
    apply Z.lt_le_trans with (2 ^ Z.succ (Z.log2 n)); [assumption|].
    replace (Z.succ (Z.log2 n)) with (Z.log2 n + 1) by lia.
    apply Z.pow_le_mono_l. lia. }
  destruct (digits_fuel_spec _ n "" Hf) as (ds & E & Hd & Hv & Hl & Hb).
  rewrite E, append_nil_r. auto.
Qed.

(** The padding width is the number of decimal digits of the count. *)
Lemma digits_of_spec (total : Z) : 0 < total ->
  1 <= digits_of total /\
  10 ^ (digits_of total - 1) <= total < 10 ^ digits_of total.
Proof.
  intros H. destruct (str_spec total ltac:(lia)) as (_ & _ & Hl & Hb).
  unfold digits_of. split; [lia|]. now apply Hb.
Qed.

Lemma zeros_spec (k : nat) :
  String.length (zeros k) = k /\ all_digits (zeros k) = true /\
  forall s, decimal_value (zeros k ++ s) = decimal_value s.
Proof.
  induction k as [|k (Hl & Hd & Hv)]; cbn; [auto|].
  split; [congruence|]. split; [assumption|].
  intros s. apply (Hv s).
Qed.

(** [str(idx).zfill(width)] is the numeral of [idx] on exactly [width]
    digits, when [idx] has at most that many. *)
Lemma zfill_str_spec (idx width : Z) : 0 < idx < 10 ^ width ->
  Z.of_nat (String.length (zfill (str idx) width)) = width /\
  all_digits (zfill (str idx) width) = true /\
  decimal_value (zfill (str idx) width) = idx.
Proof.
  intros Hi.
  assert (Hw : 0 <= width).
  { destruct (Z.lt_ge_cases width 0) as [C|]; [|assumption].
    rewrite Z.pow_neg_r in Hi by assumption. lia. }
  destruct (str_spec idx ltac:(lia)) as (Hd & Hv & Hl & Hb).
  specialize (Hb ltac:(lia)).
  assert (Hlen : Z.of_nat (String.length (str idx)) <= width).
  { destruct (Z.le_gt_cases (Z.of_nat (String.length (str idx))) width) as [|C];
      [assumption|exfalso].
    assert (10 ^ width <= 10 ^ (Z.of_nat (String.length (str idx)) - 1))
      by (apply Z.pow_le_mono_r; lia).
    lia. }
  unfold zfill. destruct (str idx) as [|c r] eqn:E; [cbn in Hl; lia|].
  assert (Hc : Ascii.eqb c "+" || Ascii.eqb c "-" = false).
  { cbn [all_digits] in Hd. apply andb_true_iff in Hd as [Hc _].
    unfold is_digit in Hc. apply andb_true_iff in Hc as [H1 H2].
    apply Nat.leb_le in H1, H2.
    apply orb_false_iff. split; apply Ascii.eqb_neq; intros ->;
      change (nat_of_ascii "+") with 43%nat in H1;
      change (nat_of_ascii "-") with 45%nat in H1; lia. }
  rewrite Hc.
  destruct (zeros_spec (Z.to_nat width - String.length (String c r))) as (Zl & Zd & Zv).
  rewrite length_append, Zl, all_digits_app, Zd, Hd, Zv, Hv.
  repeat split; lia.
Qed.

(** ** The plan *)




Lemma plan_from_elem prefix digits : forall files idx src dst,
  (src, dst) ∈ plan_from prefix digits idx files ->
  src ∈ files /\
  exists k, idx <= k < idx + Z.of_nat (List.length files) /\
            dst = new_name prefix digits k src.
Proof.
  induction files as [|f r IH]; intros idx src dst H; cbn in H.
  - now apply elem_of_nil in H.
  - apply elem_of_cons in H as [[= -> ->]|H].
    + split; [left|]. exists idx. split; [cbn [List.length]; lia | reflexivity].
    + apply IH in H as (Hin & k & Hk & ->). split; [now right|].
      exists k. split; [cbn [List.length]; lia | reflexivity].
Qed.

(** Two targets with different numbers differ. *)
Lemma new_name_inj prefix digits (i j : Z) (f g : string) :
  0 < i < 10 ^ digits -> 0 < j < 10 ^ digits ->
  new_name prefix digits i f = new_name prefix digits j g -> i = j.
Proof.
  intros Hi Hj. unfold new_name. intros H. apply append_inv_head in H.
  destruct (zfill_str_spec i digits Hi) as (Li & _ & Vi).
  destruct (zfill_str_spec j digits Hj) as (Lj & _ & Vj).
  apply append_inj_length in H as [H _]; [|lia].
  rewrite <- Vi, <- Vj. now rewrite H.
Qed.

Lemma plan_from_targets_NoDup prefix digits : forall files idx,
  0 < idx -> idx + Z.of_nat (List.length files) <= 10 ^ digits ->
  NoDup (plan_from prefix digits idx files).*2.
Proof.
  induction files as [|f r IH]; intros idx H0 H1; cbn; [constructor|].
  cbn [List.length] in H1. constructor.
  - intros Hin. apply list_elem_of_fmap in Hin as [[s t] [E Hin]]. cbn in E. subst t.
    apply plan_from_elem in Hin as (_ & k & Hk & E).
    apply new_name_inj in E; lia.
  - apply IH; lia.
Qed.

Lemma plan_targets_NoDup (d : gmap string entry) (prefix : string) :
  NoDup (plan d prefix).*2.
Proof.
  unfold plan. set (files := sorted_files d).
  destruct files as [|f r] eqn:E; [constructor|].
  rewrite <- E. apply plan_from_targets_NoDup; [lia|].
  destruct (digits_of_spec (Z.of_nat (List.length files))) as (_ & _ & U);
    [rewrite E; cbn [List.length]; lia | lia].
Qed.

(** ** One step of the loop *)







(** ** A run without pre-existing collisions *)





(** ** The rename plan *)



(** ** The collision policy *)



(** The run on that folder: the first file is skipped with a warning,
    the second moved, the third left alone. *)
Example run_with_taken_target :
  snd (main (Some Demo.photos_taken) "dog_") =
    [OutSkipExists "dog_1.jpg"; OutRenamed "dog_1.jpg" "dog_2.jpg"; OutAllDone].
Proof. vm_compute. reflexivity. Qed.

(** ** Running the utility twice *)

(** C7 fails on the code.  A photo named just [.jpg] passes the filter
    but [os.path.splitext] gives it no extension, so the first run (which
    meets no collision) renames it to [dog_1]; the second run then sees
    one photo only and renames [dog_2.jpg] to [dog_1.jpg]. *)
Theorem second_run_changes_folder :
  let run1 := main (Some Demo.photos_dot) "dog_" in
  let run2 := main (snd (fst run1)) "dog_" in
  is_jpeg_name ".jpg" = true /\
  splitext ".jpg" = (".jpg", "")%string /\
  fst (fst run1) = Completed /\
  snd run1 = [OutRenamed ".jpg" "dog_1"; OutRenamed "z.jpg" "dog_2.jpg"; OutAllDone] /\
  no_warning (snd run1) = true /\
  snd run2 = [OutRenamed "dog_2.jpg" "dog_1.jpg"; OutAllDone] /\
  (snd (fst run1) ≫= (fun d => d !! "dog_2.jpg"%string)) = Some (RegularFile 2) /\
  (snd (fst run2) ≫= (fun d => d !! "dog_2.jpg"%string)) = None /\
  (snd (fst run2) ≫= (fun d => d !! "dog_1.jpg"%string)) = Some (RegularFile 2).
Proof. repeat split; vm_compute; reflexivity. Qed.

End RenameFacts.

(** * Running the rename utility twice

    Outside the case that breaks it (a matching file without an extension
    in the sense of [os.path.splitext]), a second run finds every file
    already named as computed. *)
Module RenameTwice.

Import Rename RenameFacts.

#[local] Arguments String.append !s1 s2 : simpl nomatch.

(** ** Lexicographic comparison of numerals *)

Lemma ascii_compare_refl (c : ascii) : Ascii.compare c c = Eq.
Proof. unfold Ascii.compare. apply N.compare_refl. Qed.

Lemma compare_app_head (p a b : string) :
  String.compare (p ++ a) (p ++ b) = String.compare a b.
Proof.
  induction p as [|c p IH]; simpl; [reflexivity|].
  now rewrite ascii_compare_refl.
Qed.

Lemma compare_app_lt : forall (a b x y : string),
  String.length a = String.length b ->
  String.compare a b = Lt -> String.compare (a ++ x) (b ++ y) = Lt.
Proof.
  induction a as [|c a IH]; intros [|c' b] x y Hl; simpl in *; try discriminate.
  destruct (Ascii.compare c c'); try discriminate; [|reflexivity].
  intros H. apply IH; [lia | assumption].
Qed.

Lemma decimal_value_from_shift : forall (s : string) (acc : Z),
  decimal_value_from acc s = acc * 10 ^ Z.of_nat (String.length s) + decimal_value s.
Proof.
  unfold decimal_value.
  induction s as [|c s IH]; intros acc; cbn [decimal_value_from String.length].
  - cbn. lia.
  - rewrite IH, (IH (10 * 0 + digit_value c)).
    rewrite Nat2Z.inj_succ, Z.pow_succ_r by lia. lia.
Qed.

Lemma is_digit_value (c : ascii) : is_digit c = true -> 0 <= digit_value c <= 9.
Proof.
  unfold is_digit, digit_value. intros H. apply andb_true_iff in H as [H1 H2].
  apply Nat.leb_le in H1, H2. lia.
Qed.

Lemma decimal_value_bound : forall s : string,
  all_digits s = true -> 0 <= decimal_value s < 10 ^ Z.of_nat (String.length s).
Proof.
  induction s as [|c s IH]; cbn [all_digits String.length]; intros H.
  - cbn. lia.
  - apply andb_true_iff in H as [Hc Hs]. specialize (IH Hs).
    apply is_digit_value in Hc.
    unfold decimal_value in *. cbn [decimal_value_from].
    rewrite decimal_value_from_shift. fold (decimal_value s).
    unfold decimal_value. rewrite Nat2Z.inj_succ, Z.pow_succ_r by lia. nia.
Qed.

Lemma ascii_compare_digit (c c' : ascii) :
  match Ascii.compare c c' with
  | Eq => c = c'
  | Lt => digit_value c < digit_value c'
  | Gt => digit_value c' < digit_value c
  end.
Proof.
  destruct (Ascii.compare c c') eqn:E.
  - now apply Ascii.compare_eq_iff.
  - unfold Ascii.compare in E. apply N.compare_lt_iff in E.
    unfold digit_value, nat_of_ascii. rewrite !N_nat_Z. apply N2Z.inj_lt in E. lia.
  - unfold Ascii.compare in E. apply N.compare_gt_iff in E.
    unfold digit_value, nat_of_ascii. rewrite !N_nat_Z. apply N2Z.inj_lt in E. lia.
Qed.

(** Numerals of one length compare as their values do. *)
Lemma numeral_order : forall a b : string,
  String.length a = String.length b ->
  all_digits a = true -> all_digits b = true ->
  decimal_value a < decimal_value b -> String.compare a b = Lt.
Proof.
  induction a as [|c a IH]; intros [|c' b] Hl Ha Hb Hv;
    cbn [String.length] in Hl; try discriminate.
  cbn [all_digits] in Ha, Hb.
  apply andb_true_iff in Ha as [Hc Ha]. apply andb_true_iff in Hb as [Hc' Hb].
  pose proof (decimal_value_bound a Ha) as Ba.
  pose proof (decimal_value_bound b Hb) as Bb.
  apply is_digit_value in Hc, Hc'.
  unfold decimal_value in Hv. cbn [decimal_value_from] in Hv.
  rewrite !decimal_value_from_shift in Hv.
  fold (decimal_value a) in Hv. fold (decimal_value b) in Hv.
  assert (El : Z.of_nat (String.length a) = Z.of_nat (String.length b)) by lia.
  rewrite El in *.
  assert (0 < 10 ^ Z.of_nat (String.length b)) by (apply Z.pow_pos_nonneg; lia).
  simpl. pose proof (ascii_compare_digit c c') as D.
  destruct (Ascii.compare c c').
  + subst c'. apply IH; [lia | assumption | assumption | lia].
  + reflexivity.
  + exfalso. nia.
Qed.

Lemma target_order prefix digits (i j : Z) (f g : string) :
  0 < i -> i < j -> j < 10 ^ digits ->
  str_le (new_name prefix digits i f) (new_name prefix digits j g).
Proof.
  intros Hi Hij Hj. unfold str_le, String.leb, new_name.
  destruct (zfill_str_spec i digits ltac:(lia)) as (Li & Di & Vi).
  destruct (zfill_str_spec j digits ltac:(lia)) as (Lj & Dj & Vj).
  rewrite compare_app_head, compare_app_lt; [reflexivity | lia |].
  apply numeral_order; [lia | assumption | assumption | lia].
Qed.

Lemma targets_sorted prefix digits : forall files idx,
  0 < idx -> idx + Z.of_nat (List.length files) <= 10 ^ digits ->
  StronglySorted str_le (plan_from prefix digits idx files).*2.
Proof.
  induction files as [|f r IH]; intros idx H0 H1; cbn; [constructor|].
  cbn [List.length] in H1. constructor; [apply IH; lia|].
  apply Forall_forall. intros t Ht.
  apply list_elem_of_fmap in Ht as [[s t'] [E Hin]]. cbn in E. subst t'.
  apply plan_from_elem in Hin as (_ & k & Hk & ->).
  apply target_order; lia.
Qed.

(** ** The extension of a target *)




Lemma free_of_app (c : ascii) (a b : string) :
  free_of c (a ++ b) = free_of c a && free_of c b.
Proof. induction a as [|x a IH]; simpl; [reflexivity|]. now rewrite IH, andb_assoc. Qed.












(** ** What a run without warning leaves behind *)








End RenameTwice.

(** * Rounding between two doubles

    A double below (above) a rational stays below (above) its rounding,
    whatever the signs. *)
Module RoundFacts.

Import Report FloatFacts.

#[local] Open Scope Q_scope.

Lemma Qopp_opp (x : Q) : Qopp (Qopp x) = x.
Proof. destruct x as [n d]. unfold Qopp. cbn. now rewrite Z.opp_involutive. Qed.

Lemma round_ne_opp (x : Q) : round_ne (- x) = fneg (round_ne x).
Proof.
  destruct x as [n d]. unfold round_ne. cbn [Qopp Qnum Qden].
  destruct n as [|n|n]; unfold Z.opp; [reflexivity | |].
  - destruct (round_pos _ _); reflexivity.
  - destruct (round_pos _ _); cbn [fneg negb]; [|reflexivity]. now rewrite Qopp_opp.
Qed.

Lemma representable_opp (y : Q) : representable y -> representable (- y).
Proof.
  intros (M & E & HM & HE & Hb & Hy). exists (- M)%Z, E.
  rewrite Z.abs_opp. repeat split; try assumption.
  rewrite Hy, inject_Z_opp. ring.
Qed.

Lemma int_below_overflow (k : Z) : (Z.abs k < 2 ^ 53)%Z ->
  0 <= inject_Z (Z.abs k) /\ inject_Z (Z.abs k) < 2 ^ emax.
Proof.
  intros Hk. split; [change 0 with (inject_Z 0); rewrite <- Zle_Qle; lia|].
  rewrite <- (pow2_inject emax) by (unfold emax; lia). rewrite <- Zlt_Qlt.
  apply Z.lt_trans with (2 ^ 53)%Z; [assumption|].
  apply Z.pow_lt_mono_r; unfold emax; lia.
Qed.

Lemma representable_scaled (k e : Z) :
  (Z.abs k < 2 ^ 53)%Z -> (emin <= e <= 0)%Z -> representable (inject_Z k * 2 ^ e).
Proof.
  intros Hk He. exists k, e. split; [assumption|]. split; [lia|].
  split; [|reflexivity].
  destruct (int_below_overflow k Hk) as [A B].
  pose proof (pow2_pos e) as P.
  assert (L : 2 ^ e <= 1) by (change 1 with (2 ^ 0); apply pow2_le; lia).
  apply Qle_lt_trans with (inject_Z (Z.abs k)); [nra | assumption].
Qed.

Lemma representable_Z (k : Z) : (Z.abs k < 2 ^ 53)%Z -> representable (inject_Z k).
Proof.
  intros Hk. destruct (representable_scaled k 0 Hk) as (M & E & H1 & H2 & H3 & H4).
  { unfold emin, emax, prec. lia. }
  exists M, E. repeat split; try assumption. rewrite <- H4. cbn. ring.
Qed.

Lemma pow2_lt (a b : Z) : (a < b)%Z -> 2 ^ a < 2 ^ b.
Proof.
  intros H. pose proof (pow2_le (a + 1) b ltac:(lia)) as L.
  pose proof (pow2_add a 1) as E. pose proof (pow2_pos a) as P.
  assert (T : 2 ^ 1 == 2) by reflexivity. rewrite E, T in L. lra.
Qed.

Lemma representable_pow2 (e : Z) : (emin <= e < emax)%Z -> representable (2 ^ e).
Proof.
  intros He. exists 1%Z, e. split; [reflexivity|]. split; [lia|].
  cbn [Z.abs]. split; [|ring].
  assert (E : inject_Z 1 * 2 ^ e == 2 ^ e) by ring. rewrite E.
  apply pow2_lt. lia.
Qed.

Lemma representable_pos (y : Q) : representable y -> 0 < y ->
  exists M E : Z, (0 < M < 2 ^ 53)%Z /\ (emin <= E)%Z /\
                  inject_Z M * 2 ^ E < 2 ^ emax /\ y == inject_Z M * 2 ^ E.
Proof.
  intros (M & E & HM & HE & Hb & Hy) Hpos. exists M, E.
  assert (P : 0 < 2 ^ E) by apply pow2_pos.
  assert (PM : (0 < M)%Z).
  { destruct (Z.lt_ge_cases 0 M) as [|C]; [assumption|exfalso].
    assert (inject_Z M <= 0) by (change 0 with (inject_Z 0); rewrite <- Zle_Qle; lia).
    rewrite Hy in Hpos. nra. }
  rewrite Z.abs_eq in HM, Hb by lia. repeat split; try assumption; lia.
Qed.

(** Rounding a positive rational. *)
Lemma round_ne_between_pos (x lo hi : Q) :
  0 < x -> representable lo -> representable hi -> lo <= x -> x <= hi ->
  exists v, round_ne x = Finite v /\ lo <= v /\ v <= hi /\ 0 <= v.
Proof.
  intros Hx Rlo Rhi Hlo Hhi.
  destruct (representable_pos hi Rhi ltac:(lra)) as (M & E & HM & HE & Hb & Hy).
  assert (Hxh : x <= inject_Z M * 2 ^ E) by (rewrite <- Hy; exact Hhi).
  destruct (round_ne_le_repr x M E Hx ltac:(lia) HE Hb Hxh) as (v & Hv & Hle).
  rewrite <- Hy in Hle.
  assert (H0 : 0 <= v).
  { assert (Z0 : inject_Z 0 * 2 ^ 0 <= x)
      by (rewrite int_barrier_eq; change (inject_Z 0) with 0; lra).
    pose proof (round_ne_ge_repr x 0 0 v Hx ltac:(lia)
                  ltac:(unfold emin, emax, prec; lia) Z0 Hv) as G.
    rewrite int_barrier_eq in G. exact G. }
  exists v. split; [assumption|]. split; [|split; assumption].
  destruct (Qlt_le_dec 0 lo) as [Pl|Nl]; [|lra].
  destruct (representable_pos lo Rlo Pl) as (M' & E' & HM' & HE' & _ & Hy').
  assert (Hxl : inject_Z M' * 2 ^ E' <= x) by (rewrite <- Hy'; exact Hlo).
  pose proof (round_ne_ge_repr x M' E' v Hx ltac:(lia) HE' Hxl Hv) as G.
  rewrite <- Hy' in G. exact G.
Qed.

(** Rounding never crosses a double. *)
Lemma round_ne_between (x lo hi : Q) :
  representable lo -> representable hi -> lo <= x -> x <= hi ->
  exists v, round_ne x = Finite v /\ lo <= v /\ v <= hi.
Proof.
  intros Rlo Rhi Hlo Hhi.
  destruct (Q_dec x 0) as [[Neg|Pos]|Zero].
  - destruct (round_ne_between_pos (- x) (- hi) (- lo)) as (v & Hv & L & U & _);
      [lra | now apply representable_opp | now apply representable_opp | lra | lra |].
    rewrite round_ne_opp in Hv. destruct (round_ne x) as [w| |]; try discriminate.
    cbn in Hv. injection Hv as Hv. exists w. split; [reflexivity|].
    assert (Ew : w == - v) by (rewrite <- Hv; ring). lra.
  - destruct (round_ne_between_pos x lo hi) as (v & Hv & L & U & _); try assumption.
    exists v. auto.
  - assert (N : Qnum x = 0%Z).
    { destruct x as [n d]. unfold Qeq in Zero. cbn in Zero. cbn. lia. }
    exists 0. unfold round_ne. rewrite N. split; [reflexivity|]. lra.
Qed.

(** Exact results are returned as they are. *)
Lemma round_ne_exact (x : Q) : representable x ->
  exists v, round_ne x = Finite v /\ v == x.
Proof.
  intros R. destruct (round_ne_between x x x R R) as (v & Hv & L & U); try lra.
  exists v. split; [assumption | lra].
Qed.

Lemma truediv_between (a b : Z) (lo hi : Q) :
  (0 < b)%Z -> representable lo -> representable hi ->
  lo <= inject_Z a / inject_Z b -> inject_Z a / inject_Z b <= hi ->
  exists v, truediv a b = inr (Finite v) /\ lo <= v /\ v <= hi.
Proof.
  intros Hb Rlo Rhi Hlo Hhi. unfold truediv.
  destruct (Z.eqb_spec b 0) as [|_]; [lia|].
  pose proof (ratio_as_Q a b Hb) as E.
  destruct (round_ne_between (a * Z.sgn b # Z.to_pos (Z.abs b)) lo hi Rlo Rhi)
    as (v & Hv & L & U); [rewrite E; exact Hlo | rewrite E; exact Hhi |].
  rewrite Hv. exists v. auto.
Qed.

Lemma of_int_between (a : Z) : (Z.abs a < 2 ^ 53)%Z ->
  exists v, of_int a = inr (Finite v) /\ v == inject_Z a.
Proof.
  intros Ha. unfold of_int.
  destruct (round_ne_exact (inject_Z a) (representable_Z a Ha)) as (v & Hv & E).
  rewrite Hv. exists v. auto.
Qed.

End RoundFacts.

(** * The size and percentage figures *)
Module ReportFacts.

Import Report FloatFacts RoundFacts Rename RenameFacts.

#[local] Arguments String.append !s1 s2 : simpl nomatch.

(** ** Rounding to a digit depends on the value only *)

Lemma rhe_scale (n d k : Z) : 0 < d -> 0 < k ->
  round_half_even (n * k) (d * k) = round_half_even n d.
Proof.
  intros Hd Hk. unfold round_half_even.
  rewrite Z.div_mul_cancel_r, Z.mul_mod_distr_r by lia.
  replace (2 * (n mod d * k)) with (2 * (n mod d) * k) by ring.
  destruct (Z.compare_spec (2 * (n mod d)) d);
    destruct (Z.compare_spec (2 * (n mod d) * k) (d * k)); try reflexivity; nia.
Qed.

Lemma rhe_ratio (n d n' d' : Z) : 0 < d -> 0 < d' -> n * d' = n' * d ->
  round_half_even n d = round_half_even n' d'.
Proof.
  intros Hd Hd' E.
  rewrite <- (rhe_scale n d d'), <- (rhe_scale n' d' d) by assumption.
  rewrite E. f_equal. ring.
Qed.

(** The text of a positive double whose value is [n/d]. *)
Lemma format_fixed1_pos (v : Q) (n d : Z) :
  0 < n -> 0 < d -> (v == inject_Z n / inject_Z d)%Q ->
  let t := round_half_even (n * 10) d in
  format_fixed1 (Finite v) =
  (str (t / 10) ++ "." ++ String (digit_char (t mod 10)) "")%string.
Proof.
  intros Hn Hd E t.
  destruct d as [|dp|dp]; try lia.
  rewrite <- Qmake_Qdiv in E. unfold Qeq in E. cbn [Qnum Qden] in E.
  assert (Pv : 0 < Qnum v) by nia.
  unfold format_fixed1, is_neg.
  destruct (Z.ltb_spec (Qnum v) 0) as [|_]; [lia|].
  rewrite Z.abs_eq by lia. cbn [String.append].
  rewrite (rhe_ratio (Qnum v * 10) (QDen v) (n * 10) (Z.pos dp)) by lia.
  reflexivity.
Qed.

(** Division of a size by a power of two loses nothing. *)
Lemma truediv_pow2_exact (size k : Z) :
  0 < size < 2 ^ 53 -> 0 <= k <= 64 ->
  exists v, truediv size (2 ^ k) = inr (Finite v) /\
            (v == inject_Z size / inject_Z (2 ^ k))%Q.
Proof.
  intros Hs Hk.
  assert (P : 0 < 2 ^ k) by (apply Z.pow_pos_nonneg; lia).
  assert (E : (inject_Z size / inject_Z (2 ^ k) == inject_Z size * 2 ^ (- k))%Q).
  { rewrite (pow2_inject k) by lia. rewrite Qpower_opp.
    unfold Qdiv. reflexivity. }
  assert (R : representable (inject_Z size * 2 ^ (- k))%Q).
  { apply representable_scaled; [lia | unfold emin, emax, prec; lia]. }
  destruct (truediv_between size (2 ^ k) _ _ P R R) as (v & Hv & L & U);
    [rewrite E; apply Qle_refl | rewrite E; apply Qle_refl |].
  exists v. split; [assumption|]. rewrite E. lra.
Qed.

Lemma format_size_scaled (size k : Z) (unit : string) :
  0 < size < 2 ^ 53 -> 0 <= k <= 64 ->
  let t := round_half_even (size * 10) (2 ^ k) in
  bind_exn (truediv size (2 ^ k)) (fun x => inr (format_fixed1 x ++ unit)%string) =
  inr ((str (t / 10) ++ "." ++ String (digit_char (t mod 10)) "") ++ unit)%string.
Proof.
  intros Hs Hk t. destruct (truediv_pow2_exact size k Hs Hk) as (v & Hv & E).
  rewrite Hv. cbn [bind_exn].
  rewrite (format_fixed1_pos v size (2 ^ k)); [reflexivity | lia | | exact E].
  apply Z.pow_pos_nonneg; lia.
Qed.

(** ** [format_size] *)

(** X1.  Below 1024, and for every negative amount, the integer itself is
    printed, followed by [B]. *)
Theorem format_size_bytes (size_bytes : Z) :
  size_bytes < 1024 ->
  exists digits : string,
    format_size size_bytes =
      inr (((if (size_bytes <? 0)%Z then "-" else "") ++ digits) ++ " B")%string /\
    all_digits digits = true /\
    decimal_value digits = Z.abs size_bytes.
Proof.
  intros H. unfold format_size. destruct (Z.ltb_spec size_bytes 1024) as [_|]; [|lia].
  destruct (Z.ltb_spec size_bytes 0) as [Neg|Pos].
  - exists (str (- size_bytes)).
    destruct (str_spec (- size_bytes) ltac:(lia)) as (Hd & Hv & _).
    split; [|split; [assumption | lia]].
    unfold str. destruct (Z.ltb_spec size_bytes 0) as [_|]; [|lia].
    destruct (Z.ltb_spec (- size_bytes) 0) as [|_]; [lia|]. reflexivity.
  - exists (str size_bytes).
    destruct (str_spec size_bytes Pos) as (Hd & Hv & _).
    split; [reflexivity|]. split; [assumption | lia].
Qed.

Lemma format_size_bytes_witness :
  exists digits : string,
    format_size (-5000000) = inr (("-" ++ digits) ++ " B")%string /\
    all_digits digits = true /\ decimal_value digits = 5000000.
Proof. apply (format_size_bytes (-5000000)). lia. Defined.

(** X2.  From 1024 up to [1024 * 1024 - 1] the figure is the exact quotient by
    1024 rounded to one decimal, ties to even: between [1.0] and
    [1024.0], followed by [KB]. *)
Theorem format_size_kilobytes (size_bytes : Z) :
  1024 <= size_bytes < 1024 * 1024 ->
  let t := round_half_even (size_bytes * 10) 1024 in
  format_size size_bytes =
    inr ((str (t / 10) ++ "." ++ String (digit_char (t mod 10)) "") ++ " KB")%string /\
  10 <= t <= 10240 /\
  2 * Z.abs (t * 1024 - size_bytes * 10) <= 1024.
Proof.
  intros H t. split; [|split].
  - unfold format_size. destruct (Z.ltb_spec size_bytes 1024) as [|_]; [lia|].
    destruct (Z.ltb_spec size_bytes (1024 * 1024)) as [_|]; [|lia].
    apply (format_size_scaled size_bytes 10 " KB"); lia.
  - split; [apply rhe_lower | apply rhe_upper]; lia.
  - apply rhe_error. lia.
Qed.

Lemma format_size_kilobytes_witness :
  format_size 1048575 = inr "1024.0 KB"%string /\
  10 <= 10240 <= 10240 /\
  2 * Z.abs (10240 * 1024 - 1048575 * 10) <= 1024.
Proof. apply (format_size_kilobytes 1048575). lia. Defined.

(** X3.  From [1024 * 1024] on, as long as the size is below [2^53], the
    figure is the exact quotient by [1024 * 1024] rounded to one decimal,
    at least [1.0], followed by [MB]. *)
Theorem format_size_megabytes (size_bytes : Z) :
  1024 * 1024 <= size_bytes < 2 ^ 53 ->
  let t := round_half_even (size_bytes * 10) (1024 * 1024) in
  format_size size_bytes =
    inr ((str (t / 10) ++ "." ++ String (digit_char (t mod 10)) "") ++ " MB")%string /\
  10 <= t /\
  2 * Z.abs (t * (1024 * 1024) - size_bytes * 10) <= 1024 * 1024.
Proof.
  intros H t. split; [|split].
  - unfold format_size. destruct (Z.ltb_spec size_bytes 1024) as [|_]; [lia|].
    destruct (Z.ltb_spec size_bytes (1024 * 1024)) as [|_]; [lia|].
    apply (format_size_scaled size_bytes 20 " MB"); lia.
  - apply rhe_lower; lia.
  - apply rhe_error. lia.
Qed.

Lemma format_size_megabytes_witness :
  format_size 5000000 = inr "4.8 MB"%string /\
  10 <= 48 /\
  2 * Z.abs (48 * (1024 * 1024) - 5000000 * 10) <= 1024 * 1024.
Proof. apply (format_size_megabytes 5000000). lia. Defined.

(** ** The percentage *)

Lemma of_int_1 : exists v, of_int 1 = inr (Finite v) /\ (v == 1)%Q.
Proof. apply (of_int_between 1). reflexivity. Qed.

Lemma of_int_100 : exists v, of_int 100 = inr (Finite v) /\ (v == 100)%Q.
Proof. apply (of_int_between 100). reflexivity. Qed.

(** The three roundings of [(1 - c / o) * 100], each between two doubles. *)
Lemma ratio_chain (o c : Z) (lo hi lo2 hi2 lo3 hi3 : Q) :
  0 < o ->
  representable lo -> representable hi ->
  representable lo2 -> representable hi2 ->
  representable lo3 -> representable hi3 ->
  (lo <= inject_Z c / inject_Z o)%Q -> (inject_Z c / inject_Z o <= hi)%Q ->
  (lo2 <= 1 - hi)%Q -> (1 - lo <= hi2)%Q ->
  (lo3 <= lo2 * 100)%Q -> (hi2 * 100 <= hi3)%Q ->
  exists r, compression_ratio o c = inr (Finite r) /\ (lo3 <= r)%Q /\ (r <= hi3)%Q.
Proof.
  intros Ho Rlo Rhi Rlo2 Rhi2 Rlo3 Rhi3 L1 U1 L2 U2 L3 U3.
  unfold compression_ratio, sub_int_float, mul_float_int.
  destruct (truediv_between c o lo hi Ho Rlo Rhi L1 U1) as (v & Hv & Lv & Uv).
  rewrite Hv. cbn [bind_exn].
  destruct of_int_1 as (v1 & E1 & V1). rewrite E1. cbn [bind_exn fsub].
  destruct (round_ne_between (v1 - v) lo2 hi2 Rlo2 Rhi2) as (w & Hw & Lw & Uw);
    [lra | lra |].
  rewrite Hw.
  destruct of_int_100 as (v100 & E100 & V100). rewrite E100. cbn [bind_exn fmul].
  destruct (round_ne_between (w * v100) lo3 hi3 Rlo3 Rhi3) as (r & Hr & Lr & Ur);
    [rewrite V100; lra | rewrite V100; lra |].
  rewrite Hr. exists r. auto.
Qed.

Lemma inv_size_bound (o : Z) : 0 < o < 2 ^ 52 ->
  (2 ^ (-52) <= 1 / inject_Z o)%Q.
Proof.
  intros H.
  assert (P : (0 < inject_Z o)%Q) by (apply inject_Z_pos; lia).
  assert (U : (inject_Z o <= 2 ^ 52)%Q).
  { rewrite <- (pow2_inject 52) by lia. rewrite <- Zle_Qle. lia. }
  assert (E : (2 ^ (-52) == 1 / 2 ^ 52)%Q) by reflexivity.
  rewrite E. apply Qle_shift_div_l; [assumption|].
  assert (E2 : (1 / 2 ^ 52 * inject_Z o == inject_Z o / 2 ^ 52)%Q) by (field; discriminate).
  rewrite E2. apply Qle_shift_div_r; [reflexivity | lra].
Qed.

Lemma ratio_split (o c : Z) : 0 < o ->
  (inject_Z c / inject_Z o == 1 + inject_Z (c - o) * (1 / inject_Z o))%Q.
Proof.
  intros H. assert (P : (0 < inject_Z o)%Q) by (apply inject_Z_pos; lia).
  unfold Z.sub. rewrite inject_Z_plus, inject_Z_opp. field. lra.
Qed.

(** X4.  For sizes a file can have, the percentage is positive exactly when the
    file shrank, zero when its size is unchanged, negative when it grew,
    and never above 100. *)
Theorem compression_ratio_sign (original_size compressed_size : Z) :
  0 < original_size < 2 ^ 52 -> 0 <= compressed_size < 2 ^ 1000 ->
  exists r : Q,
    compression_ratio original_size compressed_size = inr (Finite r) /\
    (compressed_size < original_size -> (0 < r)%Q /\ (r <= 100)%Q) /\
    (compressed_size = original_size -> (r == 0)%Q) /\
    (original_size < compressed_size -> (r < 0)%Q) /\
    (compressed_size = 0 -> (r == 100)%Q).
Proof.
  intros Ho Hc.
  set (o := original_size) in *. set (c := compressed_size) in *.
  pose proof (inv_size_bound o Ho) as Inv.
  pose proof (ratio_split o c ltac:(lia)) as Split.
  assert (Po : (0 < 1 / inject_Z o)%Q).
  { apply Qlt_le_trans with (2 ^ (-52))%Q; [apply pow2_pos | assumption]. }
  assert (T53 : (2 ^ (-53) == 1 # 9007199254740992)%Q) by reflexivity.
  assert (T52 : (2 ^ (-52) == 1 # 4503599627370496)%Q) by reflexivity.
  assert (R0 : representable 0) by (apply (representable_Z 0); reflexivity).
  assert (R1 : representable 1) by (apply (representable_Z 1); reflexivity).
  assert (R100 : representable 100) by (apply (representable_Z 100); reflexivity).
  assert (Rs : representable (2 ^ (-53))%Q)
    by (apply representable_pow2; unfold emin, emax, prec; lia).
  destruct (Z.lt_trichotomy c o) as [Lt|[Eq|Gt]].
  - (* the file shrank *)
    assert (Rhi : representable (inject_Z (2 ^ 53 - 1) * 2 ^ (-53))%Q).
    { apply representable_scaled; [reflexivity | unfold emin, emax, prec; lia]. }
    assert (Ehi : (inject_Z (2 ^ 53 - 1) * 2 ^ (-53) == 1 - 2 ^ (-53))%Q) by reflexivity.
    assert (D : (inject_Z (c - o) <= - 1)%Q).
    { change (- 1)%Q with (inject_Z (-1)). rewrite <- Zle_Qle. lia. }
    assert (D0 : (- inject_Z o <= inject_Z (c - o))%Q).
    { rewrite <- inject_Z_opp, <- Zle_Qle. lia. }
    assert (Io : (inject_Z o * (1 / inject_Z o) == 1)%Q).
    { field. assert (0 < inject_Z o)%Q by (apply inject_Z_pos; lia). lra. }
    destruct (Z.eq_dec c 0) as [C0|Cn].
    + assert (E0 : (inject_Z c / inject_Z o == 0)%Q).
      { rewrite C0. unfold Qdiv. change (inject_Z 0) with 0%Q. ring. }
      destruct (ratio_chain o c 0 0 1 1 100 100 ltac:(lia) R0 R0 R1 R1 R100 R100)
        as (r & Hr & L & U); try lra.
      exists r. split; [assumption|]. repeat split; try lia; lra.
    + assert (L1 : (0 <= inject_Z c / inject_Z o)%Q) by (rewrite Split; nra).
      assert (U1 : (inject_Z c / inject_Z o <= inject_Z (2 ^ 53 - 1) * 2 ^ (-53))%Q).
      { rewrite Split, Ehi, T53. rewrite T52 in Inv. nra. }
      assert (L2 : (2 ^ (-53) <= 1 - inject_Z (2 ^ 53 - 1) * 2 ^ (-53))%Q)
        by (rewrite Ehi; lra).
      assert (U2 : (1 - 0 <= 1)%Q) by lra.
      assert (L3 : (2 ^ (-53) <= 2 ^ (-53) * 100)%Q) by (rewrite T53; lra).
      assert (U3 : (1 * 100 <= 100)%Q) by lra.
      destruct (ratio_chain o c _ _ _ _ _ _ ltac:(lia) R0 Rhi Rs R1 Rs R100
                  L1 U1 L2 U2 L3 U3) as (r & Hr & L & U).
      exists r. split; [assumption|]. rewrite T53 in L.
      repeat split; try lia; lra.
  - (* unchanged *)
    assert (E : (inject_Z c / inject_Z o == 1)%Q).
    { rewrite Eq. field. assert (0 < inject_Z o)%Q by (apply inject_Z_pos; lia). lra. }
    destruct (ratio_chain o c 1 1 0 0 0 0) as (r & Hr & L & U);
      try assumption; try lia; try lra.
    exists r. split; [assumption|]. repeat split; try lia; lra.
  - (* the file grew *)
    set (P := (2 ^ 1000)%Q).
    assert (PP : (1 <= P)%Q) by (change 1%Q with (2 ^ 0)%Q; apply pow2_le; lia).
    assert (P7 : (2 ^ 1007 == 128 * P)%Q).
    { unfold P. rewrite (pow2_add 1000 7). assert (T : (2 ^ 7 == 128)%Q) by reflexivity.
      rewrite T. ring. }
    assert (RP : representable P)
      by (apply representable_pow2; unfold emin, emax, prec; lia).
    assert (RPn : representable (- P)) by now apply representable_opp.
    assert (RP7 : representable (- 2 ^ 1007)%Q).
    { apply representable_opp, representable_pow2. unfold emin, emax, prec. lia. }
    assert (Rlo : representable (inject_Z (2 ^ 52 + 1) * 2 ^ (-52))%Q).
    { apply representable_scaled; [reflexivity | unfold emin, emax, prec; lia]. }
    assert (Elo : (inject_Z (2 ^ 52 + 1) * 2 ^ (-52) == 1 + 2 ^ (-52))%Q) by reflexivity.
    assert (Rm : representable (- 2 ^ (-52))%Q).
    { apply representable_opp, representable_pow2. unfold emin, emax, prec. lia. }
    assert (D : (1 <= inject_Z (c - o))%Q).
    { change 1%Q with (inject_Z 1). rewrite <- Zle_Qle. lia. }
    assert (Uc : (inject_Z c <= P)%Q).
    { unfold P. rewrite <- (pow2_inject 1000) by lia. rewrite <- Zle_Qle. lia. }
    assert (Oc : (inject_Z c / inject_Z o <= inject_Z c)%Q).
    { assert (1 <= inject_Z o)%Q
        by (change 1%Q with (inject_Z 1); rewrite <- Zle_Qle; lia).
      assert (0 <= inject_Z c)%Q
        by (change 0%Q with (inject_Z 0); rewrite <- Zle_Qle; lia).
      apply Qle_shift_div_r; [lra | nra]. }
    assert (L1 : (inject_Z (2 ^ 52 + 1) * 2 ^ (-52) <= inject_Z c / inject_Z o)%Q)
      by (rewrite Split, Elo; nra).
    assert (U1 : (inject_Z c / inject_Z o <= P)%Q) by lra.
    assert (L2 : (- P <= 1 - P)%Q) by lra.
    assert (U2 : (1 - inject_Z (2 ^ 52 + 1) * 2 ^ (-52) <= - 2 ^ (-52))%Q)
      by (rewrite Elo; lra).
    assert (L3 : (- 2 ^ 1007 <= - P * 100)%Q) by (rewrite P7; lra).
    assert (U3 : (- 2 ^ (-52) * 100 <= - 2 ^ (-52))%Q) by (rewrite T52; lra).
    destruct (ratio_chain o c _ _ _ _ _ _ ltac:(lia) Rlo RP RPn Rm RP7 Rm
                L1 U1 L2 U2 L3 U3) as (r & Hr & L & U).
    exists r. split; [assumption|]. rewrite T52 in U.
    repeat split; try lia; lra.
Qed.

Lemma compression_ratio_sign_witness :
  exists r : Q,
    compression_ratio 90000 30000 = inr (Finite r) /\
    (30000 < 90000 -> (0 < r)%Q /\ (r <= 100)%Q) /\
    (30000 = 90000 -> (r == 0)%Q) /\
    (90000 < 30000 -> (r < 0)%Q) /\
    (30000 = 0 -> (r == 100)%Q).
Proof. apply (compression_ratio_sign 90000 30000); lia. Defined.

(** ** The printed figures never fail *)

Lemma bind_exn_not (e : exn) {A B} (m : exn + A) (k : A -> exn + B) :
  m <> inl e -> (forall a, k a <> inl e) -> bind_exn m k <> inl e.
Proof. intros Hm Hk. destruct m as [e'|a]; cbn; [congruence | apply Hk]. Qed.

Lemma truediv_no_zero_division (a b : Z) :
  b <> 0 -> truediv a b <> inl ZeroDivisionError.
Proof.
  intros Hb. unfold truediv. destruct (Z.eqb_spec b 0) as [|_]; [contradiction|].
  destruct (round_ne _); discriminate.
Qed.

Lemma of_int_no_zero_division (a : Z) : of_int a <> inl ZeroDivisionError.
Proof. unfold of_int. destruct (round_ne _); discriminate. Qed.

Lemma format_size_no_zero_division (size : Z) :
  format_size size <> inl ZeroDivisionError.
Proof.
  unfold format_size. destruct (size <? 1024); [discriminate|].
  destruct (size <? 1024 * 1024);
    (apply bind_exn_not; [apply truediv_no_zero_division; lia | discriminate]).
Qed.

Lemma compression_ratio_no_zero_division (o c : Z) :
  o <> 0 -> compression_ratio o c <> inl ZeroDivisionError.
Proof.
  intros Ho. unfold compression_ratio, sub_int_float, mul_float_int.
  apply bind_exn_not; [now apply truediv_no_zero_division|]. intros q.
  apply bind_exn_not.
  - apply bind_exn_not; [apply of_int_no_zero_division | discriminate].
  - intros d. apply bind_exn_not; [apply of_int_no_zero_division | discriminate].
Qed.

Lemma format_size_returns (size : Z) : size < 2 ^ 53 ->
  exists s, format_size size = inr s.
Proof.
  intros H. unfold format_size.
  destruct (Z.ltb_spec size 1024) as [|H1]; [eauto|].
  destruct (Z.ltb_spec size (1024 * 1024)) as [|H2].
  - pose proof (format_size_scaled size 10 " KB" ltac:(lia) ltac:(lia)) as E.
    cbv zeta in E. change (2 ^ 10) with 1024 in E. rewrite E. eauto.
  - pose proof (format_size_scaled size 20 " MB" ltac:(lia) ltac:(lia)) as E.
    cbv zeta in E. change (2 ^ 20) with (1024 * 1024) in E. rewrite E. eauto.
Qed.

Lemma compression_ratio_returns (o c : Z) :
  0 < o -> 0 <= c < 2 ^ 1000 -> exists r, compression_ratio o c = inr (Finite r).
Proof.
  intros Ho Hc.
  set (P := (2 ^ 1000)%Q).
  assert (PP : (1 <= P)%Q) by (change 1%Q with (2 ^ 0)%Q; apply pow2_le; lia).
  assert (P7 : (2 ^ 1007 == 128 * P)%Q).
  { unfold P. rewrite (pow2_add 1000 7). assert (T : (2 ^ 7 == 128)%Q) by reflexivity.
    rewrite T. ring. }
  assert (RP : representable P)
    by (apply representable_pow2; unfold emin, emax, prec; lia).
  assert (RPn : representable (- P)) by now apply representable_opp.
  assert (RP7 : representable (- 2 ^ 1007)%Q).
  { apply representable_opp, representable_pow2. unfold emin, emax, prec. lia. }
  assert (R0 : representable 0) by (apply (representable_Z 0); reflexivity).
  assert (R1 : representable 1) by (apply (representable_Z 1); reflexivity).
  assert (R100 : representable 100) by (apply (representable_Z 100); reflexivity).
  assert (Io : (1 <= inject_Z o)%Q)
    by (change 1%Q with (inject_Z 1); rewrite <- Zle_Qle; lia).
  assert (Ic : (0 <= inject_Z c)%Q)
    by (change 0%Q with (inject_Z 0); rewrite <- Zle_Qle; lia).
  assert (Uc : (inject_Z c <= P)%Q).
  { unfold P. rewrite <- (pow2_inject 1000) by lia. rewrite <- Zle_Qle. lia. }
  assert (L1 : (0 <= inject_Z c / inject_Z o)%Q) by (apply Qle_shift_div_l; lra).
  assert (U1 : (inject_Z c / inject_Z o <= P)%Q) by (apply Qle_shift_div_r; [lra | nra]).
  assert (L2 : (- P <= 1 - P)%Q) by lra.
  assert (U2 : (1 - 0 <= 1)%Q) by lra.
  assert (L3 : (- 2 ^ 1007 <= - P * 100)%Q) by (rewrite P7; lra).
  assert (U3 : (1 * 100 <= 100)%Q) by lra.
  destruct (ratio_chain o c _ _ _ _ _ _ Ho R0 RP RPn R1 RP7 R100 L1 U1 L2 U2 L3 U3)
    as (r & Hr & _). eauto.
Qed.

Lemma ratio_or_zero_returns (o c : Z) :
  0 <= c < 2 ^ 1000 -> exists r, ratio_or_zero o c = inr (Finite r).
Proof.
  intros Hc. unfold ratio_or_zero.
  destruct (Z.gtb_spec o 0); [apply compression_ratio_returns; lia | eauto].
Qed.

(** X5.  The figures of the per-file line and of the summaries never raise
    [ZeroDivisionError], whatever the sizes, and are all produced when the
    sizes are below [2^53]; with nothing to compare the summary shows
    [0.0] percent. *)
Theorem figures_never_divide_by_zero :
  (forall o c, summary_figures o c <> inl ZeroDivisionError) /\
  (forall o c, 0 < o -> done_line o c <> inl ZeroDivisionError) /\
  (forall o c, 0 <= o < 2 ^ 53 -> 0 <= c < 2 ^ 53 ->
     exists figures, summary_figures o c = inr figures) /\
  (forall o c, 0 < o < 2 ^ 53 -> 0 <= c < 2 ^ 53 ->
     exists figures, done_line o c = inr figures) /\
  (forall c, summary_figures 0 c =
     bind_exn (format_size 0) (fun a =>
     bind_exn (format_size c) (fun b =>
     bind_exn (format_size (0 - c)) (fun s =>
     inr (a, b, s, "0.0"%string))))).
Proof.
  split; [|split; [|split; [|split]]].
  - intros o c. unfold summary_figures, ratio_or_zero.
    apply bind_exn_not.
    { destruct (Z.gtb_spec o 0); [apply compression_ratio_no_zero_division; lia|].
      discriminate. }
    intros r. apply bind_exn_not; [apply format_size_no_zero_division|]. intros a.
    apply bind_exn_not; [apply format_size_no_zero_division|]. intros b.
    apply bind_exn_not; [apply format_size_no_zero_division|]. discriminate.
  - intros o c Ho. unfold done_line.
    apply bind_exn_not; [apply compression_ratio_no_zero_division; lia|]. intros r.
    apply bind_exn_not; [apply format_size_no_zero_division|]. intros a.
    apply bind_exn_not; [apply format_size_no_zero_division|]. discriminate.
  - intros o c Ho Hc. unfold summary_figures, ratio_or_zero.
    assert (B : 2 ^ 53 < 2 ^ 1000) by (apply Z.pow_lt_mono_r; lia).
    assert (R : exists r, (if o >? 0 then compression_ratio o c else inr (Finite 0))
                          = inr (Finite r)).
    { destruct (Z.gtb_spec o 0); [apply compression_ratio_returns; lia | eauto]. }
    destruct R as (r & ->).
    destruct (format_size_returns o ltac:(lia)) as (a & ->).
    destruct (format_size_returns c ltac:(lia)) as (b & ->).
    destruct (format_size_returns (o - c) ltac:(lia)) as (s & ->).
    cbn. eauto.
  - intros o c Ho Hc. unfold done_line.
    assert (B : 2 ^ 53 < 2 ^ 1000) by (apply Z.pow_lt_mono_r; lia).
    destruct (compression_ratio_returns o c ltac:(lia) ltac:(lia)) as (r & ->).
    destruct (format_size_returns o ltac:(lia)) as (a & ->).
    destruct (format_size_returns c ltac:(lia)) as (b & ->).
    cbn. eauto.
  - intros c. reflexivity.
Qed.

Lemma figures_never_divide_by_zero_witness :
  done_line 1 0 <> inl ZeroDivisionError /\
  (exists figures, summary_figures 0 0 = inr figures) /\
  (exists figures, done_line 90000 30000 = inr figures).
Proof.
  destruct figures_never_divide_by_zero as (_ & H2 & H3 & H4 & _).
  split; [apply (H2 1 0); lia|].
  split; [apply (H3 0 0); lia | apply (H4 90000 30000); lia].
Defined.

End ReportFacts.

(** * A folder run as a whole *)
Module BatchFacts.

Import Imaging Batch ImagingFacts.

Section WithLibrary.

Context {env image : Type}.
Variable lib : library env image.

Section Emits.

Context {B : Type}.
Variable f : event image -> list B.

Lemma emits_weaken {A} (m : M env image A) (l l' : list B) :
  emits f m l -> l `sublist_of` l' -> emits f m l'.
Proof.
  intros Hm Hl w. destruct (Hm w) as (t & E & S). exists t.
  split; [assumption | now transitivity l].
Qed.

Lemma emits_ret {A} (a : A) (l : list B) : emits f (ret a : M env image A) l.
Proof.
  intros w. exists []. cbn. rewrite app_nil_r.
  split; [reflexivity | apply sublist_nil_l].
Qed.

Lemma emits_lift {A} (r : exn + A) (l : list B) : emits f (lift r : M env image A) l.
Proof.
  intros w. exists []. destruct r; cbn; rewrite app_nil_r;
    (split; [reflexivity | apply sublist_nil_l]).
Qed.

Lemma emits_bind {A C} (m : M env image A) (k : A -> M env image C) (l1 l2 : list B) :
  emits f m l1 -> (forall a, emits f (k a) l2) -> emits f (bind m k) (l1 ++ l2).
Proof.
  intros Hm Hk w. unfold bind. destruct (Hm w) as (t1 & E1 & S1).
  destruct (m w) as [[e|a] w1]; cbn [snd] in *.
  - exists t1. split; [assumption|]. now apply sublist_inserts_r.
  - destruct (Hk a w1) as (t2 & E2 & S2). exists (t1 ++ t2).
    rewrite E2, E1, app_assoc. split; [reflexivity|].
    rewrite flat_map_app. now apply sublist_app.
Qed.

Lemma emits_then {A C} (m : M env image A) (k : A -> M env image C) (l : list B) :
  emits f m l -> (forall a, emits f (k a) []) -> emits f (bind m k) l.
Proof.
  intros Hm Hk. rewrite <- (app_nil_r l). now apply emits_bind.
Qed.

Lemma emits_try {A} (m : M env image A) (h : exn -> M env image A) (l : list B) :
  emits f m l -> (forall e, emits f (h e) []) -> emits f (try_except m h) l.
Proof.
  intros Hm Hh w. unfold try_except. destruct (Hm w) as (t1 & E1 & S1).
  destruct (m w) as [[e|a] w1]; cbn [snd] in *.
  - destruct (Hh e w1) as (t2 & E2 & S2). exists (t1 ++ t2).
    rewrite E2, E1, app_assoc. split; [reflexivity|].
    rewrite flat_map_app, <- (app_nil_r l). now apply sublist_app.
  - exists t1. auto.
Qed.

Lemma flat_map_one (ev : event image) : flat_map f [ev] = f ev.
Proof. cbn. apply app_nil_r. Qed.

Lemma emits_get_file_size p (l : list B) :
  f (EvGetSize p) `sublist_of` l -> emits f (get_file_size lib p) l.
Proof. intros H w. exists [EvGetSize p]. now rewrite flat_map_one. Qed.

Lemma emits_open p (l : list B) :
  f (EvOpen p) `sublist_of` l -> emits f (image_open lib p) l.
Proof. intros H w. exists [EvOpen p]. now rewrite flat_map_one. Qed.

Lemma emits_convert img mode (l : list B) :
  f (EvConvert img mode) `sublist_of` l -> emits f (image_convert lib img mode) l.
Proof. intros H w. exists [EvConvert img mode]. now rewrite flat_map_one. Qed.

Lemma emits_resize img size r (l : list B) :
  f (EvResize img size r) `sublist_of` l -> emits f (image_resize lib img size r) l.
Proof. intros H w. exists [EvResize img size r]. now rewrite flat_map_one. Qed.

Lemma emits_save img p kw (l : list B) :
  f (EvSave img p kw) `sublist_of` l -> emits f (image_save lib img p kw) l.
Proof.
  intros H w. exists [EvSave img p kw]. rewrite flat_map_one.
  unfold image_save. destruct (pil_save lib img p kw (w_env w)). auto.
Qed.

Lemma emits_print (m : message) (l : list B) :
  f (EvPrint m) `sublist_of` l -> emits f (print m : M env image unit) l.
Proof. intros H w. exists [EvPrint m]. now rewrite flat_map_one. Qed.

(** The per-file function: one opening and at most one save, both of
    the paths it was given. *)
Lemma compress_with_emits kw input output mw mh (lo ls : list B) :
  (forall p, f (EvGetSize p) = []) ->
  (forall img mode, f (EvConvert img mode) = []) ->
  (forall img size r, f (EvResize img size r) = []) ->
  (forall m, plain_message m = true -> f (EvPrint m) = []) ->
  f (EvOpen input) `sublist_of` lo ->
  (forall img,
     f (EvSave img (match output with None => input | Some p => p end) kw)
     `sublist_of` ls) ->
  emits f (compress_with lib kw input output mw mh) (lo ++ ls).
Proof.
  intros Hg Hc Hr Hp Hlo Hls. unfold compress_with.
  apply (emits_bind _ _ [] (lo ++ ls)).
  { apply emits_get_file_size. now rewrite Hg. }
  intros n. apply emits_try.
  - unfold try_body. apply emits_bind; [now apply emits_open|].
    intros img. apply (emits_bind _ _ [] ls).
    { unfold convert_and_resize. apply (emits_bind _ _ [] []).
      - unfold ensure_rgb. destruct (mode_in lib img _);
          [apply emits_convert; now rewrite Hc | apply emits_ret].
      - intros img1. unfold resize_to_fit. destruct (pil_size lib img1) as [ow oh].
        destruct ((ow >? mw) || (oh >? mh)); [|apply emits_ret].
        apply (emits_bind _ _ [] []); [apply emits_lift|].
        intros size. apply emits_resize. now rewrite Hr. }
    intros img2. apply emits_then; [now apply emits_save|].
    intros _. apply (emits_bind _ _ [] []).
    + apply emits_get_file_size. now rewrite Hg.
    + intros c. apply emits_ret.
  - intros e. unfold except_clause. apply (emits_bind _ _ [] []).
    + apply emits_print. now rewrite Hp by reflexivity.
    + intros _. apply emits_ret.
Qed.

(** The loop over the files of a folder. *)
Lemma folder_loop_emits (g : string -> list B)
    (one : string -> M env image (Z * Z))
    (report : Z -> Z -> Z -> Z -> M env image unit) folder count :
  (forall p, emits f (one p) (g p)) ->
  (forall i c a b, emits f (report i c a b) []) ->
  (forall m, plain_message m = true -> f (EvPrint m) = []) ->
  forall names i acc,
    emits f (folder_loop one report folder count i names acc)
      (flat_map (fun name => g (path_join folder name)) names).
Proof.
  intros Hone Hrep Hp. induction names as [|name rest IH]; intros i acc.
  - cbn. apply emits_ret.
  - destruct acc as [[a b] c]. cbn [folder_loop flat_map].
    apply (emits_bind _ _ [] _); [apply emits_print; now rewrite Hp by reflexivity|].
    intros _. apply emits_bind; [apply Hone|].
    intros [o c']. apply (emits_bind _ _ [] _).
    { destruct (o >? 0); apply emits_print; now rewrite Hp by reflexivity. }
    intros _. apply (emits_bind _ _ [] _); [apply Hrep|].
    intros _. apply IH.
Qed.

Lemma folder_driver_emits (g : string -> list B) (cs : bool)
    (one : string -> M env image (Z * Z))
    (report : Z -> Z -> Z -> Z -> M env image unit) folder :
  (forall p, emits f (one p) (g p)) ->
  (forall i c a b, emits f (report i c a b) []) ->
  (forall m, plain_message m = true -> f (EvPrint m) = []) ->
  forall w, exists tail,
    w_trace (snd (folder_driver lib cs one report folder w)) = w_trace w ++ tail /\
    flat_map f tail `sublist_of`
      flat_map (fun name => g (path_join folder name))
        (jpg_files_of cs (os_listdir lib folder (w_env w))).
Proof.
  intros Hone Hrep Hp w. unfold folder_driver.
  unfold bind at 1. unfold path_exists at 1.
  destruct (os_exists lib folder (w_env w)); cbn [negb].
  - unfold bind at 1. unfold list_jpg_files at 1.
    generalize (jpg_files_of cs (os_listdir lib folder (w_env w))). intros files.
    assert (Hk : emits f
              (match files with
               | [] => print (MsgNoJpgFound folder) >> ret (0, 0, 0)
               | _ :: _ =>
                   print (MsgFolderStart folder (Z.of_nat (List.length files))) >>
                   folder_loop one report folder (Z.of_nat (List.length files)) 1
                     files (0, 0, 0)
               end)
              (flat_map (fun name => g (path_join folder name)) files)).
    { destruct files as [|x xs].
      - apply (emits_bind _ _ [] []);
          [apply emits_print; now rewrite Hp by reflexivity | intros _; apply emits_ret].
      - apply (emits_bind _ _ [] (flat_map (fun name => g (path_join folder name))
                                    (x :: xs))).
        + apply emits_print. now rewrite Hp by reflexivity.
        + intros _. apply folder_loop_emits; assumption. }
    apply Hk.
  - assert (Hk : emits f (print (MsgFolderMissing folder) >> ret (0, 0, 0)
                          : M env image (Z * Z * Z)) []).
    { apply (emits_bind _ _ [] []);
        [apply emits_print; now rewrite Hp by reflexivity | intros _; apply emits_ret]. }
    destruct (Hk w) as (t & E & S). exists t. split; [exact E|].
    transitivity (@nil B); [exact S | apply sublist_nil_l].
Qed.

End Emits.

Lemma flat_map_singleton {A C} (h : A -> C) (l : list A) :
  flat_map (fun a => [h a]) l = List.map h l.
Proof. induction l as [|a l IH]; cbn; [reflexivity | now rewrite IH]. Qed.

Lemma tail_unique (t a b : list (event image)) : t ++ a = t ++ b -> a = b.
Proof. apply app_inv_head. Qed.

(** Opens and saves of a folder run, for any keyword arguments. *)
Lemma folder_driver_touches (cs : bool) kw
    (report : Z -> Z -> Z -> Z -> M env image unit) folder mw mh w :
  (forall i c a b, emits open_of (report i c a b) []) ->
  (forall i c a b, emits save_of (report i c a b) []) ->
  let paths := List.map (path_join folder)
                 (jpg_files_of cs (os_listdir lib folder (w_env w))) in
  exists tail,
    w_trace (snd (folder_driver lib cs
                    (fun p => compress_with lib kw p None mw mh) report folder w))
    = w_trace w ++ tail /\
    flat_map open_of tail `sublist_of` paths /\
    flat_map save_of tail `sublist_of` List.map (fun p => (p, kw)) paths.
Proof.
  intros Hro Hrs paths.
  destruct (folder_driver_emits open_of (fun p => [p]) cs
              (fun p => compress_with lib kw p None mw mh) report folder)
    with (w := w) as (t1 & E1 & S1); try assumption; try reflexivity.
  { intros p. apply (compress_with_emits open_of kw p None mw mh [p] []);
      reflexivity. }
  destruct (folder_driver_emits save_of (fun p => [(p, kw)]) cs
              (fun p => compress_with lib kw p None mw mh) report folder)
    with (w := w) as (t2 & E2 & S2); try assumption; try reflexivity.
  { intros p. apply (compress_with_emits save_of kw p None mw mh [] [(p, kw)]);
      reflexivity. }
  rewrite E1 in E2. apply tail_unique in E2. subst t2.
  exists t1. split; [exact E1|]. unfold paths.
  rewrite flat_map_singleton in S1. rewrite flat_map_singleton in S2.
  rewrite List.map_map. auto.
Qed.

Lemma emits_ultra_report {B} (f : event image -> list B) :
  (forall m, f (EvPrint m) = []) ->
  forall i c a b : Z,
    emits f (if i mod 100 =? 0
             then print (MsgProgressReport i c a b)
             else ret tt : M env image unit) [].
Proof.
  intros Hp i c a b. destruct (i mod 100 =? 0);
    [apply emits_print; now rewrite Hp | apply emits_ret].
Qed.

(** ** The count *)

Lemma folder_loop_count (one : string -> M env image (Z * Z))
    (report : Z -> Z -> Z -> Z -> M env image unit) folder count :
  forall names i acc w r w',
    folder_loop one report folder count i names acc w = (inr r, w') ->
    snd r = snd acc + Z.of_nat (List.length names).
Proof.
  induction names as [|name rest IH]; intros i acc w r w' H.
  - cbn in H. injection H as <- _. cbn. lia.
  - destruct acc as [[a b] c]. rewrite folder_loop_cons in H.
    destruct (one _ _) as [[e|[o c']] w1]; [discriminate|].
    cbv zeta in H. destruct (report _ _ _ _ _) as [[e|u] w3]; [discriminate|].
    apply IH in H. rewrite H. cbn [snd List.length]. lia.
Qed.

Lemma folder_driver_unfold (cs : bool) (one : string -> M env image (Z * Z))
    (report : Z -> Z -> Z -> Z -> M env image unit) folder w :
  folder_driver lib cs one report folder w =
  if os_exists lib folder (w_env w) then
    match jpg_files_of cs (os_listdir lib folder (w_env w)) with
    | [] => (inr (0, 0, 0), record (EvPrint (MsgNoJpgFound folder)) w)
    | x :: xs =>
        folder_loop one report folder (Z.of_nat (List.length (x :: xs))) 1 (x :: xs)
          (0, 0, 0)
          (record (EvPrint (MsgFolderStart folder (Z.of_nat (List.length (x :: xs))))) w)
    end
  else (inr (0, 0, 0), record (EvPrint (MsgFolderMissing folder)) w).
Proof.
  unfold folder_driver. unfold bind at 1. unfold path_exists at 1.
  destruct (os_exists lib folder (w_env w)); cbn [negb]; [|reflexivity].
  unfold bind at 1. unfold list_jpg_files at 1.
  destruct (jpg_files_of cs (os_listdir lib folder (w_env w))); reflexivity.
Qed.

Lemma folder_driver_count (cs : bool) (one : string -> M env image (Z * Z))
    (report : Z -> Z -> Z -> Z -> M env image unit) folder w r w' :
  folder_driver lib cs one report folder w = (inr r, w') ->
  snd r = if os_exists lib folder (w_env w)
          then Z.of_nat (List.length (jpg_files_of cs (os_listdir lib folder (w_env w))))
          else 0.
Proof.
  rewrite folder_driver_unfold.
  destruct (os_exists lib folder (w_env w)).
  - destruct (jpg_files_of cs (os_listdir lib folder (w_env w))) as [|x xs].
    + intros [= <- _]. reflexivity.
    + intros H. apply folder_loop_count in H. rewrite H. cbn [snd]. lia.
  - intros [= <- _]. reflexivity.
Qed.

(** ** Progress reports *)




(** ** What one call reads and writes *)

Lemma compress_with_touches kw input output mw mh (w : world env image) :
  let out := match output with None => input | Some p => p end in
  exists tail,
    w_trace (snd (compress_with lib kw input output mw mh w)) = w_trace w ++ tail /\
    flat_map open_of tail `sublist_of` [input] /\
    flat_map save_of tail `sublist_of` [(out, kw)].
Proof.
  intros out.
  assert (H1 : emits open_of (compress_with lib kw input output mw mh) [input]).
  { apply (compress_with_emits open_of kw input output mw mh [input] []);
      reflexivity. }
  assert (H2 : emits save_of (compress_with lib kw input output mw mh) [(out, kw)]).
  { apply (compress_with_emits save_of kw input output mw mh [] [(out, kw)]);
      reflexivity. }
  destruct (H1 w) as (t1 & E1 & S1). destruct (H2 w) as (t2 & E2 & S2).
  rewrite E1 in E2. apply tail_unique in E2. subst t2.
  exists t1. auto.
Qed.

Lemma try_body_sizes kw input out mw mh n w1 r w2 :
  try_body lib kw input out mw mh n w1 = (inr r, w2) ->
  r = (n, snd r) /\ os_getsize lib out (w_env w2) = inr (snd r).
Proof.
  unfold try_body. intros E.
  apply bind_inr_inv in E as (img & w3 & _ & E).
  apply bind_inr_inv in E as (img' & w4 & _ & E).
  apply bind_inr_inv in E as ([] & w5 & _ & E).
  apply bind_inr_inv in E as (c & w6 & G & E).
  unfold ret in E. injection E as <- <-.
  unfold get_file_size in G. injection G as G <-.
  cbn [snd w_env record]. auto.
Qed.

Lemma compress_with_sizes kw input output mw mh (w w' : world env image) (r : Z * Z) :
  let out := match output with None => input | Some p => p end in
  compress_with lib kw input output mw mh w = (inr r, w') ->
  os_getsize lib input (w_env w) = inr (fst r) /\
  (os_getsize lib out (w_env w') = inr (snd r) \/
   (snd r = fst r /\ exists e, In (input, e) (logged_errors (w_trace w')))).
Proof.
  intros out H.
  destruct (os_getsize lib input (w_env w)) as [e|n] eqn:G.
  { unfold compress_with, bind, get_file_size in H. rewrite G in H. discriminate. }
  pose proof (compress_with_returns lib kw input output mw mh w n G) as R.
  fold out in R.
  destruct (try_body lib kw input out mw mh n (record (EvGetSize input) w))
    as [[e|r'] w2] eqn:T.
  - rewrite R in H. injection H as <- <-. split; [reflexivity|]. right.
    split; [reflexivity|]. exists e. rewrite trace_record.
    unfold logged_errors. rewrite flat_map_app. apply in_or_app. right. now left.
  - destruct R as [R _]. rewrite R in H. injection H as <- <-.
    apply try_body_sizes in T as [E1 E2]. rewrite E1. cbn [fst snd].
    split; [reflexivity|]. left. rewrite E1 in E2. exact E2.
Qed.


End WithLibrary.

(** X23.  One call of [compress_image] or [compress_image_ultra] opens
    its input only, at most once, and saves at most once: to
    [output_path] when one is given (an input at another path is then
    never written) and onto the input otherwise. *)
Theorem one_call_touches {env image : Type} (lib : library env image)
    (input : string) (output : option string)
    (max_width max_height quality : Z) (progressive : bool) (w : world env image) :
  let out := match output with None => input | Some p => p end in
  (exists tail,
     w_trace (snd (compress_image lib input output max_width max_height quality w))
     = w_trace w ++ tail /\
     flat_map open_of tail `sublist_of` [input] /\
     flat_map save_of tail `sublist_of` [(out, standard_save_kwargs quality)]) /\
  (exists tail,
     w_trace (snd (compress_image_ultra lib input output max_width max_height quality
                     progressive w))
     = w_trace w ++ tail /\
     flat_map open_of tail `sublist_of` [input] /\
     flat_map save_of tail `sublist_of` [(out, ultra_save_kwargs quality progressive)]).
Proof.
  intros out. split; apply compress_with_touches.
Qed.

(** X24.  When a call returns [(original_size, compressed_size)], the first is
    the size of the input as it was before the call, and the second is
    the size of the output file after the save, unless an error was
    logged for the input, in which case it repeats the first. *)
Theorem reported_sizes {env image : Type} (lib : library env image)
    (input : string) (output : option string)
    (max_width max_height quality : Z) (progressive : bool)
    (w w' : world env image) (sizes : Z * Z) :
  let out := match output with None => input | Some p => p end in
  compress_image lib input output max_width max_height quality w = (inr sizes, w') \/
  compress_image_ultra lib input output max_width max_height quality progressive w
    = (inr sizes, w') ->
  os_getsize lib input (w_env w) = inr (fst sizes) /\
  (os_getsize lib out (w_env w') = inr (snd sizes) \/
   (snd sizes = fst sizes /\ exists e, In (input, e) (logged_errors (w_trace w')))).
Proof.
  intros out [H|H]; eapply compress_with_sizes; exact H.
Qed.

Lemma reported_sizes_witness :
  os_getsize Demo.lib "muffin/c.jpg" (w_env (Demo.start Demo.disk_mixed)) = inr 90000 /\
  fst (compress_image Demo.lib "muffin/c.jpg" (Some "out/c.jpg"%string) 600 600 60
         (Demo.start Demo.disk_mixed)) = inr (90000, 121920).
Proof.
  destruct (compress_image Demo.lib "muffin/c.jpg" (Some "out/c.jpg"%string) 600 600 60
              (Demo.start Demo.disk_mixed)) as [r w'] eqn:E.
  assert (Er : r = inr (90000, 121920)).
  { apply (f_equal fst) in E. vm_compute in E. now rewrite <- E. }
  subst r.
  destruct (reported_sizes Demo.lib "muffin/c.jpg" (Some "out/c.jpg"%string)
              600 600 60 true (Demo.start Demo.disk_mixed) w' (90000, 121920)
              (or_introl E)) as [H _].
  split; [exact H | reflexivity].
Defined.

(** X6.  Whatever the folder holds, a run opens and saves only the files
    it enumerated: the paths opened, and the paths saved, are each a
    subsequence of the enumerated list; every save goes onto a path of
    that list (the original is overwritten), with the keyword arguments
    of the script and the quality it was given. *)
Theorem folder_run_touches_only_its_files {env image : Type}
    (lib : library env image) (cs : bool) (folder : string)
    (max_width max_height quality : Z) (w : world env image) :
  let paths := List.map (path_join folder)
                 (jpg_files_of cs (os_listdir lib folder (w_env w))) in
  (exists tail,
     w_trace (snd (compress_folder lib cs folder max_width max_height quality w))
     = w_trace w ++ tail /\
     flat_map open_of tail `sublist_of` paths /\
     flat_map save_of tail
       `sublist_of` List.map (fun p => (p, standard_save_kwargs quality)) paths) /\
  (exists tail,
     w_trace (snd (compress_folder_ultra lib cs folder max_width max_height quality w))
     = w_trace w ++ tail /\
     flat_map open_of tail `sublist_of` paths /\
     flat_map save_of tail
       `sublist_of` List.map (fun p => (p, ultra_save_kwargs quality true)) paths).
Proof.
  intros paths. split.
  - apply (folder_driver_touches lib cs (standard_save_kwargs quality)).
    + intros i c a b. apply emits_ret.
    + intros i c a b. apply emits_ret.
  - apply (folder_driver_touches lib cs (ultra_save_kwargs quality true)).
    + intros i c a b. apply emits_ultra_report. reflexivity.
    + intros i c a b. apply emits_ultra_report. reflexivity.
Qed.

(** X7.  When a folder run returns, the count it returns is the number of
    files it enumerated, those whose processing failed included; it is 0
    for a missing folder. *)
Theorem folder_run_count {env image : Type}
    (lib : library env image) (cs : bool) (folder : string)
    (max_width max_height quality : Z) (w : world env image) (totals : Z * Z * Z) :
  fst (compress_folder lib cs folder max_width max_height quality w) = inr totals \/
  fst (compress_folder_ultra lib cs folder max_width max_height quality w) = inr totals ->
  snd totals =
    if os_exists lib folder (w_env w)
    then Z.of_nat (List.length (jpg_files_of cs (os_listdir lib folder (w_env w))))
    else 0.
Proof.
  intros [H|H].
  - unfold compress_folder in H.
    destruct (folder_driver _ _ _ _ _ _) as [r w'] eqn:E. cbn in H. subst r.
    now apply folder_driver_count in E.
  - unfold compress_folder_ultra in H.
    destruct (folder_driver _ _ _ _ _ _) as [r w'] eqn:E. cbn in H. subst r.
    now apply folder_driver_count in E.
Qed.

Lemma folder_run_count_witness :
  snd (97012, 128932, 3) =
    if os_exists Demo.lib "muffin" (w_env (Demo.start Demo.disk_mixed))
    then Z.of_nat (List.length (jpg_files_of true
                     (os_listdir Demo.lib "muffin" (w_env (Demo.start Demo.disk_mixed)))))
    else 0.
Proof.
  apply (folder_run_count Demo.lib true "muffin" 600 600 60 (Demo.start Demo.disk_mixed)).
  left. vm_compute. reflexivity.
Defined.

(** X8.  A missing folder, or one without a matching file, costs one notice:
    the result is [(0, 0, 0)] and nothing is opened or written. *)
Theorem nothing_to_compress {env image : Type}
    (lib : library env image) (cs : bool) (folder : string)
    (max_width max_height quality : Z) (w : world env image) :
  os_exists lib folder (w_env w) = false \/
  jpg_files_of cs (os_listdir lib folder (w_env w)) = [] ->
  let notice := if os_exists lib folder (w_env w)
                then MsgNoJpgFound folder else MsgFolderMissing folder in
  compress_folder lib cs folder max_width max_height quality w
    = (inr (0, 0, 0), record (EvPrint notice) w) /\
  compress_folder_ultra lib cs folder max_width max_height quality w
    = (inr (0, 0, 0), record (EvPrint notice) w).
Proof.
  intros H notice. unfold notice, compress_folder, compress_folder_ultra.
  rewrite !folder_driver_unfold.
  destruct (os_exists lib folder (w_env w)).
  - destruct H as [H|H]; [discriminate|]. rewrite H. split; reflexivity.
  - split; reflexivity.
Qed.

Lemma nothing_to_compress_witness :
  compress_folder Demo.lib true "nowhere" 600 600 60 (Demo.start Demo.disk_mixed)
    = (inr (0, 0, 0),
       record (EvPrint (MsgFolderMissing "nowhere")) (Demo.start Demo.disk_mixed)) /\
  compress_folder_ultra Demo.lib true "nowhere" 400 400 40 (Demo.start Demo.disk_mixed)
    = (inr (0, 0, 0),
       record (EvPrint (MsgFolderMissing "nowhere")) (Demo.start Demo.disk_mixed)).
Proof.
  split.
  - apply (nothing_to_compress Demo.lib true "nowhere" 600 600 60
             (Demo.start Demo.disk_mixed)). left. reflexivity.
  - apply (nothing_to_compress Demo.lib true "nowhere" 400 400 40
             (Demo.start Demo.disk_mixed)). left. reflexivity.
Defined.



(** ** How often a file is enumerated *)

Lemma endswith_both (s a b : string) :
  endswith s a = true -> endswith s b = true ->
  endswith a b = true \/ endswith b a = true.
Proof.
  induction s as [|c r IH]; cbn [endswith]; intros Ha Hb.
  - rewrite orb_false_r in Ha, Hb. apply String.eqb_eq in Ha. apply String.eqb_eq in Hb.
    subst. left. reflexivity.
  - apply orb_true_iff in Ha as [Ha|Ha]; [apply String.eqb_eq in Ha; subst a|].
    { left. cbn [endswith]. exact Hb. }
    apply orb_true_iff in Hb as [Hb|Hb]; [apply String.eqb_eq in Hb; subst b|].
    { right. cbn [endswith]. rewrite Ha. apply orb_true_r. }
    now apply IH.
Qed.

Lemma glob_disjoint (names : list string) (a b : string) (f : string) :
  endswith a b = false -> endswith b a = false ->
  In f (glob_suffix true names a) -> In f (glob_suffix true names b) -> False.
Proof.
  intros Hab Hba Ha Hb. unfold glob_suffix in Ha, Hb.
  apply filter_In in Ha as [_ Ha]. apply filter_In in Hb as [_ Hb].
  destruct (endswith_both f a b Ha Hb); congruence.
Qed.

Lemma NoDup_glob (cs : bool) (names : list string) (suffix : string) :
  List.NoDup names -> List.NoDup (glob_suffix cs names suffix).
Proof. intros H. unfold glob_suffix. now apply List.NoDup_filter. Qed.

Lemma NoDup_app_disjoint {A} (l1 l2 : list A) :
  List.NoDup l1 -> List.NoDup l2 -> (forall x, In x l1 -> In x l2 -> False) ->
  List.NoDup (l1 ++ l2).
Proof.
  intros H1 H2 Hd. apply NoDup_ListNoDup, NoDup_app.
  split; [now apply NoDup_ListNoDup|]. split; [|now apply NoDup_ListNoDup].
  intros x Hx1 Hx2. apply (Hd x); now apply list_elem_of_In.
Qed.

(** X22.  With case-sensitive patterns the four globs are disjoint: a folder
    listing without repetition is enumerated without repetition.  With
    case-insensitive patterns (Windows paths) [*.JPG] and [*.JPEG] match
    what [*.jpg] and [*.jpeg] matched already: every file is enumerated,
    and so compressed, twice. *)
Theorem enumeration_multiplicity (names : list string) :
  (List.NoDup names -> List.NoDup (jpg_files_of true names)) /\
  jpg_files_of false names =
    (glob_suffix false names ".jpg" ++ glob_suffix false names ".jpeg") ++
    (glob_suffix false names ".jpg" ++ glob_suffix false names ".jpeg").
Proof.
  split; [|reflexivity].
  intros H. unfold jpg_files_of.
  repeat (apply NoDup_app_disjoint; try (now apply NoDup_glob)).
  - intros x. apply glob_disjoint; reflexivity.
  - intros x. apply glob_disjoint; reflexivity.
  - intros x Hx Hy. apply in_app_or in Hx as [Hx|Hx], Hy as [Hy|Hy];
      revert Hx Hy; apply glob_disjoint; reflexivity.
Qed.

Lemma enumeration_multiplicity_witness :
  List.NoDup (jpg_files_of true ["b.jpg"; "a.JPG"; "c.Jpg"; "d.jpeg"]%string) /\
  jpg_files_of false ["b.jpg"; "a.JPG"; "c.Jpg"]%string =
    ["b.jpg"; "a.JPG"; "c.Jpg"; "b.jpg"; "a.JPG"; "c.Jpg"]%string.
Proof.
  split.
  - apply (enumeration_multiplicity ["b.jpg"; "a.JPG"; "c.Jpg"; "d.jpeg"]%string).
    repeat constructor; cbn; intuition discriminate.
  - apply (enumeration_multiplicity ["b.jpg"; "a.JPG"; "c.Jpg"]%string).
Defined.

End BatchFacts.

(** * The rename run as a whole *)
Module RenameRun.

Import Rename RenameFacts RenameTwice.

(** ** The loop always finds its source *)



(** ** Entries the loop does not name *)






(** X12.  The new names are pairwise distinct and in ascending order of [str]
    comparison when taken in numbering order: the zero padding makes a
    later listing show the files in the order in which they were
    numbered. *)
Theorem targets_in_numbering_order (d : gmap string entry) (prefix : string) :
  StronglySorted str_le (plan d prefix).*2 /\ NoDup (plan d prefix).*2.
Proof.
  split; [|apply plan_targets_NoDup].
  unfold plan. destruct (sorted_files d) as [|f r] eqn:E; [constructor|].
  rewrite <- E. apply targets_sorted; [lia|].
  destruct (digits_of_spec (Z.of_nat (List.length (sorted_files d)))) as (_ & _ & U);
    [rewrite E; cbn [List.length]; lia | lia].
Qed.

End RenameRun.

(** * The command lines *)
Module CliFacts.

Import Imaging Report Batch Cli RenameFacts RenameTwice ReportFacts.

#[local] Arguments String.append !s1 s2 : simpl nomatch.

(** ** Where the backup goes *)

Lemma split_slash_free (s : string) :
  free_of "/" s = true -> Path.split_slash s = [s].
Proof.
  induction s as [|c r IH]; cbn; [reflexivity|]. intros H.
  apply andb_true_iff in H as [Hc Hr]. apply negb_true_iff in Hc.
  rewrite Hc, (IH Hr). reflexivity.
Qed.

Lemma split_slash_app (a b : string) :
  free_of "/" a = true ->
  Path.split_slash (a ++ "/" ++ b)%string = a :: Path.split_slash b.
Proof.
  induction a as [|c r IH]; cbn; [reflexivity|]. intros H.
  apply andb_true_iff in H as [Hc Hr]. apply negb_true_iff in Hc.
  rewrite Hc. cbn in IH. rewrite (IH Hr). reflexivity.
Qed.

Lemma kept_component (f : string) :
  f <> ""%string -> f <> "."%string ->
  negb (String.eqb f "") && negb (String.eqb f ".") = true.
Proof.
  intros H1 H2. apply andb_true_iff. split; apply negb_true_iff, String.eqb_neq;
    assumption.
Qed.

Lemma plain_backup (f : string) : plain_name f -> plain_name (f ++ "_backup")%string.
Proof.
  intros (Hf & Hn & _). split; [|split].
  - rewrite free_of_app, Hf. reflexivity.
  - destruct f; [congruence | discriminate].
  - destruct f as [|c [|c' r]]; [congruence | discriminate | discriminate].
Qed.

Lemma components_plain (f : string) : plain_name f -> Path.components f = [f].
Proof.
  intros (Hf & Hn & Hd). unfold Path.components.
  rewrite (split_slash_free f Hf). cbn. now rewrite kept_component.
Qed.

Lemma components_cons (a b : string) :
  plain_name a -> Path.components (a ++ "/" ++ b)%string = a :: Path.components b.
Proof.
  intros (Hf & Hn & Hd). unfold Path.components.
  rewrite (split_slash_app a b Hf). cbn [List.filter]. now rewrite kept_component.
Qed.

Lemma root_of_plain (f rest : string) :
  plain_name f -> Path.root_of (f ++ rest)%string = ""%string.
Proof.
  intros (Hf & Hn & _). destruct f as [|c r]; [congruence|].
  cbn in Hf. apply andb_true_iff in Hf as [Hc _]. apply negb_true_iff in Hc.
  cbn. destruct (Ascii.ascii_dec c "/") as [->|Hne]; [discriminate|].
  destruct c as [[] [] [] [] [] [] [] []]; try reflexivity. congruence.
Qed.

Lemma root_of_plain_name (f : string) : plain_name f -> Path.root_of f = ""%string.
Proof. intros H. rewrite <- (append_nil_r f). now apply root_of_plain. Qed.

Lemma parse_plain (f : string) :
  plain_name f -> Path.parse f = {| Path.root := ""; Path.parts := [f] |}.
Proof.
  intros H. unfold Path.parse. now rewrite root_of_plain_name, components_plain.
Qed.

Lemma parse_cons (f rest : string) :
  plain_name f ->
  Path.parse (f ++ "/" ++ rest) =
  {| Path.root := ""; Path.parts := f :: Path.components rest |}.
Proof.
  intros H. unfold Path.parse. now rewrite root_of_plain, components_cons.
Qed.

Lemma join_two (a b : string) : Path.join_slash [a; b] = (a ++ "/" ++ b)%string.
Proof. reflexivity. Qed.

Lemma join_three (a b c : string) :
  Path.join_slash [a; b; c] = (a ++ "/" ++ b ++ "/" ++ c)%string.
Proof. reflexivity. Qed.

Lemma to_str_relative (x : string) (l : list string) :
  Path.to_str {| Path.root := ""; Path.parts := x :: l |} = Path.join_slash (x :: l).
Proof. reflexivity. Qed.

(** X15.  With [--backup], a folder given by a plain name gets its backup
    beside it; given with a trailing slash, inside it; given as
    [dir/name], under [dir/dir], a folder that need not exist. *)
Theorem backup_location (d f : string) :
  plain_name d -> plain_name f ->
  (folder_path_of f = f /\ backup_folder_of f = (f ++ "_backup")%string) /\
  (folder_path_of (f ++ "/") = f /\
   backup_folder_of (f ++ "/") = (f ++ "/_backup")%string) /\
  (folder_path_of (d ++ "/" ++ f) = (d ++ "/" ++ f)%string /\
   backup_folder_of (d ++ "/" ++ f) = (d ++ "/" ++ d ++ "/" ++ f ++ "_backup")%string).
Proof.
  intros Hd Hf. pose proof (plain_backup f Hf) as Hb.
  unfold folder_path_of, backup_folder_of, Path.joinpath, Path.parent.
  split; [|split].
  - rewrite (parse_plain f Hf), (parse_plain _ Hb). cbn [Path.root Path.parts].
    split; reflexivity.
  - assert (E1 : Path.parse (f ++ "/") = {| Path.root := ""; Path.parts := [f] |})
      by apply (parse_cons f "" Hf).
    assert (E2 : Path.parse ((f ++ "/") ++ "_backup") =
                 {| Path.root := ""; Path.parts := [f; "_backup"%string] |}).
    { rewrite append_assoc. apply (parse_cons f "_backup" Hf). }
    rewrite E1, E2. cbn [Path.root Path.parts]. split; reflexivity.
  - assert (E1 : Path.parse (d ++ "/" ++ f) = {| Path.root := ""; Path.parts := [d; f] |}).
    { rewrite (parse_cons d f Hd), (components_plain f Hf). reflexivity. }
    assert (E2 : Path.parse ((d ++ "/" ++ f) ++ "_backup") =
                 {| Path.root := "";
                    Path.parts := [d; (f ++ "_backup")%string] |}).
    { rewrite !append_assoc. rewrite (parse_cons d _ Hd), (components_plain _ Hb).
      reflexivity. }
    rewrite E1, E2. cbn [Path.root Path.parts]. split; reflexivity.
Qed.

Lemma backup_location_witness :
  (folder_path_of "muffin" = "muffin"%string /\
   backup_folder_of "muffin" = "muffin_backup"%string) /\
  (folder_path_of "muffin/" = "muffin"%string /\
   backup_folder_of "muffin/" = "muffin/_backup"%string) /\
  (folder_path_of "data/muffin" = "data/muffin"%string /\
   backup_folder_of "data/muffin" = "data/data/muffin_backup"%string).
Proof.
  apply (backup_location "data" "muffin");
    (split; [reflexivity | split; discriminate]).
Defined.

(** ** The runs *)

Ltac finish_log :=
  unfold say, ret, sys_exit, log; cbn [s_env s_log List.map app fst snd];
  rewrite <- ?app_assoc; cbn [app]; reflexivity.

Section WithCollaborators.

Context {env image : Type}.
Variable lib : library env image.
Variable sh : shell env.
Variable cs : bool.

Lemma bind_returned {A B} (m : C env image A) (k : A -> C env image B) s a s' :
  m s = (Returned a, s') -> bind m k s = k a s'.
Proof. intros E. unfold bind. now rewrite E. Qed.

Lemma bind_raised {A B} (m : C env image A) (k : A -> C env image B) s e s' :
  m s = (Raised e, s') -> bind m k s = (Raised e, s').
Proof. intros E. unfold bind. now rewrite E. Qed.

Lemma bind_ret {A B} (a : A) (k : A -> C env image B) s : bind (ret a) k s = k a s.
Proof. reflexivity. Qed.

Lemma bind_say {B} (l : line) (k : unit -> C env image B) s :
  bind (say l) k s = k tt (log (Say l) s).
Proof. reflexivity. Qed.

Lemma bind_path_exists {B} (p : string) (k : bool -> C env image B) s :
  bind (path_exists lib p) k s = k (os_exists lib p (s_env s)) s.
Proof. reflexivity. Qed.

Lemma bind_glob {B} (folder suffix : string) (k : list string -> C env image B) s :
  bind (glob lib cs folder suffix) k s =
  k (glob_suffix cs (os_listdir lib folder (s_env s)) suffix) s.
Proof. reflexivity. Qed.

Lemma bind_lift_exn {A B} (r : exn + A) (k : A -> C env image B) s :
  bind (lift_exn r) k s = match r with inl e => (Raised e, s) | inr a => k a s end.
Proof. destruct r; reflexivity. Qed.

Lemma bind_mkdir {B} (p : string) (k : unit -> C env image B) (s : session env image) :
  bind (mkdir sh p) k s =
  match sh_mkdir sh p (s_env s) with
  | (inl e, e') => (Raised e, {| s_env := e'; s_log := s_log s ++ [MkDir p] |})
  | (inr u, e') => k u {| s_env := e'; s_log := s_log s ++ [MkDir p] |}
  end.
Proof.
  unfold bind, mkdir. destruct (sh_mkdir sh p (s_env s)) as [[e|u] e']; reflexivity.
Qed.

Lemma bind_run_lib {A B} (m : M env image A) (k : A -> C env image B)
    (s : session env image) :
  bind (run_lib m) k s =
  match m {| w_env := s_env s; w_trace := [] |} with
  | (inl e, w') =>
      (Raised e, {| s_env := w_env w'; s_log := s_log s ++ List.map Lib (w_trace w') |})
  | (inr a, w') =>
      k a {| s_env := w_env w'; s_log := s_log s ++ List.map Lib (w_trace w') |}
  end.
Proof.
  unfold bind, run_lib. destruct (m _) as [[e|a] w']; reflexivity.
Qed.

(** *** Copies *)

Lemma copy_all_log (folder backup : string) :
  forall (names : list string) (s : session env image),
  exists tail,
    s_log (snd (copy_all sh folder backup names s)) = s_log s ++ tail /\
    tail `prefix_of` List.map (copy_of folder backup) names.
Proof.
  induction names as [|name rest IH]; intros s.
  - exists []. cbn. rewrite app_nil_r. split; [reflexivity | apply prefix_nil].
  - cbn [copy_all]. unfold bind at 1. unfold copy2 at 1.
    destruct (sh_copy2 sh _ _ (s_env s)) as [[e|[]] e']; cbn [of_result].
    + exists [copy_of folder backup name]. cbn [snd s_log List.map].
      split; [reflexivity|]. apply prefix_cons, prefix_nil.
    + destruct (IH {| s_env := e';
                      s_log := s_log s ++ [Copy (path_join folder name)
                                             (path_join backup name)] |})
        as (t & E & P).
      exists (copy_of folder backup name :: t). rewrite E. cbn [s_log List.map].
      rewrite <- app_assoc. split; [reflexivity|]. now apply prefix_cons.
Qed.

Lemma glob_copies (folder backup suffix : string) (names : list string) (t : list (step image)) :
  suffix = ".jpg"%string \/ suffix = ".jpeg"%string ->
  t `prefix_of` List.map (copy_of folder backup) (glob_suffix cs names suffix) ->
  Forall (backup_copy cs folder backup) t.
Proof.
  intros Hs [k Hk]. apply Forall_forall. intros st Hst.
  assert (Hin : st ∈ List.map (copy_of folder backup) (glob_suffix cs names suffix)).
  { rewrite Hk. apply elem_of_app. now left. }
  apply list_elem_of_In, in_map_iff in Hin as (name & <- & Hn).
  exists name. split; [reflexivity|].
  unfold glob_suffix in Hn. apply filter_In in Hn as [_ Hn].
  unfold backed_up_name. destruct cs.
  - destruct Hs as [-> | ->]; rewrite Hn; auto using orb_true_r.
  - destruct Hs as [-> | ->];
      [change (lower ".jpg") with ".jpg"%string in Hn
      |change (lower ".jpeg") with ".jpeg"%string in Hn];
      rewrite Hn; auto using orb_true_r.
Qed.

Lemma make_backup_log (folder_name : string) (s : session env image) :
  let folder := folder_path_of folder_name in
  let backup := backup_folder_of folder_name in
  if os_exists lib backup (s_env s)
  then make_backup lib sh cs folder_name s = (Returned tt, s)
  else exists tail,
         s_log (snd (make_backup lib sh cs folder_name s)) =
           s_log s ++ Say (LnBackupCreated backup) :: MkDir backup :: tail /\
         Forall (backup_copy cs folder backup) tail.
Proof.
  intros folder backup. unfold make_backup. fold folder. fold backup.
  rewrite bind_path_exists.
  destruct (os_exists lib backup (s_env s)); cbn [negb]; [reflexivity|].
  rewrite bind_say, bind_mkdir. cbn [log s_env s_log].
  destruct (sh_mkdir sh backup (s_env s)) as [[e|[]] e1].
  { exists []. cbn [snd s_log]. rewrite <- app_assoc. split; [reflexivity | constructor]. }
  rewrite bind_glob. cbn [s_env].
  set (s1 := {| s_env := e1;
                s_log := (s_log s ++ [Say (LnBackupCreated backup)]) ++ [MkDir backup] |}).
  destruct (copy_all_log folder backup
              (glob_suffix cs (os_listdir lib folder e1) ".jpg") s1) as (t1 & E1 & P1).
  pose proof (glob_copies folder backup ".jpg" _ t1 (or_introl eq_refl) P1) as F1.
  unfold bind at 1.
  destruct (copy_all sh folder backup _ s1) as [[[]|e|c] s2]; cbn [snd] in E1.
  - rewrite bind_glob.
    destruct (copy_all_log folder backup
                (glob_suffix cs (os_listdir lib folder (s_env s2)) ".jpeg") s2)
      as (t2 & E2 & P2).
    pose proof (glob_copies folder backup ".jpeg" _ t2 (or_intror eq_refl) P2) as F2.
    exists (t1 ++ t2). rewrite E2, E1. unfold s1. cbn [s_log].
    rewrite <- !app_assoc. split; [reflexivity|]. now apply Forall_app.
  - exists t1. cbn [snd]. rewrite E1. unfold s1. cbn [s_log].
    rewrite <- !app_assoc. auto.
  - exists t1. cbn [snd]. rewrite E1. unfold s1. cbn [s_log].
    rewrite <- !app_assoc. auto.
Qed.

(** *** Folders that are not there *)

Lemma folders_loop_missing (prepare : string -> C env image unit)
    (compress : string -> M env image (Z * Z * Z)) : forall names totals s,
  (forall name, name ∈ names -> os_exists lib (folder_path_of name) (s_env s) = false) ->
  folders_loop lib prepare compress names totals s =
  (Returned totals,
   {| s_env := s_env s;
      s_log := s_log s ++ List.map (fun name => Say (LnFolderSkipped name)) names |}).
Proof.
  induction names as [|name rest IH]; intros totals s H.
  - cbn. rewrite app_nil_r. destruct s. reflexivity.
  - destruct totals as [[a b] c]. cbn [folders_loop].
    rewrite bind_path_exists, (H name) by now left.
    rewrite bind_say, IH.
    + cbn [log s_env s_log List.map]. rewrite <- app_assoc. reflexivity.
    + intros n Hn. cbn [log s_env]. apply H. now right.
Qed.

(** *** No prompt *)

Lemma unprompted_ret {A} (a : A) : unprompted (ret a : C env image A).
Proof. intros s. exists []. cbn. rewrite app_nil_r. auto. Qed.

Lemma unprompted_state {A} (m : C env image A) :
  (forall s, snd (m s) = s) -> unprompted m.
Proof. intros H s. exists []. rewrite H, app_nil_r. auto. Qed.

Lemma unprompted_bind {A B} (m : C env image A) (k : A -> C env image B) :
  unprompted m -> (forall a, unprompted (k a)) -> unprompted (bind m k).
Proof.
  intros Hm Hk s. unfold bind. destruct (Hm s) as (t1 & E1 & F1).
  destruct (m s) as [[a|e|c] s1]; cbn [snd] in *; [|eauto|eauto].
  destruct (Hk a s1) as (t2 & E2 & F2). exists (t1 ++ t2).
  rewrite E2, E1, app_assoc. split; [reflexivity | now apply Forall_app].
Qed.

Lemma unprompted_say (l : line) : unprompted (say l : C env image unit).
Proof.
  intros s. exists [Say l]. split; [reflexivity|]. repeat constructor. discriminate.
Qed.

Lemma unprompted_lift_exn {A} (r : exn + A) : unprompted (lift_exn r : C env image A).
Proof. apply unprompted_state. reflexivity. Qed.

Lemma unprompted_mkdir (p : string) : unprompted (mkdir sh p : C env image unit).
Proof.
  intros s. exists [MkDir p]. unfold mkdir. destruct (sh_mkdir sh p (s_env s)).
  split; [reflexivity|]. repeat constructor. discriminate.
Qed.

Lemma unprompted_copy2 (a b : string) : unprompted (copy2 sh a b : C env image unit).
Proof.
  intros s. exists [Copy a b]. unfold copy2. destruct (sh_copy2 sh a b (s_env s)).
  split; [reflexivity|]. repeat constructor. discriminate.
Qed.

Lemma unprompted_run_lib {A} (m : M env image A) : unprompted (run_lib m).
Proof.
  intros s. unfold run_lib. destruct (m _) as [r w']. eexists. split; [reflexivity|].
  apply Forall_forall. intros st Hst.
  apply list_elem_of_In, in_map_iff in Hst as (ev & <- & _). discriminate.
Qed.

Lemma unprompted_copy_all (folder backup : string) (names : list string) :
  unprompted (copy_all sh folder backup names : C env image unit).
Proof.
  induction names as [|name rest IH]; cbn [copy_all]; [apply unprompted_ret|].
  apply unprompted_bind; [apply unprompted_copy2 | intros _; exact IH].
Qed.

Lemma unprompted_make_backup (folder_name : string) :
  unprompted (make_backup lib sh cs folder_name).
Proof.
  unfold make_backup. apply unprompted_bind; [now apply unprompted_state|].
  intros ex. destruct (negb ex); [|apply unprompted_ret].
  apply unprompted_bind; [apply unprompted_say|]. intros _.
  apply unprompted_bind; [apply unprompted_mkdir|]. intros _.
  apply unprompted_bind; [now apply unprompted_state|]. intros jpg.
  apply unprompted_bind; [apply unprompted_copy_all|]. intros _.
  apply unprompted_bind; [now apply unprompted_state|]. intros jpeg.
  apply unprompted_copy_all.
Qed.

Lemma unprompted_print_figures (sc : scope) (n o c : Z) (ratio : float) :
  unprompted (print_figures sc n o c ratio : C env image unit).
Proof.
  unfold print_figures.
  repeat (first [ apply unprompted_say
                | apply unprompted_bind;
                  [first [apply unprompted_say | apply unprompted_lift_exn]|]; intros ? ]).
Qed.

Lemma unprompted_folder_summary (name : string) (o c n : Z) :
  unprompted (folder_summary name o c n : C env image unit).
Proof.
  unfold folder_summary. destruct (n >? 0); [|apply unprompted_ret].
  apply unprompted_bind; [apply unprompted_lift_exn|]. intros r.
  apply unprompted_bind; [apply unprompted_say|]. intros _.
  apply unprompted_print_figures.
Qed.

Lemma unprompted_folders_loop (prepare : string -> C env image unit)
    (compress : string -> M env image (Z * Z * Z)) :
  (forall name, unprompted (prepare name)) ->
  forall names totals, unprompted (folders_loop lib prepare compress names totals).
Proof.
  intros Hp. induction names as [|name rest IH]; intros totals.
  - apply unprompted_ret.
  - destruct totals as [[a b] c]. cbn [folders_loop].
    apply unprompted_bind; [now apply unprompted_state|]. intros ex.
    destruct ex.
    + apply unprompted_bind; [apply Hp|]. intros _.
      apply unprompted_bind; [apply unprompted_run_lib|]. intros [[o c'] n].
      apply unprompted_bind; [apply unprompted_folder_summary|]. intros _. apply IH.
    + apply unprompted_bind; [apply unprompted_say|]. intros _. apply IH.
Qed.

Lemma unprompted_final_report (ultra : bool) (totals : Z * Z * Z) :
  unprompted (final_report ultra totals : C env image unit).
Proof.
  destruct totals as [[o c] n]. unfold final_report.
  apply unprompted_bind; [apply unprompted_say|]. intros _.
  destruct (n >? 0); [|apply unprompted_say].
  apply unprompted_bind; [apply unprompted_lift_exn|]. intros r. cbv zeta.
  apply unprompted_bind; [apply unprompted_print_figures|]. intros _.
  destruct (o - c >? 0); [|apply unprompted_say].
  apply unprompted_bind; [apply unprompted_lift_exn|]. intros s.
  apply unprompted_bind; [apply unprompted_say|]. intros _.
  destruct ultra; [apply unprompted_say | apply unprompted_ret].
Qed.

(** *** The closing report *)

Lemma print_figures_run (sc : scope) (n o c : Z) (ratio : float) (a b sv : string)
    (s : session env image) :
  format_size o = inr a -> format_size c = inr b -> format_size (o - c) = inr sv ->
  print_figures sc n o c ratio s =
  (Returned tt,
   {| s_env := s_env s;
      s_log := s_log s ++
        List.map Say [LnCount sc n; LnOriginal sc a; LnCompressed sc b;
                      LnSaved sc sv (format_fixed1 ratio)] |}).
Proof.
  intros Ea Eb Es. unfold print_figures.
  rewrite bind_say, Ea, bind_lift_exn, bind_say, Eb, bind_lift_exn, bind_say, Es,
    bind_lift_exn.
  unfold say, log. cbn [s_env s_log List.map]. rewrite <- !app_assoc. reflexivity.
Qed.

Lemma final_report_lines (ultra : bool) (total_original total_compressed total_files : Z)
    (s : session env image) :
  0 < total_files ->
  0 <= total_original < 2 ^ 53 -> 0 <= total_compressed < 2 ^ 53 ->
  exists (a b saved : string) (r : Q),
    format_size total_original = inr a /\
    format_size total_compressed = inr b /\
    format_size (total_original - total_compressed) = inr saved /\
    ratio_or_zero total_original total_compressed = inr (Finite r) /\
    final_report ultra (total_original, total_compressed, total_files) s =
    (Returned tt,
     {| s_env := s_env s;
        s_log := s_log s ++
          List.map Say
            ([LnReportHeader; LnCount Overall total_files; LnOriginal Overall a;
              LnCompressed Overall b; LnSaved Overall saved (format_fixed1 (Finite r))]
             ++ (if total_original - total_compressed >? 0
                 then LnSuccess saved
                      :: (if ultra then [LnGain (format_fixed1 (Finite r))] else [])
                 else [LnAlreadyOptimal])) |}).
Proof.
  intros Hf Ho Hc.
  assert (B : 2 ^ 53 < 2 ^ 1000) by (apply Z.pow_lt_mono_r; lia).
  destruct (format_size_returns total_original ltac:(lia)) as (a & Ea).
  destruct (format_size_returns total_compressed ltac:(lia)) as (b & Eb).
  destruct (format_size_returns (total_original - total_compressed) ltac:(lia))
    as (sv & Es).
  destruct (ratio_or_zero_returns total_original total_compressed ltac:(lia))
    as (r & Er).
  exists a, b, sv, r. repeat (split; [assumption|]).
  unfold final_report. rewrite bind_say.
  destruct (Z.gtb_spec total_files 0) as [_|]; [|lia].
  rewrite Er, bind_lift_exn. cbv zeta. unfold bind at 1.
  rewrite (print_figures_run Overall total_files total_original total_compressed
             (Finite r) a b sv _ Ea Eb Es).
  destruct (total_original - total_compressed >? 0).
  - rewrite Es, bind_lift_exn, bind_say.
    destruct ultra; unfold say, ret, log; cbn [s_env s_log List.map app];
      rewrite <- ?app_assoc; reflexivity.
  - unfold say, log. cbn [s_env s_log List.map app]. rewrite <- ?app_assoc.
    reflexivity.
Qed.

End WithCollaborators.

(** X16.  At the prompt of the ultra script any answer but [y] (after
    lowercasing and stripping) ends the run with exit status 0: nothing
    is listed, opened, copied or written. *)
Theorem declined_run_changes_nothing {env image : Type}
    (lib : library env image) (sh : shell env) (cs : bool) (a : args)
    (s : session env image) (answer : string) (env' : env) :
  a_backup a = false ->
  sh_answer sh (s_env s) = (inr answer, env') ->
  answer <> "y"%string ->
  main_ultra lib sh cs a s =
  (SysExit 0,
   {| s_env := env';
      s_log := s_log s ++ [Say (LnBanner (a_max_width a) (a_max_height a) (a_quality a));
                           Ask; Say LnCancelled] |}).
Proof.
  intros Hb Ha Hn. unfold main_ultra. rewrite bind_say, Hb. cbn [negb].
  unfold bind at 1. unfold bind at 1. unfold input_answer at 1.
  cbn [log s_env s_log]. rewrite Ha. cbn [of_result].
  apply String.eqb_neq in Hn. rewrite Hn. cbn [negb].
  rewrite bind_say. finish_log.
Qed.

Lemma declined_run_changes_nothing_witness :
  main_ultra Demo.lib (CliDemo.sh "n") true (CliDemo.ultra_defaults ["muffin"]%string false)
    (CliDemo.begin Demo.disk_case) =
  (SysExit 0,
   {| s_env := Demo.disk_case;
      s_log := [] ++ [Say (LnBanner 400 400 40); Ask; Say LnCancelled] |}).
Proof.
  apply (declined_run_changes_nothing Demo.lib (CliDemo.sh "n") true
           (CliDemo.ultra_defaults ["muffin"]%string false)
           (CliDemo.begin Demo.disk_case) "n" Demo.disk_case);
    [reflexivity | reflexivity | discriminate].
Defined.

(** X17.  With [--backup] the ultra script asks nothing: it goes on to
    overwrite the files without a confirmation, also when the backup
    folder exists already and no copy is made. *)
Theorem backup_flag_skips_the_prompt {env image : Type}
    (lib : library env image) (sh : shell env) (cs : bool) (a : args)
    (s : session env image) :
  a_backup a = true ->
  exists tail,
    s_log (snd (main_ultra lib sh cs a s)) = s_log s ++ tail /\
    Forall (fun st => st <> Ask) tail.
Proof.
  intros Hb. revert s. change (unprompted (main_ultra lib sh cs a)).
  unfold main_ultra. rewrite Hb. cbn [negb].
  apply unprompted_bind; [apply unprompted_say|]. intros _.
  apply unprompted_bind; [apply unprompted_ret|]. intros _.
  apply unprompted_bind; [|intros totals; apply unprompted_final_report].
  apply unprompted_folders_loop. intros name. apply unprompted_make_backup.
Qed.

Lemma backup_flag_skips_the_prompt_witness :
  exists tail,
    s_log (snd (main_ultra Demo.lib (CliDemo.sh "n") true
                  (CliDemo.ultra_defaults ["muffin"]%string true)
                  (CliDemo.begin Demo.disk_case))) = [] ++ tail /\
    Forall (fun st => st <> Ask) tail.
Proof.
  apply (backup_flag_skips_the_prompt Demo.lib (CliDemo.sh "n") true
           (CliDemo.ultra_defaults ["muffin"]%string true)
           (CliDemo.begin Demo.disk_case)).
  reflexivity.
Defined.

(** X18.  The backup of the ultra script: nothing is copied when the backup
    folder exists already; otherwise it is created and receives copies of
    files matching [*.jpg] and [*.jpeg] only, while the compression that
    follows also takes [*.JPG] and [*.JPEG]: on a case-sensitive file
    system [a.JPG] is overwritten without a copy. *)
Theorem backup_protocol :
  (forall (env image : Type) (lib : library env image) (sh : shell env) (cs : bool)
     (folder_name : string) (s : session env image),
     let folder := folder_path_of folder_name in
     let backup := backup_folder_of folder_name in
     if os_exists lib backup (s_env s)
     then make_backup lib sh cs folder_name s = (Returned tt, s)
     else exists tail,
            s_log (snd (make_backup lib sh cs folder_name s)) =
              s_log s ++ Say (LnBackupCreated backup) :: MkDir backup :: tail /\
            Forall (backup_copy cs folder backup) tail) /\
  (let r := main_ultra Demo.lib (CliDemo.sh "y") true
              (CliDemo.ultra_defaults ["muffin"]%string true)
              (CliDemo.begin Demo.disk_case) in
   fst r = Returned tt /\
   copies (s_log (snd r)) = [("muffin/b.jpg", "muffin_backup/b.jpg")]%string /\
   List.map fst (flat_map save_of (library_events (s_log (snd r))))
     = ["muffin/b.jpg"; "muffin/a.JPG"]%string).
Proof.
  split.
  - intros. apply make_backup_log.
  - vm_compute. repeat split; reflexivity.
Qed.

(** X19.  When none of the folders exists (or none is given) the run prints a
    notice per folder and the closing "nothing found"; the folders that
    are not there are neither listed nor created. *)
Theorem all_folders_missing {env image : Type}
    (lib : library env image) (sh : shell env) (cs : bool) (a : args)
    (s : session env image) :
  (forall name, name ∈ a_folders a ->
                os_exists lib (folder_path_of name) (s_env s) = false) ->
  let expected :=
    (Returned tt,
     {| s_env := s_env s;
        s_log := s_log s ++
          Say (LnBanner (a_max_width a) (a_max_height a) (a_quality a))
          :: List.map (fun name => Say (LnFolderSkipped name)) (a_folders a)
          ++ [Say LnReportHeader; Say LnNothingFound] |}) in
  main lib cs a s = expected /\
  (a_backup a = true -> main_ultra lib sh cs a s = expected).
Proof.
  intros H expected. unfold expected. split.
  - unfold main. rewrite bind_say. unfold bind at 1.
    rewrite (folders_loop_missing lib) by exact H.
    unfold final_report. rewrite bind_say. change (0 >? 0) with false. cbv iota.
    finish_log.
  - intros Hb. unfold main_ultra. rewrite bind_say, Hb. cbn [negb].
    rewrite bind_ret. unfold bind at 1.
    rewrite (folders_loop_missing lib) by exact H.
    unfold final_report. rewrite bind_say. change (0 >? 0) with false. cbv iota.
    finish_log.
Qed.

Lemma all_folders_missing_witness :
  main Demo.lib true (CliDemo.ultra_defaults ["nowhere"; "void"]%string false)
    (CliDemo.begin Demo.disk_case) =
  (Returned tt,
   {| s_env := Demo.disk_case;
      s_log := [] ++ Say (LnBanner 400 400 40)
               :: [Say (LnFolderSkipped "nowhere"); Say (LnFolderSkipped "void")]
               ++ [Say LnReportHeader; Say LnNothingFound] |}).
Proof.
  apply (all_folders_missing Demo.lib (CliDemo.sh "y") true
           (CliDemo.ultra_defaults ["nowhere"; "void"]%string false)
           (CliDemo.begin Demo.disk_case)).
  intros name Hn. repeat (apply elem_of_cons in Hn as [-> | Hn]; [reflexivity|]).
  now apply elem_of_nil in Hn.
Defined.

(** X20.  An exception that escapes [compress_folder] is not caught by [main]
    either: the run ends there, the folders that follow are not
    processed and no report is printed. *)
Theorem folder_error_stops_the_run {env image : Type}
    (lib : library env image) (cs : bool) (a : args) (s : session env image)
    (folder_name : string) (rest : list string) (e : exn) (w' : world env image) :
  a_folders a = folder_name :: rest ->
  os_exists lib (folder_path_of folder_name) (s_env s) = true ->
  compress_folder lib cs (folder_path_of folder_name)
    (a_max_width a) (a_max_height a) (a_quality a)
    {| w_env := s_env s; w_trace := [] |} = (inl e, w') ->
  main lib cs a s =
  (Raised e,
   {| s_env := w_env w';
      s_log := s_log s ++
        Say (LnBanner (a_max_width a) (a_max_height a) (a_quality a))
        :: List.map Lib (w_trace w') |}).
Proof.
  intros Hf Hex Hc. unfold main. rewrite bind_say, Hf. unfold bind at 1.
  cbn [folders_loop]. rewrite bind_path_exists. cbn [log s_env]. rewrite Hex.
  rewrite bind_ret, bind_run_lib. cbv beta. cbn [log s_env s_log]. rewrite Hc.
  finish_log.
Qed.

Lemma folder_error_stops_the_run_witness :
  exists w',
    main Demo.lib true (CliDemo.ultra_defaults ["muffin"; "chihuahua"]%string false)
      (CliDemo.begin Demo.disk_dangling) =
    (Raised (OSError "No such file or directory"),
     {| s_env := w_env w';
        s_log := [] ++ Say (LnBanner 400 400 40) :: List.map Lib (w_trace w') |}).
Proof.
  eexists.
  apply (folder_error_stops_the_run Demo.lib true
           (CliDemo.ultra_defaults ["muffin"; "chihuahua"]%string false)
           (CliDemo.begin Demo.disk_dangling) "muffin" ["chihuahua"%string]);
    [reflexivity | reflexivity | vm_compute; reflexivity].
Defined.

(** X21.  The closing report for sizes below [2^53]: the totals, then the
    verdict "success" exactly when the total shrank; when the files grew
    the space saved is shown as a negative number of bytes and the
    verdict is "already optimal". *)
Theorem final_report_verdict {env image : Type} (ultra : bool)
    (total_original total_compressed total_files : Z) (s : session env image) :
  0 < total_files ->
  0 <= total_original < 2 ^ 53 -> 0 <= total_compressed < 2 ^ 53 ->
  exists (a b saved percent : string),
    format_size total_original = inr a /\
    format_size total_compressed = inr b /\
    format_size (total_original - total_compressed) = inr saved /\
    (total_original < total_compressed ->
       saved = (str (total_original - total_compressed) ++ " B")%string) /\
    final_report ultra (total_original, total_compressed, total_files) s =
    (Returned tt,
     {| s_env := s_env s;
        s_log := s_log s ++
          List.map Say
            ([LnReportHeader; LnCount Overall total_files; LnOriginal Overall a;
              LnCompressed Overall b; LnSaved Overall saved percent]
             ++ (if total_original - total_compressed >? 0
                 then LnSuccess saved :: (if ultra then [LnGain percent] else [])
                 else [LnAlreadyOptimal])) |}).
Proof.
  intros Hf Ho Hc.
  destruct (final_report_lines ultra total_original total_compressed total_files s
              Hf Ho Hc) as (a & b & sv & r & Ea & Eb & Es & _ & E).
  exists a, b, sv, (format_fixed1 (Finite r)).
  repeat (split; [assumption|]). split; [|exact E].
  intros Hlt. unfold format_size in Es.
  destruct (Z.ltb_spec (total_original - total_compressed) 1024) as [_|]; [|lia].
  now injection Es as <-.
Qed.

Lemma final_report_verdict_witness :
  exists (a b saved percent : string),
    format_size 70000 = inr a /\
    format_size 85200 = inr b /\
    format_size (70000 - 85200) = inr saved /\
    (70000 < 85200 -> saved = (str (70000 - 85200) ++ " B")%string) /\
    final_report true (70000, 85200, 2) (CliDemo.begin Demo.disk_case) =
    (Returned tt,
     {| s_env := Demo.disk_case;
        s_log := [] ++
          List.map Say
            ([LnReportHeader; LnCount Overall 2; LnOriginal Overall a;
              LnCompressed Overall b; LnSaved Overall saved percent]
             ++ [LnAlreadyOptimal]) |}).
Proof.
  apply (final_report_verdict true 70000 85200 2 (CliDemo.begin Demo.disk_case)); lia.
Defined.

End CliFacts.

(** * Resizing only shrinks *)
Module ResizeMore.

Import Report FloatFacts RoundFacts.

#[local] Open Scope Q_scope.






(** ** Bounds that are not positive *)






End ResizeMore.
